(** * Backtesting framework: ledger, next-bar execution engine, trade reconstruction

    A shallow embedding of [backtester/portfolio.py], [backtester/engine.py]
    and [backtester/metrics.py].

    Modelling conventions.
    - Python [float] quantities (cash, prices, rates, amounts) are exact
      rationals [Q], so rounding is left out; comparisons between them use
      [Qle], [Qlt] and [Qeq].  Share counts, signals and positions are [Z].
      Only [sharpe], which takes square roots, is over the reals, with NaN
      made explicit.
    - The side of an order is BUY or SELL; in the code every string other
      than ["BUY"] takes the SELL branch.
    - A [pd.Timestamp] of a daily bar is its day number, a [Z].
    - A [dict] is a [gmap]; a [DataFrame] of bars is a [gmap] from day to
      [Bar.t]; an insertion-ordered dict that the code iterates is the
      list of its items.
    - Exceptions are values of [exn]; code that mutates [self] and may
      raise lives in the monad [M], whose state survives a raise exactly as
      the attributes of a Python object do.
    - The input contract of the engine: [generate_signals] returns a frame
      whose columns are symbols of the data, and every Open and Close is a
      number.  What the code does outside it (an exception out of the
      strategy, a [KeyError] for a foreign column, a NaN mark) and what
      rounding adds (an [OverflowError] from [int] of an infinite quotient)
      is not in the exact embedding.
    - Where rounding decides, the code is embedded once more on binary64
      numbers, the kernel's primitive floats: [Binary64] has the entry
      block of [run] with Python's [//] and [int]. *)

From Stdlib Require Import ZArith QArith Qround Qabs Qminmax Lqa Lia List Reals.
From Stdlib Require PrimFloat FloatOps SpecFloat.
From stdpp Require Import gmap strings list fin_maps sorting.
Import ListNotations.

Local Open Scope Z_scope.
Local Open Scope Q_scope.

(** ** Shared vocabulary *)

Inductive Side := BUY | SELL.

#[global] Instance Side_eq_dec : EqDecision Side.
Proof. solve_decision. Defined.

Inductive exn :=
| AttributeError
| IndexError
| KeyError
| TypeError
| ZeroDivisionError.

#[global] Instance exn_eq_dec : EqDecision exn.
Proof. solve_decision. Defined.

(** [d.get(k, 0)] on a dict of integers. *)
Definition getd (m : gmap string Z) (k : string) : Z := default 0%Z (m !! k).

(** Python's [a // b] on floats whose result is then passed to [int]:
    the floor of the quotient, [ZeroDivisionError] when [b] is zero.  The
    quotient is the exact one; [Binary64.floordiv] is the rounded one,
    which can be lower by one and can be an infinity. *)
Definition floordiv (a b : Q) : exn + Z :=
  if Qeq_dec b 0 then inl ZeroDivisionError else inr (Qfloor (a / b)).

(** ** portfolio.py *)

Module Position.
Record t := mk { symbol : string; qty : Z; avg_cost : Q }.
(** [Position(symbol)]: the dataclass defaults. *)
Definition new (sym : string) : t := mk sym 0 0.
End Position.

Module Fill.
Record t := mk {
  date : Z;
  symbol : string;
  side : Side;
  qty : Z;
  price : Q;
  commission : Q;
  cash_after : Q;
  equity_after : Q
}.
End Fill.

Module Portfolio.
Record t := mk {
  cash : Q;
  positions : gmap string Position.t;
  fills : list Fill.t
}.

(** [Portfolio(cash=c)]: the two containers come from their factories. *)
Definition new (c : Q) : t := mk c ∅ [].

Definition market_value (p : t) (prices : gmap string Q) : Q :=
  map_fold (fun sym pos mv =>
              mv + inject_Z (Position.qty pos) * default 0 (prices !! sym))
           0 (positions p).

Definition equity (p : t) (prices : gmap string Q) : Q :=
  cash p + market_value p prices.

(** [_apply_fill]: [setdefault] fetches or creates the symbol's
    [Position], the branch on [side] updates cash and that position, and
    one [Fill] carrying the new cash and the equity under [prices_now] is
    appended.  Any side other than BUY takes the [else] branch.  Every
    symbol owns its [Position] object, made for it by [setdefault], so the
    dict is a map from symbols to position values. *)
Definition _apply_fill (p : t) (date : Z) (symbol : string) (side : Side)
    (qty : Z) (price commission : Q) (prices_now : gmap string Q) : t :=
  let pos := default (Position.new symbol) (positions p !! symbol) in
  let notional := inject_Z qty * price in
  let '(cash', pos') :=
    match side with
    | BUY =>
        let new_qty := (Position.qty pos + qty)%Z in
        (cash p - (notional + commission),
         Position.mk (Position.symbol pos) new_qty
           (if decide (new_qty = 0%Z) then 0
            else (Position.avg_cost pos * inject_Z (Position.qty pos) + notional)
                 / inject_Z new_qty))
    | SELL =>
        let new_qty := (Position.qty pos - qty)%Z in
        (cash p + (notional - commission),
         Position.mk (Position.symbol pos) new_qty
           (if decide (new_qty = 0%Z) then 0 else Position.avg_cost pos))
    end in
  let p1 := mk cash' (<[symbol := pos']> (positions p)) (fills p) in
  mk (cash p1) (positions p1)
     (fills p1 ++ [Fill.mk date symbol side qty price commission
                           (cash p1) (equity p1 prices_now)]).
End Portfolio.

(** ** engine.py *)

Module Bar.
(** The two columns of a bar that the engine reads, both holding
    numbers. *)
Record t := mk { Open : Q; Close : Q }.
End Bar.

Module Costs.
Record t := mk { commission_rate : Q; slippage_rate : Q }.
End Costs.

(** A [DataFrame] of bars indexed by day; [data] is the dict of frames in
    insertion order. *)
Abbreviation frame := (gmap Z Bar.t).
Abbreviation dataset := (list (string * frame)).

(** What [strategy.generate_signals(data)] returns, read as a table: the
    raw value of a column at a day, [None] where the frame has no row or
    holds NaN.  By the Strategy interface its columns are the symbols of
    [data]. *)
Definition Strategy := dataset -> string -> Z -> option Z.

(** The attributes of a [Backtester] that [run] only reads. *)
Record Backtester := mkBacktester {
  data : dataset;
  strategy : Strategy;
  initial_capital : Q;
  costs : Costs.t;
  allow_shorts : bool;
  calendar : list Z;
  per_symbol_budget : Q
}.

(** The attributes [run] mutates, with its two locals [prev_target] and
    [equity_curve]. *)
Record state := mkState {
  cash : Q;
  positions : gmap string Z;
  fills : list Fill.t;
  prev_target : gmap string Z;
  equity_curve : list (Z * Q)
}.

Definition set_cash (c : Q) (s : state) : state :=
  mkState c (positions s) (fills s) (prev_target s) (equity_curve s).
Definition set_position (sym : string) (q : Z) (s : state) : state :=
  mkState (cash s) (<[sym := q]> (positions s)) (fills s) (prev_target s)
          (equity_curve s).
Definition append_fill (f : Fill.t) (s : state) : state :=
  mkState (cash s) (positions s) (fills s ++ [f]) (prev_target s)
          (equity_curve s).
Definition set_prev_target (sym : string) (t : Z) (s : state) : state :=
  mkState (cash s) (positions s) (fills s) (<[sym := t]> (prev_target s))
          (equity_curve s).
Definition append_equity (e : Z * Q) (s : state) : state :=
  mkState (cash s) (positions s) (fills s) (prev_target s)
          (equity_curve s ++ [e]).

(** *** The state-and-exception monad of [run] *)

Definition M (A : Type) : Type := state -> (exn + A) * state.

Definition ret {A} (a : A) : M A := fun s => (inr a, s).
Definition raise {A} (e : exn) : M A := fun s => (inl e, s).
Definition bind {A B} (m : M A) (k : A -> M B) : M B :=
  fun s => match m s with
           | (inr a, s') => k a s'
           | (inl e, s') => (inl e, s')
           end.
Definition get : M state := fun s => (inr s, s).
Definition modify (f : state -> state) : M unit := fun s => (inr tt, f s).
Definition lift {A} (r : exn + A) : M A :=
  match r with inl e => raise e | inr a => ret a end.

Notation "x <- m ;; k" := (bind m (fun x => k))
  (at level 100, m at next level, right associativity).
Notation "m ;;; k" := (bind m (fun _ => k))
  (at level 100, right associativity).

(** [for x in xs: body(x)] *)
Fixpoint for_each {A} (xs : list A) (body : A -> M unit) : M unit :=
  match xs with
  | [] => ret tt
  | x :: rest => body x ;;; for_each rest body
  end.

(** *** Construction *)

(** The loop of [__init__] that intersects the frames' indexes; [idx]
    starts as [None]. *)
Fixpoint common_index (frames : list frame) (idx : option (gset Z))
  : option (gset Z) :=
  match frames with
  | [] => idx
  | df :: rest =>
      common_index rest
        (Some (match idx with None => dom df | Some i => i ∩ dom df end))
  end.

(** [idx.sort_values()]: with no frame at all [idx] is still [None] and
    the attribute access fails. *)
Definition make_calendar (d : dataset) : exn + list Z :=
  match common_index (map snd d) None with
  | None => inl AttributeError
  | Some idx => inr (merge_sort Z.le (elements idx))
  end.

Definition symbols (d : dataset) : list string := map fst d.

(** [Backtester(data, strategy, initial_capital, costs, allow_shorts)]. *)
Definition Backtester_init (d : dataset) (strat : Strategy) (capital : Q)
    (c : Costs.t) (shorts : bool) : exn + Backtester :=
  match make_calendar d with
  | inl e => inl e
  | inr cal =>
      let n_symbols := Z.max 1 (Z.of_nat (length (symbols d))) in
      inr (mkBacktester d strat capital c shorts cal
             (capital * (95 # 100) / inject_Z n_symbols))
  end.

(** The mutable attributes as [__init__] leaves them, together with the
    fresh locals of [run]: cash is the initial capital, every symbol is
    flat, nothing is filled, every previous target is 0. *)
Definition init_state (bt : Backtester) : state :=
  mkState (initial_capital bt)
          (list_to_map (map (fun sym => (sym, 0%Z)) (symbols (data bt))))
          []
          (list_to_map (map (fun sym => (sym, 0%Z)) (symbols (data bt))))
          [].

(** *** Helpers *)

Definition _exec_price (bt : Backtester) (side : Side) (px : Q) : Q :=
  match side with
  | BUY => px * (1 + Costs.slippage_rate (costs bt))
  | SELL => px * (1 - Costs.slippage_rate (costs bt))
  end.

Definition _commission (bt : Backtester) (notional : Q) : Q :=
  Qabs notional * Costs.commission_rate (costs bt).

(** [self.data[sym].loc[dt]]: a missing symbol or row is a [KeyError]. *)
Definition loc (d : dataset) (sym : string) (dt : Z) : exn + Bar.t :=
  match (list_to_map d : gmap string frame) !! sym with
  | None => inl KeyError
  | Some df => match df !! dt with
               | None => inl KeyError
               | Some bar => inr bar
               end
  end.

(** The accumulation loop of [_mark_to_market] over [self.data.items()]. *)
Fixpoint market_value (pos : gmap string Z) (dt : Z) (items : dataset)
    (mv : Q) : exn + Q :=
  match items with
  | [] => inr mv
  | (sym, df) :: rest =>
      match df !! dt with
      | None => inl KeyError
      | Some bar =>
          market_value pos dt rest (mv + inject_Z (getd pos sym) * Bar.Close bar)
      end
  end.

Definition _mark_to_market (bt : Backtester) (dt : Z) : M Q :=
  s <- get ;;
  mv <- lift (market_value (positions s) dt (data bt) 0) ;;
  ret (cash s + mv).

(** [int(max(0.0, self.cash // per_share_total))] *)
Definition max_afford (bt : Backtester) (price : Q) : M Z :=
  s <- get ;;
  let per_share_total := price * (1 + Costs.commission_rate (costs bt)) in
  q <- lift (floordiv (cash s) per_share_total) ;;
  ret (Z.max 0 q).

(** The tail shared by the three order blocks of [run]: commission, the
    cash and position update, and the appended [Fill], whose equity is
    marked at the decision date [dt].  [new_pos] is the value the block
    stores in [self.positions[sym]]. *)
Definition book (bt : Backtester) (dt next_dt : Z) (sym : string)
    (side : Side) (qty : Z) (price : Q) (new_pos : Z) : M unit :=
  let notional := inject_Z qty * price in
  let comm := _commission bt notional in
  s <- get ;;
  modify (set_cash (match side with
                    | BUY => cash s - (notional + comm)
                    | SELL => cash s + (notional - comm)
                    end)) ;;;
  modify (set_position sym new_pos) ;;;
  s1 <- get ;;
  eq <- _mark_to_market bt dt ;;
  modify (append_fill (Fill.mk next_dt sym side qty price comm (cash s1) eq)).

(** *** The core of [run] *)

(** [signals = raw.reindex(self.calendar).fillna(0).astype(int)] *)
Definition signals (bt : Backtester) (sym : string) (dt : Z) : Z :=
  default 0%Z (strategy bt (data bt) sym dt).

(** The processed target of a symbol on a day: with shorts disabled
    everything but [1] is flat. *)
Definition target_of (bt : Backtester) (sym : string) (dt : Z) : Z :=
  let tgt_raw := signals bt sym dt in
  if allow_shorts bt then tgt_raw
  else if decide (tgt_raw = 1%Z) then 1%Z else 0%Z.

(** The block that closes the current holding.  [run] has it twice with
    the same text, once for a flat target and once for a flip. *)
Definition close_leg (bt : Backtester) (dt next_dt : Z) (sym : string)
    (open_px : Q) (cur_qty : Z) : M unit :=
  let side := if decide (0 < cur_qty)%Z then SELL else BUY in
  let price := _exec_price bt side open_px in
  let qty := Z.abs cur_qty in
  qty <- match side with
         | BUY => afford <- max_afford bt price ;; ret (Z.min qty afford)
         | SELL => ret qty
         end ;;
  book bt dt next_dt sym side qty price
       (match side with
        | BUY => cur_qty + qty
        | SELL => cur_qty - qty
        end)%Z.

(** The block that opens a position from the fixed budget.  Its two
    [continue] statements first store the target in [prev_target], which
    is what the statement after the block does, so here they just leave
    the block. *)
Definition entry_leg (bt : Backtester) (dt next_dt : Z) (sym : string)
    (target : Z) (open_px : Q) : M unit :=
  let side := if decide (0 < target)%Z then BUY else SELL in
  let price := _exec_price bt side open_px in
  shares <- lift (floordiv (per_symbol_budget bt) price) ;;
  if decide (shares <= 0)%Z then ret tt
  else
    match side with
    | BUY =>
        afford <- max_afford bt price ;;
        let shares := Z.min shares afford in
        if decide (shares = 0%Z) then ret tt
        else book bt dt next_dt sym BUY shares price shares
    | SELL => book bt dt next_dt sym SELL shares price (- shares)%Z
    end.

(** The body of the inner loop for one symbol on decision date [dt]. *)
Definition process_symbol (bt : Backtester) (dt next_dt : Z) (sym : string)
  : M unit :=
  let target := target_of bt sym dt in
  s <- get ;;
  if decide (target = getd (prev_target s) sym) then ret tt
  else
    bar <- lift (loc (data bt) sym next_dt) ;;
    let open_px := Bar.Open bar in
    let cur_qty := getd (positions s) sym in
    (if decide (cur_qty ≠ 0%Z ∧ target = 0%Z)
     then close_leg bt dt next_dt sym open_px cur_qty
     else if decide (cur_qty ≠ 0%Z ∧ target ≠ 0%Z ∧
                     ((0 < target ∧ cur_qty < 0) ∨ (target < 0 ∧ 0 < cur_qty))%Z)
     then close_leg bt dt next_dt sym open_px cur_qty
     else ret tt) ;;;
    s1 <- get ;;
    (if decide (target ≠ 0%Z ∧ getd (positions s1) sym = 0%Z)
     then entry_leg bt dt next_dt sym target open_px
     else ret tt) ;;;
    modify (set_prev_target sym target).

(** One iteration of the outer loop: every symbol, then the end-of-day
    mark on [dt]. *)
Definition run_day (bt : Backtester) (dt next_dt : Z) : M unit :=
  for_each (symbols (data bt)) (process_symbol bt dt next_dt) ;;;
  eq <- _mark_to_market bt dt ;;
  modify (append_equity (dt, eq)).

(** [for i in range(len(dates) - 1)] with [dt = dates[i]] and
    [next_dt = dates[i + 1]]. *)
Fixpoint day_loop (bt : Backtester) (dates : list Z) : M unit :=
  match dates with
  | dt :: ((next_dt :: _) as rest) =>
      run_day bt dt next_dt ;;; day_loop bt rest
  | _ => ret tt
  end.

(** [run] after the signals are aligned: the day loop, then the mark on
    [dates[-1]], which does not exist for an empty calendar.  The result is
    the equity curve. *)
Definition run (bt : Backtester) : M (list (Z * Q)) :=
  let dates := calendar bt in
  day_loop bt dates ;;;
  match last dates with
  | None => raise IndexError
  | Some last_dt =>
      eq <- _mark_to_market bt last_dt ;;
      modify (append_equity (last_dt, eq)) ;;;
      s <- get ;;
      ret (equity_curve s)
  end.

(** A whole backtest: construct, then run once. *)
Definition backtest (d : dataset) (strat : Strategy) (capital : Q)
    (c : Costs.t) (shorts : bool)
  : exn + ((exn + list (Z * Q)) * state) :=
  match Backtester_init d strat capital c shorts with
  | inl e => inl e
  | inr bt => inr (run bt (init_state bt))
  end.

(** *** The orders of [run] as values

    Each order block first sizes an order from the cash at hand and then
    books it.  The sizing is a pure function of the cash; the lemmas
    [close_leg_order] and [entry_leg_order] below show that the blocks are
    exactly these functions followed by [book]. *)

Record order := mkOrder {
  o_side : Side;
  o_qty : Z;
  o_price : Q;
  o_new_pos : Z
}.

(** [int(max(0.0, cash // per_share_total))] as a function of the cash. *)
Definition affordable (bt : Backtester) (c price : Q) : exn + Z :=
  match floordiv c (price * (1 + Costs.commission_rate (costs bt))) with
  | inl e => inl e
  | inr q => inr (Z.max 0 q)
  end.

Definition close_order (bt : Backtester) (open_px : Q) (cur_qty : Z) (c : Q)
  : exn + order :=
  if decide (0 < cur_qty)%Z then
    inr (mkOrder SELL (Z.abs cur_qty) (_exec_price bt SELL open_px)
                 (cur_qty - Z.abs cur_qty))
  else
    match affordable bt c (_exec_price bt BUY open_px) with
    | inl e => inl e
    | inr afford =>
        let qty := Z.min (Z.abs cur_qty) afford in
        inr (mkOrder BUY qty (_exec_price bt BUY open_px) (cur_qty + qty))
    end.

Definition entry_order (bt : Backtester) (target : Z) (open_px : Q) (c : Q)
  : exn + option order :=
  let side := if decide (0 < target)%Z then BUY else SELL in
  let price := _exec_price bt side open_px in
  match floordiv (per_symbol_budget bt) price with
  | inl e => inl e
  | inr shares =>
      if decide (shares <= 0)%Z then inr None
      else
        match side with
        | BUY =>
            match affordable bt c price with
            | inl e => inl e
            | inr afford =>
                let shares := Z.min shares afford in
                if decide (shares = 0%Z) then inr None
                else inr (Some (mkOrder BUY shares price shares))
            end
        | SELL => inr (Some (mkOrder SELL shares price (- shares)))
        end
  end.

(** The cash after an order is booked, and the state and the fill that
    booking produces. *)
Definition cash_after_order (bt : Backtester) (o : order) (c : Q) : Q :=
  let notional := inject_Z (o_qty o) * o_price o in
  match o_side o with
  | BUY => c - (notional + _commission bt notional)
  | SELL => c + (notional - _commission bt notional)
  end.

Definition booked (bt : Backtester) (sym : string) (o : order) (s : state)
  : state :=
  set_position sym (o_new_pos o) (set_cash (cash_after_order bt o (cash s)) s).

Definition fill_of_order (bt : Backtester) (next_dt : Z) (sym : string)
    (o : order) (c eq : Q) : Fill.t :=
  Fill.mk next_dt sym (o_side o) (o_qty o) (o_price o)
          (_commission bt (inject_Z (o_qty o) * o_price o))
          (cash_after_order bt o c) eq.

(** *** Vocabulary of the engine's properties *)

(** The run up to, and not including, the iteration for the decision date
    of index [i]: the first [i] iterations of the day loop, started from
    the initial state. *)
Definition run_before (bt : Backtester) (i : nat) : (exn + unit) * state :=
  day_loop bt (firstn (S i) (calendar bt)) (init_state bt).

Definition state_before (bt : Backtester) (i : nat) : state :=
  (run_before bt i).2.

(** The fills of one symbol, in order. *)
Definition fills_of (sym : string) (fs : list Fill.t) : list Fill.t :=
  filter (fun f => Fill.symbol f = sym) fs.

(** The processed target of the session before the one of index [i]; the
    memory starts at 0. *)
Definition prev_signal (bt : Backtester) (sym : string) (i : nat) : Z :=
  match i with
  | O => 0%Z
  | S j => match calendar bt !! j with
           | Some d => target_of bt sym d
           | None => 0%Z
           end
  end.

(** A fill decided on the calendar date of index [i] because the
    processed target changed there, executed on the date of index [i + 1]
    at that date's Open moved against the trader by the slippage. *)
Definition next_bar_fill (bt : Backtester) (f : Fill.t) : Prop :=
  exists (i : nat) (dt next_dt : Z) (bar : Bar.t),
    calendar bt !! i = Some dt /\
    calendar bt !! S i = Some next_dt /\
    Fill.date f = next_dt /\
    target_of bt (Fill.symbol f) dt <> prev_signal bt (Fill.symbol f) i /\
    loc (data bt) (Fill.symbol f) next_dt = inr bar /\
    Fill.price f =
      match Fill.side f with
      | BUY => Bar.Open bar * (1 + Costs.slippage_rate (costs bt))
      | SELL => Bar.Open bar * (1 - Costs.slippage_rate (costs bt))
      end.

(** The signed shares of [sym] that a fill list leaves held. *)
Definition held (sym : string) (fs : list Fill.t) : Z :=
  foldl (fun acc f =>
           if decide (Fill.symbol f = sym) then
             match Fill.side f with
             | BUY => acc + Fill.qty f
             | SELL => acc - Fill.qty f
             end
           else acc)%Z 0%Z fs.

(** *** Weakest preconditions for [M]

    [wp m Q E s]: running [m] from [s] ends normally in a state satisfying
    [Q] of the result, or raises in a state satisfying [E]. *)

Definition wp {A} (m : M A) (Q : A -> state -> Prop) (E : state -> Prop)
    (s : state) : Prop :=
  match m s with
  | (inr a, s') => Q a s'
  | (inl _, s') => E s'
  end.

(** The final state of a computation, whichever way it ends. *)
Definition final {A} (m : M A) (s : state) : state := (m s).2.

(** ** metrics.py: round-trip reconstruction *)

Inductive TradeSide := LONG | SHORT.

#[global] Instance TradeSide_eq_dec : EqDecision TradeSide.
Proof. solve_decision. Defined.

Module Trade.
Record t := mk {
  symbol : string;
  entry_date : Z;
  exit_date : Z;
  side : TradeSide;
  qty : Z;
  entry_amount : Q;
  exit_amount : Q;
  pnl : Q;
  duration_days : Z
}.
End Trade.

(** One row of the frame that [round_trip_trades] builds from a fill: the
    six attributes it reads. *)
Module Row.
Record t := mk {
  date : Z;
  symbol : string;
  side : Side;
  qty : Z;
  price : Q;
  commission : Q
}.

Definition of_fill (f : Fill.t) : t :=
  mk (Fill.date f) (Fill.symbol f) (Fill.side f) (Fill.qty f)
     (Fill.price f) (Fill.commission f).

(** The order of [sort_values(["symbol", "date"])]. *)
Definition leb (a b : t) : bool :=
  match String.compare (symbol a) (symbol b) with
  | Lt => true
  | Eq => bool_decide (date a <= date b)%Z
  | Gt => false
  end.
End Row.

(** [sort_values] on several keys is a stable sort: rows with equal keys
    keep their order. *)
Fixpoint insert_row (r : Row.t) (sorted : list Row.t) : list Row.t :=
  match sorted with
  | [] => [r]
  | x :: rest =>
      if Row.leb r x then r :: x :: rest else x :: insert_row r rest
  end.

Definition sort_values (rows : list Row.t) : list Row.t :=
  foldr insert_row [] rows.

(** The per-symbol dict [s].  The key ["qty_total"] is only ever read with
    [s.get("qty_total", 0)], so an absent key is the value 0. *)
Module Acc.
Record t := mk {
  pos : Z;
  entry_side : option TradeSide;
  entry_date : option Z;
  entry_amt : Q;
  exit_amt : Q;
  qty_total : Z
}.

Definition empty : t := mk 0 None None 0 0 0.

Definition add_pos (q : Z) (s : t) : t :=
  mk (pos s + q) (entry_side s) (entry_date s) (entry_amt s) (exit_amt s)
     (qty_total s).
End Acc.

Section Row_helpers.
(** The variables of the loop body that its nested functions close
    over. *)
Variables (sym : string) (dt : Z) (px per_share_comm : Q).

(** [close_trade(exit_date)]: emits a trade only for an open entry whose
    position is exactly zero, then resets the accumulator.  Subtracting
    a [None] entry date from a timestamp is a [TypeError]. *)
Definition close_trade (exit_date : Z) (s : Acc.t) (trades : list Trade.t)
  : exn + (Acc.t * list Trade.t) :=
  match Acc.entry_side s with
  | None => inr (s, trades)
  | Some side_ =>
      if decide (Acc.pos s ≠ 0%Z) then inr (s, trades)
      else
        let entry_amt := Acc.entry_amt s in
        let exit_amt := Acc.exit_amt s in
        let pnl := match side_ with
                   | LONG => exit_amt - entry_amt
                   | SHORT => entry_amt - exit_amt
                   end in
        let qty_closed := Acc.qty_total s in
        match Acc.entry_date s with
        | None => inl TypeError
        | Some entry_date =>
            let duration := Z.max 1 (exit_date - entry_date) in
            inr (Acc.mk (Acc.pos s) None None 0 0 0,
                 trades ++ [Trade.mk sym entry_date exit_date side_ qty_closed
                                     entry_amt exit_amt pnl duration])
        end
  end.

Definition add_long_entry (q : Z) (s : Acc.t) : Acc.t :=
  Acc.mk (Acc.pos s)
         (Some (default LONG (Acc.entry_side s)))
         (Some (default dt (Acc.entry_date s)))
         (Acc.entry_amt s + inject_Z q * (px + per_share_comm))
         (Acc.exit_amt s)
         (Acc.qty_total s + q).

Definition add_long_exit (q : Z) (s : Acc.t) : Acc.t :=
  Acc.mk (Acc.pos s) (Acc.entry_side s) (Acc.entry_date s) (Acc.entry_amt s)
         (Acc.exit_amt s + inject_Z q * (px - per_share_comm))
         (Acc.qty_total s).

Definition add_short_entry (q : Z) (s : Acc.t) : Acc.t :=
  Acc.mk (Acc.pos s)
         (Some (default SHORT (Acc.entry_side s)))
         (Some (default dt (Acc.entry_date s)))
         (Acc.entry_amt s + inject_Z q * (px - per_share_comm))
         (Acc.exit_amt s)
         (Acc.qty_total s + q).

Definition add_short_exit (q : Z) (s : Acc.t) : Acc.t :=
  Acc.mk (Acc.pos s) (Acc.entry_side s) (Acc.entry_date s) (Acc.entry_amt s)
         (Acc.exit_amt s + inject_Z q * (px + per_share_comm))
         (Acc.qty_total s).

(** The BUY branch of the loop body. *)
Definition on_buy (qty : Z) (s : Acc.t) (trades : list Trade.t)
  : exn + (Acc.t * list Trade.t) :=
  if decide (0 <= Acc.pos s)%Z then
    inr (Acc.add_pos qty (add_long_entry qty s), trades)
  else
    let cover := Z.min qty (- Acc.pos s) in
    match (if decide (0 < cover)%Z then
             let s := Acc.add_pos cover (add_short_exit cover s) in
             if decide (Acc.pos s = 0%Z) then close_trade dt s trades
             else inr (s, trades)
           else inr (s, trades)) with
    | inl e => inl e
    | inr (s, trades) =>
        let rem := (qty - cover)%Z in
        if decide (0 < rem)%Z then
          inr (Acc.add_pos rem (add_long_entry rem s), trades)
        else inr (s, trades)
    end.

(** The SELL branch, its mirror image. *)
Definition on_sell (qty : Z) (s : Acc.t) (trades : list Trade.t)
  : exn + (Acc.t * list Trade.t) :=
  if decide (Acc.pos s <= 0)%Z then
    inr (Acc.add_pos (- qty) (add_short_entry qty s), trades)
  else
    let exitq := Z.min qty (Acc.pos s) in
    match (if decide (0 < exitq)%Z then
             let s := Acc.add_pos (- exitq) (add_long_exit exitq s) in
             if decide (Acc.pos s = 0%Z) then close_trade dt s trades
             else inr (s, trades)
           else inr (s, trades)) with
    | inl e => inl e
    | inr (s, trades) =>
        let rem := (qty - exitq)%Z in
        if decide (0 < rem)%Z then
          inr (Acc.add_pos (- rem) (add_short_entry rem s), trades)
        else inr (s, trades)
    end.
End Row_helpers.

(** The body of the loop over the sorted rows: [state] is the dict of
    accumulators, [trades] the list being built. *)
Definition process_row (acc : gmap string Acc.t * list Trade.t) (r : Row.t)
  : exn + (gmap string Acc.t * list Trade.t) :=
  let '(state, trades) := acc in
  let sym := Row.symbol r in
  let dt := Row.date r in
  let qty := Row.qty r in
  let px := Row.price r in
  let comm := Row.commission r in
  let per_share_comm :=
    if decide (0 < qty)%Z then comm / inject_Z qty else 0 in
  let s := default Acc.empty (state !! sym) in
  match (match Row.side r with
         | BUY => on_buy sym dt px per_share_comm qty s trades
         | SELL => on_sell sym dt px per_share_comm qty s trades
         end) with
  | inl e => inl e
  | inr (s, trades) => inr (<[sym := s]> state, trades)
  end.

Fixpoint process_rows (rows : list Row.t)
    (acc : gmap string Acc.t * list Trade.t)
  : exn + (gmap string Acc.t * list Trade.t) :=
  match rows with
  | [] => inr acc
  | r :: rest =>
      match process_row acc r with
      | inl e => inl e
      | inr acc' => process_rows rest acc'
      end
  end.

(** The reconstruction from sorted rows, keeping the final accumulators. *)
Definition reconstruct (rows : list Row.t)
  : exn + (gmap string Acc.t * list Trade.t) :=
  process_rows rows (∅, []).

Definition round_trip_trades (fills : list Fill.t) : exn + list Trade.t :=
  match fills with
  | [] => inr []
  | _ =>
      match reconstruct (sort_values (map Row.of_fill fills)) with
      | inl e => inl e
      | inr (_, trades) => inr trades
      end
  end.

(** ** metrics.py: the Sharpe ratio

    [sharpe] is the one function modelled over the reals, because of its
    square roots.  A pandas float is a real or NaN; the series given to
    [sharpe] holds reals, none of them zero (a zero equity value would make
    the next return infinite). *)

Inductive float_value := Num (r : R) | NaN.

Definition TRADING_DAYS : R := 252%R.

(** [equity.pct_change()]: NaN in the first place, then the relative
    change from the previous value. *)
Fixpoint pct_change_from (prev : R) (rest : list R) : list float_value :=
  match rest with
  | [] => []
  | x :: rest' => Num (x / prev - 1)%R :: pct_change_from x rest'
  end.

Definition pct_change (equity : list R) : list float_value :=
  match equity with
  | [] => []
  | x :: rest => NaN :: pct_change_from x rest
  end.

Fixpoint dropna (l : list float_value) : list R :=
  match l with
  | [] => []
  | NaN :: rest => dropna rest
  | Num x :: rest => x :: dropna rest
  end.

Definition Rsum (l : list R) : R := foldr Rplus 0%R l.

(** [Series.mean()] of a non-empty series. *)
Definition mean (l : list R) : R := (Rsum l / INR (length l))%R.

(** The sum of squared deviations from the mean over [n - ddof]. *)
Definition variance (ddof : nat) (l : list R) : R :=
  (Rsum (map (fun x => (x - mean l) * (x - mean l)) l)
   / INR (length l - ddof))%R.

(** [Series.std(ddof)]: pandas returns NaN when the series has no more
    than [ddof] observations. *)
Definition std (ddof : nat) (l : list R) : float_value :=
  if decide (length l <= ddof)%nat then NaN
  else Num (sqrt (variance ddof l)).

(** [sharpe(equity, rf)].  With [sd] NaN the test [sd == 0] is false and
    the quotient that is returned is NaN. *)
Definition sharpe (equity : list R) (rf : R) : float_value :=
  let rets := dropna (pct_change equity) in
  if decide (length rets = 0%nat) then Num 0
  else
    let excess := map (fun r => r - rf / TRADING_DAYS)%R rets in
    let mu := mean excess in
    match std 1 excess with
    | NaN => NaN
    | Num sd =>
        if Req_dec_T sd 0 then Num 0
        else Num (mu / sd * sqrt TRADING_DAYS)%R
    end.

(** ** metrics.py: [total_return], [max_drawdown] and [trade_statistics]

    The equity values are rationals and [/] is the rational quotient; the
    properties below are stated for series of positive values, where no
    quotient has a zero divisor (in floating point a zero divisor would
    give an infinity or NaN). *)

(** [total_return]: 0 for fewer than two values, else the last value over
    the first, minus 1.  With two values or more [iloc[0]] and [iloc[-1]]
    exist. *)
Definition total_return (equity : list Q) : Q :=
  if decide (length equity < 2)%nat then 0
  else
    match head equity, last equity with
    | Some first_value, Some last_value => last_value / first_value - 1
    | _, _ => 0
    end.

(** [equity.cummax()]: the running maximum. *)
Fixpoint cummax_from (m : Q) (l : list Q) : list Q :=
  match l with
  | [] => []
  | x :: rest => Qmax m x :: cummax_from (Qmax m x) rest
  end.

Definition cummax (l : list Q) : list Q :=
  match l with
  | [] => []
  | x :: rest => x :: cummax_from x rest
  end.

(** [equity / roll_max - 1.0], element by element. *)
Fixpoint drawdown_series_from (m : Q) (l : list Q) : list Q :=
  match l with
  | [] => []
  | x :: rest => (x / Qmax m x - 1) :: drawdown_series_from (Qmax m x) rest
  end.

Definition drawdown_series (equity : list Q) : list Q :=
  match equity with
  | [] => []
  | x :: rest => (x / x - 1) :: drawdown_series_from x rest
  end.

(** [max_drawdown]: 0 for an empty series, else the least drawdown. *)
Definition max_drawdown (equity : list Q) : Q :=
  match drawdown_series equity with
  | [] => 0
  | d :: ds => foldl Qmin d ds
  end.

(** A float that may be [+inf]. *)
Inductive extended := Finite (q : Q) | PlusInfinity.

Module Stats.
Record t := mk {
  num_trades : Q;
  win_rate : Q;
  profit_factor : extended;
  avg_duration_days : Q;
  gross_profit : Q;
  gross_loss : Q
}.
End Stats.

(** Python's [sum] of a list of floats. *)
Definition Qsum (l : list Q) : Q := foldl Qplus 0 l.

Definition is_positive (q : Q) : bool :=
  if Qlt_le_dec 0 q then true else false.
Definition is_negative (q : Q) : bool :=
  if Qlt_le_dec q 0 then true else false.

Definition trade_statistics (trades : list Trade.t) : Stats.t :=
  match trades with
  | [] => Stats.mk 0 0 (Finite 0) 0 0 0
  | _ =>
      let pnls := map Trade.pnl trades in
      let wins := List.filter is_positive pnls in
      let losses := map Qopp (List.filter is_negative pnls) in
      let num := inject_Z (Z.of_nat (length trades)) in
      let win_rate := 100 * inject_Z (Z.of_nat (length wins)) / num in
      let gross_profit := match wins with [] => 0 | _ => Qsum wins end in
      let gross_loss := match losses with [] => 0 | _ => Qsum losses end in
      let profit_factor :=
        if Qlt_le_dec 0 gross_loss then Finite (gross_profit / gross_loss)
        else if Qlt_le_dec 0 gross_profit then PlusInfinity else Finite 0 in
      let avg_duration :=
        Qsum (map (fun t => inject_Z (Trade.duration_days t)) trades) / num in
      Stats.mk num win_rate profit_factor avg_duration gross_profit gross_loss
  end.

(** *** Vocabulary of the reconstruction's properties *)

(** The accumulator of a symbol in the dict [state], the default one when
    the symbol has no entry yet. *)
Definition acc_of (st : gmap string Acc.t) (sym : string) : Acc.t :=
  default Acc.empty (st !! sym).

(** The running position of [sym] once the rows [rows] are processed, as
    the reconstruction tracks it. *)
Definition position_after (sym : string) (rows : list Row.t) : Z :=
  match reconstruct rows with
  | inr (st, _) => Acc.pos (acc_of st sym)
  | inl _ => 0%Z
  end.

(** The signed sum of the quantities of the rows of [sym]. *)
Definition net_quantity (sym : string) (rows : list Row.t) : Z :=
  foldl (fun acc r =>
           if decide (Row.symbol r = sym) then
             match Row.side r with
             | BUY => acc + Row.qty r
             | SELL => acc - Row.qty r
             end
           else acc)%Z 0%Z rows.

(** Row [r] takes a running position [p] back to exactly zero: it buys
    at least what is short, or sells at least what is held. *)
Definition returns_to_zero (p : Z) (r : Row.t) : Prop :=
  match Row.side r with
  | BUY => (p < 0 /\ - p <= Row.qty r)%Z
  | SELL => (0 < p /\ p <= Row.qty r)%Z
  end.

#[global] Instance returns_to_zero_dec p r : Decision (returns_to_zero p r).
Proof. unfold returns_to_zero. destruct (Row.side r); apply _. Defined.

(** The rows of [rest] at which their symbol's running position returns
    to zero, [seen] being the rows processed before. *)
Fixpoint closings_from (seen rest : list Row.t) : list Row.t :=
  match rest with
  | [] => []
  | r :: rest' =>
      (if decide (returns_to_zero (position_after (Row.symbol r) seen) r)
       then [r] else [])
      ++ closings_from (seen ++ [r]) rest'
  end.

Definition closings (rows : list Row.t) : list Row.t := closings_from [] rows.

(** An accumulator as the loop keeps it: the entry side and the entry
    date are set and cleared together, and a non-zero position has an open
    entry. *)
Definition acc_ok (s : Acc.t) : Prop :=
  (Acc.entry_side s = None <-> Acc.entry_date s = None) /\
  (Acc.pos s <> 0%Z -> Acc.entry_side s <> None).

(** Every accumulator of the dict is well kept. *)
Definition all_ok (st : gmap string Acc.t) : Prop :=
  forall sym, acc_ok (acc_of st sym).

(** What identifies the closing of a trade, and the same for a row. *)
Definition trade_key (t : Trade.t) : string * Z :=
  (Trade.symbol t, Trade.exit_date t).
Definition row_key (r : Row.t) : string * Z := (Row.symbol r, Row.date r).

(** The trades of one symbol, in order. *)
Definition trades_of (sym : string) (ts : list Trade.t) : list Trade.t :=
  filter (fun t => Trade.symbol t = sym) ts.

(** The verification condition of an order block at a state: [E] if the
    sizing raises, [Q] of the state left when nothing is booked, and, for a
    booked order, [E] of the state in which the equity mark would raise
    and [Q] of the state with the fill appended. *)
Definition vc_order (bt : Backtester) (next_dt : Z) (sym : string)
    (sized : exn + option order) (Q E : state -> Prop) (s : state) : Prop :=
  match sized with
  | inl _ => E s
  | inr None => Q s
  | inr (Some o) =>
      E (booked bt sym o s) /\
      forall eq, Q (append_fill (fill_of_order bt next_dt sym o (cash s) eq)
                                (booked bt sym o s))
  end.

(** The entry block and the store into [prev_target] after it. *)
Definition vc_enter (bt : Backtester) (next_dt : Z) (sym : string)
    (target : Z) (open_px : Q) (Q E : state -> Prop) (s1 : state) : Prop :=
  if decide (target <> 0%Z /\ getd (positions s1) sym = 0%Z) then
    vc_order bt next_dt sym (entry_order bt target open_px (cash s1))
             (fun s2 => Q (set_prev_target sym target s2)) E s1
  else Q (set_prev_target sym target s1).

(** The close block, taken for a flat target or a flip, then the rest. *)
Definition vc_turn (bt : Backtester) (next_dt : Z) (sym : string)
    (target : Z) (open_px : Q) (Q E : state -> Prop) (s : state) : Prop :=
  let cur_qty := getd (positions s) sym in
  if decide (cur_qty <> 0%Z /\
             (target = 0%Z \/ (0 < target /\ cur_qty < 0)%Z \/
              (target < 0 /\ 0 < cur_qty)%Z)) then
    match close_order bt open_px cur_qty (cash s) with
    | inl _ => E s
    | inr o =>
        vc_order bt next_dt sym (inr (Some o))
                 (vc_enter bt next_dt sym target open_px Q E) E s
    end
  else vc_enter bt next_dt sym target open_px Q E s.

(** A fill produced in the turn of [sym] on decision date [dt], when the
    recorded target was [prev]. *)
Definition turn_fill (bt : Backtester) (dt next_dt : Z) (sym : string)
    (prev : Z) (f : Fill.t) : Prop :=
  Fill.date f = next_dt /\ Fill.symbol f = sym /\
  target_of bt sym dt <> prev /\
  exists bar, loc (data bt) sym next_dt = inr bar /\
              Fill.price f = _exec_price bt (Fill.side f) (Bar.Open bar).

(** Solvency of a state: cash and every recorded [cash_after] are
    non-negative. *)
Definition solvent (s : state) : Prop :=
  0 <= cash s /\ Forall (fun f => 0 <= Fill.cash_after f) (fills s).

(** A fill history that never goes short: after every prefix each symbol
    holds a non-negative number of shares, and every SELL sells exactly
    the shares its symbol held before it, a positive number. *)
Definition long_only_history (fs : list Fill.t) : Prop :=
  (forall pre post sym, fs = pre ++ post -> (0 <= held sym pre)%Z) /\
  (forall pre f post,
      fs = pre ++ f :: post -> Fill.side f = SELL ->
      (0 < Fill.qty f)%Z /\ held (Fill.symbol f) pre = Fill.qty f).

(** Between turns of a long-only run the positions are those the fills
    account for. *)
Definition long_only_state (s : state) : Prop :=
  (forall sym, 0 <= getd (positions s) sym)%Z /\
  long_only_history (fills s) /\
  (forall sym, getd (positions s) sym = held sym (fills s)).

(** When the equity mark raises in the middle of a booking, the fill is
    missing but nothing is short. *)
Definition long_only_raised (s : state) : Prop :=
  (forall sym, 0 <= getd (positions s) sym)%Z /\
  long_only_history (fills s).

(** *** Concrete runs used below *)

(** A frame whose bars open and close at the same price. *)
Definition flat_bars (pxs : list (Z * Q)) : frame :=
  list_to_map (map (fun '(d, px) => (d, Bar.mk px px)) pxs).

(** A strategy given by the days on which a symbol's raw signal is
    non-zero. *)
Definition table_strategy (tbl : list (string * Z * Z)) : Strategy :=
  fun _ sym dt =>
    Some (default 0%Z ((list_to_map tbl : gmap (string * Z) Z) !! (sym, dt))).

(** Two symbols over four sessions; AAA is long on days 0 and 1. *)
Definition two_symbols : dataset :=
  [("AAA"%string, flat_bars [(0%Z, 10); (1%Z, 10); (2%Z, 12); (3%Z, 12)]);
   ("BBB"%string, flat_bars [(0%Z, 20); (1%Z, 20); (2%Z, 20); (3%Z, 20)])].

Definition long_then_flat : Strategy :=
  table_strategy [("AAA"%string, 0%Z, 1%Z); ("AAA"%string, 1%Z, 1%Z);
                  ("BBB"%string, 1%Z, (-1)%Z)].

(** The [Backtester] that [__init__] builds for [two_symbols] with
    100000 of capital, the default costs and shorts disabled. *)
Definition default_costs : Costs.t := Costs.mk (1 # 1000) (5 # 10000).

Definition two_symbols_bt : Backtester :=
  mkBacktester two_symbols long_then_flat 100000 default_costs false
               [0; 1; 2; 3]%Z (100000 * (95 # 100) / inject_Z 2).

(** One symbol bought at 1 whose next Open is negative. *)
Definition negative_open : dataset :=
  [("AAA"%string, flat_bars [(0%Z, 1); (1%Z, 1); (2%Z, -1)])].

Definition long_one_day : Strategy :=
  table_strategy [("AAA"%string, 0%Z, 1%Z)].

(** One symbol shorted at 1 whose next Open is 1000: the proceeds of the
    short cannot buy back a single share. *)
Definition short_squeeze : dataset :=
  [("AAA"%string, flat_bars [(0%Z, 1); (1%Z, 1); (2%Z, 1000)])].

Definition short_one_day : Strategy :=
  table_strategy [("AAA"%string, 0%Z, (-1)%Z)].

(** Two frames with no date in common. *)
Definition disjoint_frames : dataset :=
  [("AAA"%string, flat_bars [(1%Z, 10)]);
   ("BBB"%string, flat_bars [(2%Z, 20)])].

(** *** Vocabulary of the ledger's properties *)

(** The shares of [sym] a portfolio holds; a symbol with no entry holds
    none. *)
Definition shares_of (p : Portfolio.t) (sym : string) : Z :=
  Position.qty (default (Position.new sym) (Portfolio.positions p !! sym)).

(** The average cost recorded for [sym], 0 without an entry. *)
Definition avg_cost_of (p : Portfolio.t) (sym : string) : Q :=
  Position.avg_cost (default (Position.new sym) (Portfolio.positions p !! sym)).

(** *** Runs on the calendar that [__init__] builds *)

(** Every frame of the data has a row for the day [dt]. *)
Definition has_bars (d : dataset) (dt : Z) : Prop :=
  forall sym df, (sym, df) ∈ d -> is_Some (df !! dt).

(** Weakest preconditions that tell the exceptions apart: [E e s'] has to
    hold when the computation raises [e] in state [s']. *)
Definition wpx {A} (m : M A) (Q : A -> state -> Prop)
    (E : exn -> state -> Prop) (s : state) : Prop :=
  match m s with
  | (inr a, s') => Q a s'
  | (inl e, s') => E e s'
  end.

(** The condition of an order block when the equity mark cannot fail:
    [E] of the exception the sizing raises, [Q] of the state left when
    nothing is booked, and [Q] of the state with the fill appended, the
    fill carrying the mark [cash + mv] taken after the booking. *)
Definition vcx_order (bt : Backtester) (dt next_dt : Z) (sym : string)
    (sized : exn + option order) (Q : state -> Prop)
    (E : exn -> state -> Prop) (s : state) : Prop :=
  match sized with
  | inl e => E e s
  | inr None => Q s
  | inr (Some o) =>
      forall mv,
        market_value (positions (booked bt sym o s)) dt (data bt) 0 = inr mv ->
        Q (append_fill
             (fill_of_order bt next_dt sym o (cash s)
                            (cash (booked bt sym o s) + mv))
             (booked bt sym o s))
  end.

Definition vcx_enter (bt : Backtester) (dt next_dt : Z) (sym : string)
    (target : Z) (open_px : Q) (Q : state -> Prop)
    (E : exn -> state -> Prop) (s1 : state) : Prop :=
  if decide (target <> 0%Z /\ getd (positions s1) sym = 0%Z) then
    vcx_order bt dt next_dt sym (entry_order bt target open_px (cash s1))
              (fun s2 => Q (set_prev_target sym target s2)) E s1
  else Q (set_prev_target sym target s1).

Definition vcx_turn (bt : Backtester) (dt next_dt : Z) (sym : string)
    (target : Z) (open_px : Q) (Q : state -> Prop)
    (E : exn -> state -> Prop) (s : state) : Prop :=
  let cur_qty := getd (positions s) sym in
  if decide (cur_qty <> 0%Z /\
             (target = 0%Z \/ (0 < target /\ cur_qty < 0)%Z \/
              (target < 0 /\ 0 < cur_qty)%Z)) then
    match close_order bt open_px cur_qty (cash s) with
    | inl e => E e s
    | inr o =>
        vcx_order bt dt next_dt sym (inr (Some o))
                  (vcx_enter bt dt next_dt sym target open_px Q E) E s
    end
  else vcx_enter bt dt next_dt sym target open_px Q E s.

(** The calendar of a [Backtester] has a bar for every date in every
    frame, as the calendar built by [__init__] does. *)
Definition calendar_ok (bt : Backtester) : Prop :=
  forall dt, dt ∈ calendar bt -> has_bars (data bt) dt.

(** *** The engine's books against the ledger and against its fills *)

(** The fills of a run applied one by one to a fresh [Portfolio], with no
    prices to mark at. *)
Definition replay (capital : Q) (fs : list Fill.t) : Portfolio.t :=
  foldl (fun p f =>
           Portfolio._apply_fill p (Fill.date f) (Fill.symbol f) (Fill.side f)
             (Fill.qty f) (Fill.price f) (Fill.commission f) ∅)
        (Portfolio.new capital) fs.

(** The engine's cash and positions are those of the replayed ledger, and
    the ledger records the same fills with the same cash after each. *)
Definition ledger_agrees (capital : Q) (s : state) : Prop :=
  let p := replay capital (fills s) in
  Portfolio.cash p = cash s /\
  (forall sym, shares_of p sym = getd (positions s) sym) /\
  map Fill.cash_after (Portfolio.fills p) = map Fill.cash_after (fills s) /\
  map Row.of_fill (Portfolio.fills p) = map Row.of_fill (fills s).

(** The shape of a fill given the shares [h] of its symbol held before
    it: from flat it opens a position of positive size, at a positive
    price, worth no more than [budget]; otherwise it trades against the
    holding, by no more than the holding. *)
Definition fill_shape (budget : Q) (h : Z) (f : Fill.t) : Prop :=
  if decide (h = 0%Z) then
    (0 < Fill.qty f)%Z /\ 0 < Fill.price f /\
    inject_Z (Fill.qty f) * Fill.price f <= budget
  else
    Fill.side f = (if decide (0 < h)%Z then SELL else BUY) /\
    (0 <= Fill.qty f <= Z.abs h)%Z.

Definition engine_history (budget : Q) (fs : list Fill.t) : Prop :=
  forall pre f post,
    fs = pre ++ f :: post -> fill_shape budget (held (Fill.symbol f) pre) f.

(** The positions are the holdings the fills account for, and the fills
    have the engine's shape. *)
Definition audited (budget : Q) (s : state) : Prop :=
  (forall sym, getd (positions s) sym = held sym (fills s)) /\
  engine_history budget (fills s).

(** *** Reconstructed pnl against the cash the fills move *)

(** The cash that the fill of a row moves: what a SELL brings in net of
    its commission, minus what a BUY costs with its commission. *)
Definition row_flow (r : Row.t) : Q :=
  let notional := inject_Z (Row.qty r) * Row.price r in
  match Row.side r with
  | BUY => - (notional + Row.commission r)
  | SELL => notional - Row.commission r
  end.

(** The net cash moved by the rows of [sym]. *)
Definition net_flow (sym : string) (rows : list Row.t) : Q :=
  Qsum (map row_flow (filter (fun r => Row.symbol r = sym) rows)).

(** The pnl of the open entry of an accumulator as it stands, by the
    formula [close_trade] applies. *)
Definition open_pnl (s : Acc.t) : Q :=
  match Acc.entry_side s with
  | Some LONG => Acc.exit_amt s - Acc.entry_amt s
  | Some SHORT => Acc.entry_amt s - Acc.exit_amt s
  | None => 0
  end.

(** An accumulator whose entry side is the side of its position: no
    entry and no amounts when flat, LONG above zero, SHORT below. *)
Definition sided (s : Acc.t) : Prop :=
  match Acc.entry_side s with
  | None =>
      Acc.pos s = 0%Z /\ Acc.entry_date s = None /\
      Acc.entry_amt s == 0 /\ Acc.exit_amt s == 0
  | Some LONG => (0 < Acc.pos s)%Z /\ Acc.entry_date s <> None
  | Some SHORT => (Acc.pos s < 0)%Z /\ Acc.entry_date s <> None
  end.

(** The step of [net_quantity]. *)
Definition signed_step (sym : string) (acc : Z) (r : Row.t) : Z :=
  (if decide (Row.symbol r = sym) then
     match Row.side r with
     | BUY => acc + Row.qty r
     | SELL => acc - Row.qty r
     end
   else acc)%Z.

(** ** strategies/ma_crossover.py *)

Module MovingAverageCrossover.
Inductive error := ValueError.

Record t := mk { short_window : Z; long_window : Z }.

(** [__init__]: refuses windows with [short_window >= long_window]. *)
Definition __init__ (short_window long_window : Z) : error + t :=
  if decide (short_window >= long_window)%Z then inl ValueError
  else inr (mk short_window long_window).

(** The value of [px.rolling(w).mean()] at position [i], for a window of
    [w] observations: NaN, here [None], until [w] observations are
    there (and always for [w = 0]), then the mean of the last [w]. *)
Definition window_mean (w : nat) (px : list Q) (i : nat) : option Q :=
  if decide (0 < w <= S i)%nat then
    Some (Qsum (take w (drop (S i - w) px)) / inject_Z (Z.of_nat w))
  else None.

(** [px.rolling(w)] raises [ValueError] for a negative window. *)
Definition rolling_mean (w : Z) (px : list Q) : error + list (option Q) :=
  if decide (w < 0)%Z then inl ValueError
  else inr (map (window_mean (Z.to_nat w) px) (seq 0 (length px))).

(** [a > b] on floats that may be NaN: false when either is. *)
Definition gt (a b : option Q) : bool :=
  match a, b with
  | Some x, Some y => if Qlt_le_dec y x then true else false
  | _, _ => false
  end.

(** [sig.mask(s > l, 1).mask(s < l, -1)] at one position of the zero
    series. *)
Definition crossover (s l : option Q) : Z :=
  if gt l s then (-1)%Z else if gt s l then 1%Z else 0%Z.

(** [sig.shift(1)]: NaN in the first place, the last value dropped. *)
Definition shift1 (sig : list Z) : list (option Z) :=
  take (length sig) (None :: map Some sig).

(** [.fillna(0)]. *)
Definition fillna0 (sig : list (option Z)) : list Z := map (default 0%Z) sig.

Definition _signal_one (m : t) (px : list Q) : error + list Z :=
  match rolling_mean (short_window m) px with
  | inl e => inl e
  | inr s =>
      match rolling_mean (long_window m) px with
      | inl e => inl e
      | inr l => inr (fillna0 (shift1 (zip_with crossover s l)))
      end
  end.
End MovingAverageCrossover.

(** *** A run that never trades *)

(** A state in which nothing has been traded: no fill, the cash at
    [capital], every symbol flat with a recorded target of 0, and every
    equity mark so far equal to [capital]. *)
Definition untouched (capital : Q) (s : state) : Prop :=
  fills s = [] /\ cash s = capital /\
  (forall sym, getd (positions s) sym = 0%Z) /\
  (forall sym, getd (prev_target s) sym = 0%Z) /\
  Forall (fun e => e.2 == capital) (equity_curve s).

(** *** The cash of a run against its fills *)

(** The cash is the starting capital plus what the fills moved, and the
    positions are the holdings the fills account for. *)
Definition reconciled (capital : Q) (s : state) : Prop :=
  cash s == capital + Qsum (map row_flow (map Row.of_fill (fills s))) /\
  forall sym, getd (positions s) sym = held sym (fills s).

(** ** engine.py in binary64: the BUY entry block

    The same block of [run] once more, this time on IEEE 754 binary64
    numbers with Python's rounding, to see what the exact quotients above
    leave out: the entry block for a long target (lines 176 to 209 with
    [side == "BUY"]), with [_exec_price], [_commission] and the budget of
    [__init__].  A decimal literal denotes the nearest binary64 value, as
    it does in Python. *)

Module Binary64.
Import PrimFloat FloatOps SpecFloat.
#[local] Set Warnings "-inexact-float".

Inductive error := ZeroDivisionError | OverflowError | ValueError.

(** A Python [int] converted to [float]: the nearest binary64 value. *)
Definition of_int (z : Z) : float :=
  SF2Prim (binary_normalize prec emax z 0 false).

(** [int(x)]: truncation towards zero; [OverflowError] on an infinity,
    [ValueError] on NaN. *)
Definition int (x : float) : error + Z :=
  match Prim2SF x with
  | S754_nan => inl ValueError
  | S754_infinity _ => inl OverflowError
  | S754_zero _ => inr 0%Z
  | S754_finite s m e =>
      let v := if (0 <=? e)%Z then (Zpos m * 2 ^ e)%Z
               else (Zpos m / 2 ^ (- e))%Z in
      inr (if s then (- v)%Z else v)
  end.

(** C's [floor]. *)
Definition floor (x : float) : float :=
  match Prim2SF x with
  | S754_finite s m e =>
      if (0 <=? e)%Z then x
      else of_int ((if s then Zneg m else Zpos m) / 2 ^ (- e))%Z
  | _ => x
  end.

(** C's [fmod]: the exact remainder of the truncated quotient, with the
    sign of [x]. *)
Definition fmod (x y : float) : float :=
  match Prim2SF x, Prim2SF y with
  | S754_nan, _ | _, S754_nan => nan
  | S754_infinity _, _ => nan
  | _, S754_zero _ => nan
  | S754_zero _, _ => x
  | S754_finite _ _ _, S754_infinity _ => x
  | S754_finite sx mx ex, S754_finite _ my ey =>
      let e := Z.min ex ey in
      let r := Z.rem (Zpos mx * 2 ^ (ex - e)) (Zpos my * 2 ^ (ey - e)) in
      SF2Prim (binary_normalize prec emax (if sx then (- r)%Z else r) e sx)
  end.

(** [copysign(0.0, x)]. *)
Definition copysign_zero (x : float) : float :=
  if get_sign x then neg_zero else zero.

(** Python's [vx // wx] on floats, as [float_floor_div] computes it:
    [ZeroDivisionError] on a zero divisor, else the quotient of [vx] less
    its [fmod] remainder, corrected for the sign of the divisor and
    snapped to the nearest integral value. *)
Definition floordiv (vx wx : float) : error + float :=
  if (wx =? 0)%float then inl ZeroDivisionError
  else
    let rem := fmod vx wx in
    let div := ((vx - rem) / wx)%float in
    let div :=
      if negb (rem =? 0)%float
         && negb (Bool.eqb (wx <? 0)%float (rem <? 0)%float)
      then (div - 1)%float else div in
    inr (if negb (div =? 0)%float then
           let fl := floor div in
           if (0.5 <? div - fl)%float then (fl + 1)%float else fl
         else copysign_zero (vx / wx)%float).

(** [max(0.0, x)]: the first argument unless the second is greater. *)
Definition max0 (x : float) : float := if (0 <? x)%float then x else 0%float.

Record Costs := mkCosts { commission_rate : float; slippage_rate : float }.

Definition _exec_price (c : Costs) (side : Side) (px : float) : float :=
  match side with
  | BUY => (px * (1 + slippage_rate c))%float
  | SELL => (px * (1 - slippage_rate c))%float
  end.

Definition _commission (c : Costs) (notional : float) : float :=
  (abs notional * commission_rate c)%float.

(** [(self.initial_capital * 0.95) / n_symbols] with
    [n_symbols = max(1, len(self.positions))]. *)
Definition per_symbol_budget (initial_capital : float) (n : Z) : float :=
  ((initial_capital * 0.95) / of_int (Z.max 1 n))%float.

(** What the block records in its [Fill]. *)
Record Fill := mkFill {
  qty : Z;
  price : float;
  commission : float;
  cash_after : float
}.

(** The entry block for a long target, from the cash at hand: [None]
    where the block leaves with [continue]. *)
Definition buy_entry (c : Costs) (cash budget open_px : float)
  : error + option Fill :=
  let price := _exec_price c BUY open_px in
  match floordiv budget price with
  | inl e => inl e
  | inr q =>
      match int q with
      | inl e => inl e
      | inr shares =>
          if (shares <=? 0)%Z then inr None
          else
            let per_share_total := (price * (1 + commission_rate c))%float in
            match floordiv cash per_share_total with
            | inl e => inl e
            | inr a =>
                match int (max0 a) with
                | inl e => inl e
                | inr max_afford =>
                    let shares := Z.min shares max_afford in
                    if (shares =? 0)%Z then inr None
                    else
                      let notional := (of_int shares * price)%float in
                      let comm := _commission c notional in
                      inr (Some (mkFill shares price comm
                                        (cash - (notional + comm))%float))
                end
            end
      end
  end.

(** A run on a thin margin: capital 0.12, commission 0.2, no slippage,
    an Open of 0.1. *)
Definition thin_capital : float := 0.12%float.
Definition thin_costs : Costs := mkCosts 0.2%float 0%float.
Definition thin_open : float := 0.1%float.
End Binary64.

(** The same run for the exact embedding: one symbol that opens at 1/10
    and is bought on the first signal. *)
Definition thin_margin : dataset :=
  [("AAA"%string, flat_bars [(0%Z, 1 # 10); (1%Z, 1 # 10)])].

(* ================================================================== *)
(** * Properties *)
(* ================================================================== *)

(** ** Rules of the weakest-precondition calculus *)

Lemma wp_ret {A} (a : A) Q E s : wp (ret a) Q E s <-> Q a s.
Proof. reflexivity. Qed.

Lemma wp_raise {A} e (Q : A -> state -> Prop) E s : wp (raise e) Q E s <-> E s.
Proof. reflexivity. Qed.

Lemma wp_get Q E s : wp get Q E s <-> Q s s.
Proof. reflexivity. Qed.

Lemma wp_modify f Q E s : wp (modify f) Q E s <-> Q tt (f s).
Proof. reflexivity. Qed.

Lemma wp_bind {A B} (m : M A) (k : A -> M B) Q E s :
  wp (bind m k) Q E s <-> wp m (fun a => wp (k a) Q E) E s.
Proof. unfold wp, bind. destruct (m s) as [[e|a] s']; reflexivity. Qed.

Lemma wp_lift {A} (r : exn + A) Q E s :
  wp (lift r) Q E s <-> match r with inl _ => E s | inr a => Q a s end.
Proof. destruct r; reflexivity. Qed.

Lemma wp_mono {A} (m : M A) (Q Q' : A -> state -> Prop) (E E' : state -> Prop) s :
  wp m Q E s ->
  (forall a s', Q a s' -> Q' a s') ->
  (forall s', E s' -> E' s') ->
  wp m Q' E' s.
Proof.
  unfold wp. destruct (m s) as [[e|a] s']; intros H HQ HE; auto.
Qed.

(** A loop invariant indexed by the elements already visited. *)
Lemma wp_for_each {A} (I : list A -> state -> Prop) (body : A -> M unit)
    (E : state -> Prop) :
  forall (todo seen : list A) (s : state),
    I seen s ->
    (forall pre x post s0, seen ++ todo = pre ++ x :: post ->
       length seen <= length pre ->
       I pre s0 -> wp (body x) (fun _ s1 => I (pre ++ [x]) s1) E s0)%nat ->
    wp (for_each todo body) (fun _ s' => I (seen ++ todo) s') E s.
Proof.
  induction todo as [|x todo IH]; intros seen s HI Hbody.
  - simpl. rewrite wp_ret, app_nil_r. exact HI.
  - simpl. rewrite wp_bind.
    eapply wp_mono; [apply (Hbody seen x todo s eq_refl (le_n _) HI) | | auto].
    intros [] s1 HI1. simpl in *.
    replace (seen ++ x :: todo) with ((seen ++ [x]) ++ todo)
      by (rewrite <- app_assoc; reflexivity).
    apply IH; [exact HI1|].
    intros pre y post s0 Heq Hlen HIpre.
    apply (Hbody pre y post s0); [rewrite <- Heq, <- app_assoc; reflexivity | | exact HIpre].
    rewrite length_app in Hlen. simpl in Hlen. lia.
Qed.

Lemma wp_final {A} (m : M A) (P : state -> Prop) s :
  wp m (fun _ => P) P s <-> P (final m s).
Proof. unfold wp, final. destruct (m s) as [[e|a] s']; reflexivity. Qed.

Ltac wp_step :=
  first
    [ rewrite wp_bind
    | rewrite wp_ret
    | rewrite wp_raise
    | rewrite wp_get
    | rewrite wp_modify
    | rewrite wp_lift ].
Ltac wp_steps := repeat wp_step.

(** ** The ledger *)

(** C9. One call to [_apply_fill] appends exactly one [Fill], built from
    the arguments and the updated cash, and leaves the [Position] of every
    symbol other than the named one as it was; cash and the named symbol's
    position are the only other things it writes. *)
Theorem apply_fill_frame (p : Portfolio.t) (date : Z) (symbol : string)
    (side : Side) (qty : Z) (price commission : Q)
    (prices_now : gmap string Q) :
  let p' := Portfolio._apply_fill p date symbol side qty price commission
                                  prices_now in
  (exists f : Fill.t,
      Portfolio.fills p' = Portfolio.fills p ++ [f] /\
      Fill.date f = date /\ Fill.symbol f = symbol /\ Fill.side f = side /\
      Fill.qty f = qty /\ Fill.price f = price /\
      Fill.commission f = commission /\
      Fill.cash_after f = Portfolio.cash p') /\
  (forall other : string,
      other <> symbol ->
      Portfolio.positions p' !! other = Portfolio.positions p !! other).
Proof.
  unfold Portfolio._apply_fill.
  destruct side; simpl.
  - split.
    + eexists. split; [reflexivity|]. simpl. repeat split; reflexivity.
    + intros other Hne. apply lookup_insert_ne. congruence.
  - split.
    + eexists. split; [reflexivity|]. simpl. repeat split; reflexivity.
    + intros other Hne. apply lookup_insert_ne. congruence.
Qed.

(** ** The order blocks of the engine *)

Lemma wp_max_afford bt price Q E s :
  match affordable bt (cash s) price with
  | inl _ => E s
  | inr q => Q q s
  end ->
  wp (max_afford bt price) Q E s.
Proof.
  unfold max_afford, affordable. wp_steps.
  destruct (floordiv _ _); wp_steps; auto.
Qed.

Lemma wp_book bt dt next_dt sym (o : order) (Q : unit -> state -> Prop) E s :
  E (booked bt sym o s) ->
  (forall eq, Q tt (append_fill (fill_of_order bt next_dt sym o (cash s) eq)
                                (booked bt sym o s))) ->
  wp (book bt dt next_dt sym (o_side o) (o_qty o) (o_price o) (o_new_pos o)) Q E s.
Proof.
  intros HE HQ. unfold book, _mark_to_market. wp_steps.
  destruct o as [side qty price new_pos]; simpl in *.
  unfold booked, cash_after_order in HE; simpl in HE.
  destruct (market_value _ _ _ _) as [e|mv]; wp_steps.
  - exact HE.
  - apply (HQ (_ + mv)).
Qed.

Lemma wp_close_leg bt dt next_dt sym open_px cur_qty (Q : unit -> state -> Prop) E s :
  match close_order bt open_px cur_qty (cash s) with
  | inl _ => E s
  | inr o =>
      E (booked bt sym o s) /\
      forall eq, Q tt (append_fill (fill_of_order bt next_dt sym o (cash s) eq)
                                   (booked bt sym o s))
  end ->
  wp (close_leg bt dt next_dt sym open_px cur_qty) Q E s.
Proof.
  unfold close_leg, close_order.
  destruct (decide (0 < cur_qty)%Z) as [Hpos|Hneg].
  - intros [HE HQ]. wp_steps.
    apply (wp_book bt dt next_dt sym (mkOrder SELL _ _ _)); assumption.
  - intros H. wp_steps. apply wp_max_afford.
    destruct (affordable _ _ _) as [e|afford]; [exact H|].
    destruct H as [HE HQ]. wp_steps.
    apply (wp_book bt dt next_dt sym (mkOrder BUY _ _ _)); assumption.
Qed.

Lemma wp_entry_leg bt dt next_dt sym target open_px (Q : unit -> state -> Prop) E s :
  match entry_order bt target open_px (cash s) with
  | inl _ => E s
  | inr None => Q tt s
  | inr (Some o) =>
      E (booked bt sym o s) /\
      forall eq, Q tt (append_fill (fill_of_order bt next_dt sym o (cash s) eq)
                                   (booked bt sym o s))
  end ->
  wp (entry_leg bt dt next_dt sym target open_px) Q E s.
Proof.
  unfold entry_leg, entry_order.
  wp_steps. destruct (floordiv _ _) as [e|shares]; [auto|].
  destruct (decide (shares <= 0)%Z); [wp_steps; auto|].
  destruct (decide (0 < target)%Z).
  - intros H. wp_steps. apply wp_max_afford.
    destruct (affordable _ _ _) as [e|afford]; [exact H|].
    destruct (decide (Z.min shares afford = 0%Z)); [wp_steps; auto|].
    destruct H as [HE HQ].
    apply (wp_book bt dt next_dt sym (mkOrder BUY _ _ _)); assumption.
  - intros [HE HQ].
    apply (wp_book bt dt next_dt sym (mkOrder SELL _ _ _)); assumption.
Qed.

(** The inner-loop body, executed symbolically. *)
Lemma wp_process_symbol bt dt next_dt sym (Q : unit -> state -> Prop) E s :
  let target := target_of bt sym dt in
  (target = getd (prev_target s) sym -> Q tt s) ->
  (target <> getd (prev_target s) sym ->
   match loc (data bt) sym next_dt with
   | inl _ => E s
   | inr bar => vc_turn bt next_dt sym target (Bar.Open bar) (Q tt) E s
   end) ->
  wp (process_symbol bt dt next_dt sym) Q E s.
Proof.
  intros target Hsame Hchg.
  unfold process_symbol. fold target. wp_steps.
  destruct (decide (target = getd (prev_target s) sym)) as [Heq|Hne].
  { wp_steps. auto. }
  specialize (Hchg Hne). wp_steps.
  destruct (loc (data bt) sym next_dt) as [e|bar]; [exact Hchg|].
  assert (Henter : forall s1,
    vc_enter bt next_dt sym target (Bar.Open bar) (Q tt) E s1 ->
    wp (s1' <- get ;;
        (if decide (target <> 0%Z /\ getd (positions s1') sym = 0%Z)
         then entry_leg bt dt next_dt sym target (Bar.Open bar)
         else ret tt) ;;;
        modify (set_prev_target sym target)) Q E s1).
  { clear Hchg Hsame. intros s1 H. unfold vc_enter in H. wp_steps.
    destruct (decide (target <> 0%Z /\ getd (positions s1) sym = 0%Z)).
    - apply wp_entry_leg. unfold vc_order in H.
      destruct (entry_order _ _ _ _) as [e|[o|]]; [exact H| |wp_steps; exact H].
      destruct H as [HE HQ]. split; [exact HE|]. intros eq. wp_steps. apply HQ.
    - wp_steps. exact H. }
  unfold vc_turn in Hchg. cbv zeta in Hchg. rewrite wp_bind.
  set (cur_qty := getd (positions s) sym) in *.
  destruct (decide (cur_qty <> 0%Z /\ target = 0%Z)) as [Hc1|Hc1].
  - rewrite decide_True in Hchg by tauto.
    apply wp_close_leg.
    destruct (close_order _ _ _ _) as [e|o]; [exact Hchg|].
    destruct Hchg as [HE HQ]. split; [exact HE|].
    intros eq. apply Henter, HQ.
  - destruct (decide (cur_qty <> 0%Z /\ target <> 0%Z /\
                      ((0 < target /\ cur_qty < 0) \/ (target < 0 /\ 0 < cur_qty))%Z))
      as [Hc2|Hc2].
    + rewrite decide_True in Hchg by tauto.
      apply wp_close_leg.
      destruct (close_order _ _ _ _) as [e|o]; [exact Hchg|].
      destruct Hchg as [HE HQ]. split; [exact HE|].
      intros eq. apply Henter, HQ.
    + rewrite decide_False in Hchg by lia.
      rewrite wp_ret. apply Henter, Hchg.
Qed.

(** How to establish the conditions: an invariant [I] of the states
    between the blocks, kept by booking, with [Q] after the final store. *)
Lemma vc_turn_intro bt next_dt sym target open_px (Q E I : state -> Prop) s :
  I s ->
  (forall s1, I s1 -> E s1) ->
  (forall s1, I s1 -> Q (set_prev_target sym target s1)) ->
  (forall o, getd (positions s) sym <> 0%Z ->
     close_order bt open_px (getd (positions s) sym) (cash s) = inr o ->
     E (booked bt sym o s) /\
     forall eq, I (append_fill (fill_of_order bt next_dt sym o (cash s) eq)
                               (booked bt sym o s))) ->
  (forall s1 o, I s1 -> target <> 0%Z -> getd (positions s1) sym = 0%Z ->
     entry_order bt target open_px (cash s1) = inr (Some o) ->
     E (booked bt sym o s1) /\
     forall eq, I (append_fill (fill_of_order bt next_dt sym o (cash s1) eq)
                               (booked bt sym o s1))) ->
  vc_turn bt next_dt sym target open_px Q E s.
Proof.
  intros HI HE HQ Hclose Hentry.
  assert (Henter : forall s1, I s1 ->
            vc_enter bt next_dt sym target open_px Q E s1).
  { intros s1 HI1. unfold vc_enter. destruct (decide _) as [[Ht Hp]|]; [|auto].
    unfold vc_order.
    destruct (entry_order _ _ _ _) as [e|[o|]] eqn:Heo; auto.
    destruct (Hentry s1 o HI1 Ht Hp Heo) as [H1 H2]. split; auto. }
  unfold vc_turn. cbv zeta.
  destruct (decide _) as [[Hcur _]|]; [|auto].
  pose proof (fun o => Hclose o Hcur) as Hclose'. clear Hclose.
  destruct (close_order _ _ _ _) as [e|o]; [auto|].
  destruct (Hclose' o eq_refl) as [H1 H2]. simpl. split; auto.
Qed.

(** ** What one symbol's turn does to the state *)

Lemma close_order_price bt open_px cur_qty c o :
  close_order bt open_px cur_qty c = inr o ->
  o_price o = _exec_price bt (o_side o) open_px.
Proof.
  unfold close_order. destruct (decide _).
  - intros [= <-]. reflexivity.
  - destruct (affordable _ _ _); [discriminate|]. intros [= <-]. reflexivity.
Qed.

Lemma entry_order_price bt target open_px c o :
  entry_order bt target open_px c = inr (Some o) ->
  o_price o = _exec_price bt (o_side o) open_px.
Proof.
  unfold entry_order. destruct (floordiv _ _); [discriminate|].
  destruct (decide (_ <= 0)%Z); [discriminate|].
  destruct (decide (0 < target)%Z).
  - destruct (affordable _ _ _); [discriminate|].
    destruct (decide _); [discriminate|]. intros [= <-]. reflexivity.
  - intros [= <-]. reflexivity.
Qed.

Lemma getd_insert_eq (m : gmap string Z) k v : getd (<[k := v]> m) k = v.
Proof. unfold getd. rewrite lookup_insert_eq. reflexivity. Qed.

Lemma getd_insert_ne (m : gmap string Z) k k' v :
  k <> k' -> getd (<[k := v]> m) k' = getd m k'.
Proof. intros H. unfold getd. rewrite lookup_insert_ne by exact H. reflexivity. Qed.

(** The turn of [sym] appends only fills of [sym], dated [next_dt], priced
    from that date's Open, and only when the target differs from the
    recorded one.  When it ends normally the recorded target of [sym] is
    the new target and no other symbol's memory or position has moved;
    when it raises the memory is as it was. *)
Lemma process_symbol_effect bt dt next_dt sym s :
  wp (process_symbol bt dt next_dt sym)
     (fun _ s' =>
        (exists new, fills s' = fills s ++ new /\
                     Forall (turn_fill bt dt next_dt sym (getd (prev_target s) sym)) new) /\
        getd (prev_target s') sym = target_of bt sym dt /\
        (forall other, other <> sym ->
                       getd (prev_target s') other = getd (prev_target s) other) /\
        (forall other, other <> sym ->
                       positions s' !! other = positions s !! other))
     (fun s' =>
        (exists new, fills s' = fills s ++ new /\
                     Forall (turn_fill bt dt next_dt sym (getd (prev_target s) sym)) new) /\
        prev_target s' = prev_target s /\
        (forall other, other <> sym ->
                       positions s' !! other = positions s !! other))
     s.
Proof.
  apply wp_process_symbol.
  { intros Heq. repeat split; auto. exists []. rewrite app_nil_r. auto. }
  intros Hne.
  destruct (loc (data bt) sym next_dt) as [e|bar] eqn:Hloc.
  { repeat split; auto. exists []. rewrite app_nil_r. auto. }
  assert (Hfill : forall o c eq, o_price o = _exec_price bt (o_side o) (Bar.Open bar) ->
            turn_fill bt dt next_dt sym (getd (prev_target s) sym)
                      (fill_of_order bt next_dt sym o c eq)).
  { intros o c eq Hp. unfold turn_fill, fill_of_order; simpl.
    repeat split; auto. exists bar. auto. }
  apply (vc_turn_intro _ _ _ _ _ _ _
           (fun s1 =>
              (exists new, fills s1 = fills s ++ new /\
                 Forall (turn_fill bt dt next_dt sym (getd (prev_target s) sym)) new) /\
              prev_target s1 = prev_target s /\
              (forall other, other <> sym ->
                             positions s1 !! other = positions s !! other))).
  - repeat split; auto. exists []. rewrite app_nil_r. auto.
  - auto.
  - intros s1 (Hf & Hpt & Hpos). simpl. repeat split; auto.
    + apply getd_insert_eq.
    + intros other Ho. rewrite Hpt. apply getd_insert_ne. congruence.
  - intros o _ Hco. split.
    + simpl. repeat split; auto.
      * exists []. rewrite app_nil_r. auto.
      * intros other Ho. apply lookup_insert_ne. congruence.
    + intros eq. simpl. repeat split; auto.
      * eexists [_]. split; [reflexivity|].
        constructor; [|constructor]. apply Hfill.
        eapply close_order_price, Hco.
      * intros other Ho. apply lookup_insert_ne. congruence.
  - intros s1 o ((new & Hf & Hnew) & Hpt & Hpos) _ _ Heo. split.
    + simpl. repeat split; eauto.
      intros other Ho. rewrite lookup_insert_ne by congruence. auto.
    + intros eq. simpl. repeat split; auto.
      * exists (new ++ [fill_of_order bt next_dt sym o (cash s1) eq]).
        rewrite Hf, app_assoc. split; [reflexivity|].
        apply Forall_app. split; [exact Hnew|].
        constructor; [|constructor]. apply Hfill.
        eapply entry_order_price, Heo.
      * intros other Ho. rewrite lookup_insert_ne by congruence. auto.
Qed.

(** ** The day loop *)

Lemma wp_mark_to_market bt dt (Post : Q -> state -> Prop) E s :
  E s -> (forall eq, Post eq s) -> wp (_mark_to_market bt dt) Post E s.
Proof.
  intros HE HQ. unfold _mark_to_market. wp_steps.
  destruct (market_value _ _ _ _); wp_steps; auto.
Qed.

(** A day is the symbols' turns followed by a mark that touches nothing
    but the equity curve. *)
Lemma wp_run_day bt dt next_dt (Q : unit -> state -> Prop) (E : state -> Prop) s :
  wp (for_each (symbols (data bt)) (process_symbol bt dt next_dt))
     (fun _ s1 => E s1 /\ forall eq, Q tt (append_equity (dt, eq) s1)) E s ->
  wp (run_day bt dt next_dt) Q E s.
Proof.
  intros H. unfold run_day. rewrite wp_bind.
  eapply wp_mono; [exact H| |auto].
  intros [] s1 [HE HQ]. simpl. rewrite wp_bind.
  apply wp_mark_to_market; [exact HE|].
  intros eq. rewrite wp_modify. apply HQ.
Qed.

Lemma day_loop_snoc bt l d d' s :
  day_loop bt (l ++ [d; d']) s = (day_loop bt (l ++ [d]) ;;; run_day bt d d') s.
Proof.
  revert s. induction l as [|x l IH]; intros s.
  - simpl. unfold bind, ret.
    destruct (run_day bt d d' s) as [[e|[]] s']; reflexivity.
  - assert (Hstep : forall rest y s0,
              day_loop bt (x :: y :: rest) s0 =
              (run_day bt x y ;;; day_loop bt (y :: rest)) s0) by reflexivity.
    unfold bind in IH.
    destruct l as [|y l]; simpl app in *.
    + unfold bind. rewrite !Hstep. unfold bind.
      destruct (run_day bt x d s) as [[e|[]] s']; [reflexivity|].
      apply (IH s').
    + unfold bind. rewrite !Hstep. unfold bind.
      destruct (run_day bt x y s) as [[e|[]] s']; [reflexivity|].
      apply (IH s').
Qed.

Lemma firstn_S_lookup {A} (l : list A) i x :
  l !! i = Some x -> firstn (S i) l = firstn i l ++ [x].
Proof.
  revert i. induction l as [|y l IH]; intros [|i] H; simpl in *; try discriminate.
  - injection H as ->. reflexivity.
  - f_equal. apply IH, H.
Qed.

(** One more iteration of the loop, as long as a next session exists. *)
Lemma run_before_S bt i dt next_dt :
  calendar bt !! i = Some dt ->
  calendar bt !! S i = Some next_dt ->
  run_before bt (S i) =
    match run_before bt i with
    | (inr _, s) => run_day bt dt next_dt s
    | (inl e, s) => (inl e, s)
    end.
Proof.
  intros Hi HSi. unfold run_before.
  rewrite (firstn_S_lookup _ _ _ HSi), (firstn_S_lookup _ _ _ Hi).
  rewrite <- app_assoc. simpl app. rewrite day_loop_snoc.
  unfold bind. reflexivity.
Qed.

(** Past the last session the loop has nothing left to do. *)
Lemma run_before_end bt i :
  (length (calendar bt) <= S i)%nat -> run_before bt (S i) = run_before bt i.
Proof.
  intros H. unfold run_before.
  rewrite !firstn_all2 by lia. reflexivity.
Qed.

(** Induction along the day loop with an invariant indexed by the number
    of iterations done. *)
Lemma run_before_inv bt (D : nat -> state -> Prop) (E : state -> Prop) :
  D O (init_state bt) ->
  (forall i dt next_dt s,
      calendar bt !! i = Some dt -> calendar bt !! S i = Some next_dt ->
      D i s -> wp (run_day bt dt next_dt) (fun _ => D (S i)) E s) ->
  forall i,
    match run_before bt i with
    | (inr _, s) => D (Nat.min i (pred (length (calendar bt)))) s
    | (inl _, s) => E s
    end.
Proof.
  intros H0 Hstep. induction i as [|i IH].
  - unfold run_before. simpl.
    destruct (calendar bt) as [|d [|d' rest]]; simpl; exact H0.
  - destruct (decide (S i < length (calendar bt))%nat) as [Hlt|Hge].
    + destruct (lookup_lt_is_Some_2 (calendar bt) i) as [dt Hdt]; [lia|].
      destruct (lookup_lt_is_Some_2 (calendar bt) (S i)) as [nx Hnx]; [lia|].
      rewrite (run_before_S _ _ _ _ Hdt Hnx).
      destruct (run_before bt i) as [[e|[]] s]; [exact IH|].
      rewrite Nat.min_l in IH by lia.
      specialize (Hstep i dt nx s Hdt Hnx IH). unfold wp in Hstep.
      rewrite Nat.min_l by lia. exact Hstep.
    + rewrite run_before_end by lia.
      replace (Nat.min (S i) (pred (length (calendar bt))))
        with (Nat.min i (pred (length (calendar bt)))) by lia.
      exact IH.
Qed.

(** The closing mark of [run] leaves cash, positions, fills and the
    target memory as the day loop left them. *)
Lemma run_final_state bt :
  let s := state_before bt (pred (length (calendar bt))) in
  let s' := final (run bt) (init_state bt) in
  cash s' = cash s /\ positions s' = positions s /\ fills s' = fills s /\
  prev_target s' = prev_target s.
Proof.
  unfold state_before, run_before, final, run.
  rewrite firstn_all2 by lia. unfold bind.
  destruct (day_loop bt (calendar bt) (init_state bt)) as [[e|[]] s]; simpl; [auto|].
  destruct (last (calendar bt)); simpl; [|auto].
  unfold _mark_to_market, bind, get, lift.
  destruct (market_value _ _ _ _); simpl; auto.
Qed.

(** ** C10: an empty calendar *)

Lemma merge_sort_elements_empty :
  merge_sort Z.le (elements (∅ : gset Z)) = [].
Proof. rewrite elements_empty. reflexivity. Qed.

(** C10. When the frames' date indexes have an empty intersection, the
    calendar is empty and [run] raises [IndexError] at [dates[-1]], having
    changed nothing: no equity series comes back. *)
Theorem empty_calendar_raises (d : dataset) (strat : Strategy) (capital : Q)
    (c : Costs.t) (shorts : bool) (bt : Backtester) :
  Backtester_init d strat capital c shorts = inr bt ->
  common_index (map snd d) None = Some ∅ ->
  calendar bt = [] /\
  run bt (init_state bt) = (inl IndexError, init_state bt).
Proof.
  intros Hinit Hidx. unfold Backtester_init, make_calendar in Hinit.
  rewrite Hidx, merge_sort_elements_empty in Hinit.
  injection Hinit as <-. split; reflexivity.
Qed.

Lemma empty_calendar_raises_witness :
  exists bt,
    Backtester_init disjoint_frames (fun _ _ _ => None) 100 (Costs.mk 0 0) false
      = inr bt /\
    calendar bt = [] /\
    run bt (init_state bt) = (inl IndexError, init_state bt).
Proof.
  eexists. split; [reflexivity|].
  eapply (empty_calendar_raises disjoint_frames (fun _ _ _ => None) 100
            (Costs.mk 0 0) false); [reflexivity|].
  vm_compute. reflexivity.
Defined.

(** ** C6: no trade without a change of target *)

Lemma fills_of_app sym l1 l2 :
  fills_of sym (l1 ++ l2) = fills_of sym l1 ++ fills_of sym l2.
Proof. apply filter_app. Qed.

Lemma fills_of_turn bt dt next_dt x p sym new :
  Forall (turn_fill bt dt next_dt x p) new ->
  x <> sym \/ target_of bt x dt = p ->
  fills_of sym new = [].
Proof.
  intros Hall Hor. induction Hall as [|f new Hf Hall IH]; [reflexivity|].
  destruct Hf as (_ & Hsym & Hne & _).
  destruct Hor as [Hx|Ht]; [|contradiction].
  unfold fills_of in *. rewrite filter_cons_False by congruence. exact IH.
Qed.

(** A turn of another symbol, or a turn with an unchanged target, leaves
    the fills of [sym] and its recorded target alone. *)
Lemma process_symbol_churn bt dt next_dt x sym s :
  target_of bt sym dt = getd (prev_target s) sym ->
  wp (process_symbol bt dt next_dt x)
     (fun _ s' => fills_of sym (fills s') = fills_of sym (fills s) /\
                  getd (prev_target s') sym = getd (prev_target s) sym)
     (fun s' => fills_of sym (fills s') = fills_of sym (fills s))
     s.
Proof.
  intros Hsame.
  eapply wp_mono; [apply process_symbol_effect| |].
  - intros [] s' ((new & Hf & Hnew) & Hpx & Hpo & _).
    destruct (decide (x = sym)) as [->|Hne].
    + split; [|congruence].
      rewrite Hf, fills_of_app, (fills_of_turn _ _ _ _ _ _ _ Hnew), app_nil_r; auto.
    + split; [|auto].
      rewrite Hf, fills_of_app, (fills_of_turn _ _ _ _ _ _ _ Hnew), app_nil_r; auto.
  - intros s' ((new & Hf & Hnew) & _).
    rewrite Hf, fills_of_app, (fills_of_turn _ _ _ _ _ _ _ Hnew), app_nil_r; auto.
    destruct (decide (x = sym)) as [->|Hne]; auto.
Qed.

Lemma run_day_churn bt dt next_dt sym s :
  target_of bt sym dt = getd (prev_target s) sym ->
  fills_of sym (fills (final (run_day bt dt next_dt) s)) = fills_of sym (fills s).
Proof.
  intros Hsame.
  apply (wp_final (run_day bt dt next_dt)
           (fun s' => fills_of sym (fills s') = fills_of sym (fills s))).
  apply wp_run_day.
  eapply wp_mono.
  - apply (wp_for_each
             (fun _ s1 => fills_of sym (fills s1) = fills_of sym (fills s) /\
                          getd (prev_target s1) sym = getd (prev_target s) sym)
             _ (fun s1 => fills_of sym (fills s1) = fills_of sym (fills s))
             (symbols (data bt)) [] s); [auto|].
    intros pre x post s0 _ _ [Hf Hp].
    eapply wp_mono; [apply (process_symbol_churn bt dt next_dt x sym s0); congruence| |].
    + intros [] s1 [Hf1 Hp1]. split; congruence.
    + intros s1 Hf1. congruence.
  - intros [] s1 [Hf _]. simpl. auto.
  - auto.
Qed.

(** C6. If on each of the [n] consecutive calendar dates of index [a],
    ..., [a + n - 1] the processed target of [sym] equals the target
    recorded for it when that date is reached, then the fills of [sym]
    after those dates are the fills of [sym] before them: none is recorded
    over the span.  The recorded target starts at 0. *)
Theorem churn_suppression (bt : Backtester) (sym : string) (a n : nat) :
  (forall j dt, (a <= j < a + n)%nat ->
                calendar bt !! j = Some dt ->
                target_of bt sym dt = getd (prev_target (state_before bt j)) sym) ->
  getd (prev_target (state_before bt O)) sym = 0%Z /\
  fills_of sym (fills (state_before bt (a + n)))
  = fills_of sym (fills (state_before bt a)).
Proof.
  intros Hsame. split.
  { unfold state_before, run_before, init_state, getd.
    destruct (calendar bt) as [|d [|d' rest]]; simpl;
      (destruct (_ !! sym) as [z|] eqn:Hz; [|reflexivity]);
      apply elem_of_list_to_map_2, list_elem_of_fmap in Hz;
      destruct Hz as (y & [= _ ->] & _); reflexivity. }
  induction n as [|n IH].
  - rewrite Nat.add_0_r. reflexivity.
  - rewrite <- IH by (intros j dt Hj; apply Hsame; lia).
    replace (a + S n)%nat with (S (a + n)) by lia.
    destruct (decide (S (a + n) < length (calendar bt))%nat) as [Hlt|Hge].
    + destruct (lookup_lt_is_Some_2 (calendar bt) (a + n)) as [dt Hdt]; [lia|].
      destruct (lookup_lt_is_Some_2 (calendar bt) (S (a + n))) as [nx Hnx]; [lia|].
      specialize (Hsame (a + n)%nat dt ltac:(lia) Hdt).
      unfold state_before in *. rewrite (run_before_S _ _ _ _ Hdt Hnx).
      destruct (run_before bt (a + n)) as [[e|[]] s]; [reflexivity|].
      apply (run_day_churn bt dt nx sym s Hsame).
    + unfold state_before. rewrite run_before_end by lia. reflexivity.
Qed.

(** ** C3: next-bar execution *)

Lemma turn_fill_next_bar bt i dt next_dt x f :
  calendar bt !! i = Some dt ->
  calendar bt !! S i = Some next_dt ->
  turn_fill bt dt next_dt x (prev_signal bt x i) f ->
  next_bar_fill bt f.
Proof.
  intros Hdt Hnx (Hd & Hs & Hne & bar & Hloc & Hp).
  exists i, dt, next_dt, bar. rewrite Hs. repeat split; auto.
Qed.

Lemma run_day_next_bar bt i dt next_dt s :
  calendar bt !! i = Some dt ->
  calendar bt !! S i = Some next_dt ->
  Forall (next_bar_fill bt) (fills s) ->
  (forall sym, sym ∈ symbols (data bt) ->
               getd (prev_target s) sym = prev_signal bt sym i) ->
  wp (run_day bt dt next_dt)
     (fun _ s' =>
        Forall (next_bar_fill bt) (fills s') /\
        forall sym, sym ∈ symbols (data bt) ->
                    getd (prev_target s') sym = prev_signal bt sym (S i))
     (fun s' => Forall (next_bar_fill bt) (fills s'))
     s.
Proof.
  intros Hdt Hnx Hgood Hprev.
  apply wp_run_day.
  eapply wp_mono.
  - apply (wp_for_each
             (fun seen s1 =>
                Forall (next_bar_fill bt) (fills s1) /\
                forall sym, sym ∈ symbols (data bt) ->
                  (sym ∈ seen -> getd (prev_target s1) sym = target_of bt sym dt) /\
                  (sym ∉ seen -> getd (prev_target s1) sym = prev_signal bt sym i))
             _ (fun s1 => Forall (next_bar_fill bt) (fills s1))
             (symbols (data bt)) [] s).
    { split; [exact Hgood|]. intros sym Hin. split; [|auto].
      intros Hnil. apply elem_of_nil in Hnil. contradiction. }
    intros pre x post s0 Hsplit _ [Hg0 Hp0]. simpl in Hsplit.
    assert (Hx : x ∈ symbols (data bt)).
    { rewrite Hsplit. apply elem_of_app. right. left. }
    assert (Hnew : forall new,
              Forall (turn_fill bt dt next_dt x (getd (prev_target s0) x)) new ->
              Forall (next_bar_fill bt) new).
    { intros new Hall. eapply Forall_impl; [exact Hall|].
      intros f Hf. apply (turn_fill_next_bar bt i dt next_dt x f Hdt Hnx).
      destruct (decide (x ∈ pre)) as [Hin|Hout].
      - destruct Hf as (_ & _ & Hne & _).
        rewrite (proj1 (Hp0 x Hx) Hin) in Hne. contradiction.
      - rewrite <- (proj2 (Hp0 x Hx) Hout). exact Hf. }
    eapply wp_mono; [apply process_symbol_effect| |].
    + intros [] s1 ((new & Hf & Hall) & Hpx & Hpo & _). split.
      * rewrite Hf. apply Forall_app. auto.
      * intros sym Hin. destruct (decide (sym = x)) as [->|Hne].
        -- split; [auto|]. intros Hout. exfalso. apply Hout.
           apply elem_of_app. right. left.
        -- rewrite (Hpo sym Hne). split.
           ++ intros Hs. apply elem_of_app in Hs as [Hs|Hs].
              ** apply (Hp0 sym Hin), Hs.
              ** apply list_elem_of_singleton in Hs. contradiction.
           ++ intros Hs. apply (Hp0 sym Hin). intros Hs'. apply Hs.
              apply elem_of_app. auto.
    + intros s1 ((new & Hf & Hall) & _). rewrite Hf. apply Forall_app. auto.
  - intros [] s1 [Hg Hp]. simpl in *. split; [exact Hg|].
    intros eq. simpl. split; [exact Hg|].
    intros sym Hin. rewrite Hdt. apply (Hp sym Hin), Hin.
  - auto.
Qed.

Lemma init_prev_target bt sym : getd (prev_target (init_state bt)) sym = 0%Z.
Proof.
  unfold init_state, getd. simpl.
  destruct (_ !! sym) as [z|] eqn:Hz; [|reflexivity].
  apply elem_of_list_to_map_2, list_elem_of_fmap in Hz.
  destruct Hz as (y & [= _ ->] & _). reflexivity.
Qed.

Lemma init_positions bt sym : getd (positions (init_state bt)) sym = 0%Z.
Proof.
  unfold init_state, getd. simpl.
  destruct (_ !! sym) as [z|] eqn:Hz; [|reflexivity].
  apply elem_of_list_to_map_2, list_elem_of_fmap in Hz.
  destruct Hz as (y & [= _ ->] & _). reflexivity.
Qed.

(** C3. Every fill that [run] produces was decided on a calendar date on
    which the processed target of its symbol differs from the target of
    the session before (0 before the first), is dated the very next
    calendar date, and is priced at that next date's Open times
    [1 + slippage_rate] for a BUY and [1 - slippage_rate] for a SELL. *)
Theorem no_lookahead (bt : Backtester) :
  Forall (next_bar_fill bt) (fills (final (run bt) (init_state bt))).
Proof.
  destruct (run_final_state bt) as (_ & _ & -> & _).
  pose proof (run_before_inv bt
    (fun i s => Forall (next_bar_fill bt) (fills s) /\
                forall sym, sym ∈ symbols (data bt) ->
                            getd (prev_target s) sym = prev_signal bt sym i)
    (fun s => Forall (next_bar_fill bt) (fills s))) as Hinv.
  unfold state_before.
  specialize (Hinv ltac:(split; [constructor | intros; apply init_prev_target])).
  specialize (Hinv ltac:(intros i dt nx s Hdt Hnx [Hg Hp];
                         apply (run_day_next_bar bt i dt nx s Hdt Hnx Hg Hp))).
  specialize (Hinv (pred (length (calendar bt)))).
  destruct (run_before bt _) as [[e|[]] s]; simpl; tauto.
Qed.

(** ** C1: solvency *)

Lemma Qfloor_div_bound (c p : Q) (q : Z) :
  0 < p -> (q <= Qfloor (c / p))%Z -> inject_Z q * p <= c.
Proof.
  intros Hp Hq.
  assert (H1 : inject_Z q <= c / p).
  { apply Qle_trans with (inject_Z (Qfloor (c / p))); [|apply Qfloor_le].
    rewrite <- Zle_Qle. exact Hq. }
  apply (Qmult_le_compat_r _ _ p) in H1; [|lra].
  assert (H2 : c / p * p == c) by (field; lra).
  lra.
Qed.

Lemma Qmult_nonneg (a b : Q) : 0 <= a -> 0 <= b -> 0 <= a * b.
Proof. intros. apply Qmult_le_0_compat; assumption. Qed.

Lemma inject_Z_nonneg (z : Z) : (0 <= z)%Z -> 0 <= inject_Z z.
Proof. intros H. change 0 with (inject_Z 0). rewrite <- Zle_Qle. exact H. Qed.

Section Solvency.
Variable bt : Backtester.
Let cr := Costs.commission_rate (costs bt).
Let sr := Costs.slippage_rate (costs bt).
Hypothesis cr_range : 0 <= cr <= 1.
Hypothesis sr_range : 0 <= sr <= 1.

Lemma exec_price_nonneg side open_px :
  0 <= open_px -> 0 <= _exec_price bt side open_px.
Proof.
  intros Ho. destruct side; simpl; fold sr; apply Qmult_nonneg; lra.
Qed.

(** Buying [q] shares, at most what [affordable] allows, leaves cash
    non-negative. *)
Lemma buy_within_cash (c price : Q) (q afford : Z) :
  0 <= c -> 0 <= price ->
  affordable bt c price = inr afford ->
  (0 <= q <= afford)%Z ->
  0 <= c - (inject_Z q * price + _commission bt (inject_Z q * price)).
Proof.
  intros Hc Hp Haff [Hq0 Hqa].
  unfold affordable, floordiv in Haff. fold cr in Haff.
  destruct (Qeq_dec (price * (1 + cr)) 0) as [Hz|Hnz]; [discriminate|].
  assert (Ha : Z.max 0 (Qfloor (c / (price * (1 + cr)))) = afford) by congruence.
  clear Haff. subst afford.
  assert (Hpst : 0 < price * (1 + cr)).
  { assert (0 <= price * (1 + cr)) by (apply Qmult_nonneg; lra).
    destruct (Qlt_le_dec 0 (price * (1 + cr))) as [|Hle]; [assumption|].
    exfalso. apply Hnz. lra. }
  assert (Hfl : (0 <= Qfloor (c / (price * (1 + cr))))%Z).
  { change 0%Z with (Qfloor 0). apply Qfloor_resp_le.
    apply Qle_shift_div_l; [exact Hpst|]. lra. }
  assert (Hb : inject_Z q * (price * (1 + cr)) <= c).
  { apply Qfloor_div_bound; [exact Hpst|]. lia. }
  unfold _commission. fold cr.
  rewrite Qabs_pos by (apply Qmult_nonneg; [apply inject_Z_nonneg; lia|lra]).
  lra.
Qed.

(** Selling at a non-negative price never takes cash away. *)
Lemma sell_adds_cash (c price : Q) (q : Z) :
  0 <= price -> (0 <= q)%Z ->
  c <= c + (inject_Z q * price - _commission bt (inject_Z q * price)).
Proof.
  intros Hp Hq. unfold _commission. fold cr.
  assert (Hn : 0 <= inject_Z q * price)
    by (apply Qmult_nonneg; [apply inject_Z_nonneg; lia|lra]).
  rewrite Qabs_pos by exact Hn.
  assert (0 <= inject_Z q * price * (1 - cr)) by (apply Qmult_nonneg; lra).
  lra.
Qed.

Lemma close_order_cash open_px cur_qty c o :
  0 <= c -> 0 <= open_px ->
  close_order bt open_px cur_qty c = inr o ->
  0 <= cash_after_order bt o c.
Proof.
  intros Hc Ho. unfold close_order.
  destruct (decide (0 < cur_qty)%Z).
  - intros [= <-]. unfold cash_after_order; simpl.
    eapply Qle_trans; [exact Hc|].
    apply (sell_adds_cash c (open_px * (1 - Costs.slippage_rate (costs bt))));
      [apply (exec_price_nonneg SELL), Ho | lia].
  - destruct (affordable _ _ _) as [e|afford] eqn:Haff; [discriminate|].
    intros [= <-]. unfold cash_after_order; simpl.
    assert (Hfl : (0 <= afford)%Z).
    { unfold affordable in Haff. destruct (floordiv _ _); [discriminate|].
      injection Haff as <-. lia. }
    apply (buy_within_cash c _ _ afford Hc); [apply (exec_price_nonneg BUY), Ho| exact Haff | lia].
Qed.

Lemma entry_order_cash target open_px c o :
  0 <= c -> 0 <= open_px ->
  entry_order bt target open_px c = inr (Some o) ->
  0 <= cash_after_order bt o c.
Proof.
  intros Hc Ho. unfold entry_order.
  destruct (floordiv _ _) as [e|shares]; [discriminate|].
  destruct (decide (shares <= 0)%Z); [discriminate|].
  destruct (decide (0 < target)%Z).
  - destruct (affordable _ _ _) as [e|afford] eqn:Haff; [discriminate|].
    destruct (decide _); [discriminate|].
    intros [= <-]. unfold cash_after_order; simpl.
    assert (Hfl : (0 <= afford)%Z).
    { unfold affordable in Haff. destruct (floordiv _ _); [discriminate|].
      injection Haff as <-. lia. }
    apply (buy_within_cash c _ _ afford Hc); [apply (exec_price_nonneg BUY), Ho| exact Haff | lia].
  - intros [= <-]. unfold cash_after_order; simpl.
    eapply Qle_trans; [exact Hc|].
    apply (sell_adds_cash c (open_px * (1 - Costs.slippage_rate (costs bt))));
      [apply (exec_price_nonneg SELL), Ho | lia].
Qed.

Hypothesis open_nonneg :
  forall sym df dt bar,
    (sym, df) ∈ data bt -> df !! dt = Some bar -> 0 <= Bar.Open bar.

Lemma loc_open_nonneg sym dt bar :
  loc (data bt) sym dt = inr bar -> 0 <= Bar.Open bar.
Proof.
  unfold loc. destruct (_ !! sym) as [df|] eqn:Hdf; [|discriminate].
  destruct (df !! dt) as [b|] eqn:Hb; [|discriminate].
  intros [= <-]. apply elem_of_list_to_map_2 in Hdf.
  eapply open_nonneg; eassumption.
Qed.

Lemma process_symbol_solvent dt next_dt sym s :
  solvent s ->
  wp (process_symbol bt dt next_dt sym) (fun _ => solvent) solvent s.
Proof.
  intros Hs. apply wp_process_symbol; [auto|].
  intros _. destruct (loc _ _ _) as [e|bar] eqn:Hloc; [exact Hs|].
  pose proof (loc_open_nonneg _ _ _ Hloc) as Hopen.
  apply (vc_turn_intro _ _ _ _ _ _ _ solvent); auto.
  - intros o _ Hco. pose proof Hs as [Hc Hf].
    pose proof (close_order_cash _ _ _ _ Hc Hopen Hco) as Hc'.
    split; [split; assumption|].
    intros eq. split; simpl; [assumption|].
    apply Forall_app. split; [assumption|]. constructor; [exact Hc'|constructor].
  - intros s1 o [Hc Hf] _ _ Heo.
    pose proof (entry_order_cash _ _ _ _ Hc Hopen Heo) as Hc'.
    split; [split; assumption|].
    intros eq. split; simpl; [assumption|].
    apply Forall_app. split; [assumption|]. constructor; [exact Hc'|constructor].
Qed.

Lemma run_day_solvent dt next_dt s :
  solvent s -> wp (run_day bt dt next_dt) (fun _ => solvent) solvent s.
Proof.
  intros Hs. apply wp_run_day.
  eapply wp_mono.
  - apply (wp_for_each (fun _ => solvent) _ solvent (symbols (data bt)) [] s Hs).
    intros pre x post s0 _ _ H0. apply process_symbol_solvent, H0.
  - intros [] s1 H1. simpl. split; [exact H1|]. intros eq. exact H1.
  - auto.
Qed.

Hypothesis capital_nonneg : 0 <= initial_capital bt.

Lemma run_solvent :
  Forall (fun f => 0 <= Fill.cash_after f)
         (fills (final (run bt) (init_state bt))).
Proof.
  destruct (run_final_state bt) as (_ & _ & -> & _).
  pose proof (run_before_inv bt (fun _ => solvent) solvent) as Hinv.
  specialize (Hinv ltac:(split; [exact capital_nonneg|constructor])).
  specialize (Hinv ltac:(intros i dt nx s _ _ Hs; apply run_day_solvent, Hs)).
  specialize (Hinv (pred (length (calendar bt)))). unfold state_before.
  destruct (run_before bt _) as [[e|[]] s]; simpl; apply Hinv.
Qed.
End Solvency.

Lemma flat_bars_nonneg (pxs : list (Z * Q)) :
  Forall (fun p => 0 <= p.2) pxs ->
  forall dt bar, flat_bars pxs !! dt = Some bar -> 0 <= Bar.Open bar.
Proof.
  intros Hall dt bar Hbar. unfold flat_bars in Hbar.
  apply elem_of_list_to_map_2, list_elem_of_fmap in Hbar.
  destruct Hbar as ([d px] & [= -> ->] & Hin). simpl.
  rewrite Forall_forall in Hall. apply (Hall (d, px)), Hin.
Qed.

(** Solvency in exact arithmetic.  Over the rationals the cap of
    [max_afford] and the debit of the booking are the same product
    [shares * price * (1 + commission_rate)], so for every run with
    non-negative initial capital, commission and slippage rates in [0, 1]
    and no negative Open in the data, every fill recorded, up to the end of
    the run or to the point where it raises, has [cash_after >= 0].  The
    code computes the two in binary64 in different orders; see
    [capped_buy_overdraws_in_binary64] below. *)
Theorem solvency_nonneg_open (d : dataset) (strat : Strategy) (capital : Q)
    (c : Costs.t) (shorts : bool) (r : exn + list (Z * Q)) (s : state) :
  0 <= capital ->
  0 <= Costs.commission_rate c <= 1 ->
  0 <= Costs.slippage_rate c <= 1 ->
  (forall sym df dt bar,
      (sym, df) ∈ d -> df !! dt = Some bar -> 0 <= Bar.Open bar) ->
  backtest d strat capital c shorts = inr (r, s) ->
  Forall (fun f => 0 <= Fill.cash_after f) (fills s).
Proof.
  intros Hcap Hcr Hsr Hopen Hrun. unfold backtest in Hrun.
  destruct (Backtester_init d strat capital c shorts) as [e|bt] eqn:Hinit;
    [discriminate|].
  assert (Hs : s = final (run bt) (init_state bt)).
  { unfold final. injection Hrun as Hrun. rewrite Hrun. reflexivity. }
  unfold Backtester_init in Hinit.
  destruct (make_calendar d) as [e|cal]; [discriminate|].
  injection Hinit as <-. subst s.
  apply run_solvent; simpl; assumption.
Qed.

Lemma solvency_nonneg_open_witness :
  exists r s,
    backtest two_symbols long_then_flat 100000 (Costs.mk (1 # 1000) (5 # 10000))
             false = inr (r, s) /\
    fills s <> [] /\
    Forall (fun f => 0 <= Fill.cash_after f) (fills s).
Proof.
  eexists _, _. split; [vm_compute; reflexivity|]. split; [discriminate|].
  eapply (solvency_nonneg_open two_symbols long_then_flat 100000
            (Costs.mk (1 # 1000) (5 # 10000)) false).
  - discriminate.
  - split; discriminate.
  - split; discriminate.
  - intros sym df dt bar Hin Hbar.
    apply elem_of_cons in Hin as [Heq|Hin];
      [|apply elem_of_cons in Hin as [Heq|Hin];
        [|apply elem_of_nil in Hin; contradiction]];
      injection Heq as -> ->;
      (eapply flat_bars_nonneg; [|exact Hbar]);
      repeat constructor; discriminate.
  - vm_compute. reflexivity.
Defined.

(** A SELL does not only add cash either: the engine never looks at the
    sign of a price.  Capital 100, both rates 0, shorts disabled: AAA is
    bought at an Open of 1 (95 shares, cash 5) and closed the next session
    at an Open of -1; the SELL takes 95 out of the cash, and the fill
    records [cash_after = -90]. *)
Lemma solvency_negative_open_counterexample :
  exists r s f,
    0 <= 100 /\
    0 <= Costs.commission_rate (Costs.mk 0 0) <= 1 /\
    0 <= Costs.slippage_rate (Costs.mk 0 0) <= 1 /\
    backtest negative_open long_one_day 100 (Costs.mk 0 0) false = inr (r, s) /\
    f ∈ fills s /\
    Fill.side f = SELL /\
    Fill.cash_after f == -90 /\
    ~ 0 <= Fill.cash_after f.
Proof.
  eexists _, _, _.
  split; [discriminate|]. split; [split; discriminate|].
  split; [split; discriminate|].
  split; [vm_compute; reflexivity|].
  split; [apply list_elem_of_further, list_elem_of_here|].
  split; [reflexivity|]. split; [reflexivity|].
  intros H. apply H. reflexivity.
Qed.

(** C1, on the code: the buy-side cap does not keep a BUY within the
    cash.  One symbol, capital 0.12, commission rate 0.2, no slippage,
    bought on the first signal at an Open of 0.1.  In exact arithmetic the
    run records one BUY of 1 share that spends the cash to exactly 0.  In
    binary64 the entry block sizes the same order: the budget affords
    [0.114 // 0.1 = 1] share and the cap allows [0.12 // 0.12 = 1], for
    [per_share_total = 0.1 * 1.2] rounds to 0.12; but the debit
    [notional + comm = 0.1 + 0.1 * 0.2] rounds to 0.12000000000000001, and
    the fill records [cash_after = -1.3877787807814457e-17 < 0]. *)
Theorem capped_buy_overdraws_in_binary64 :
  (exists r s f,
      backtest thin_margin long_one_day (12 # 100) (Costs.mk (2 # 10) 0) false
      = inr (r, s) /\
      fills s = [f] /\ Fill.side f = BUY /\ Fill.qty f = 1%Z /\
      Fill.price f == 1 # 10 /\ Fill.cash_after f == 0) /\
  exists f,
    Binary64.buy_entry Binary64.thin_costs Binary64.thin_capital
      (Binary64.per_symbol_budget Binary64.thin_capital 1) Binary64.thin_open
    = inr (Some f) /\
    Binary64.qty f = 1%Z /\
    Binary64.price f = Binary64.thin_open /\
    PrimFloat.ltb (Binary64.cash_after f) PrimFloat.zero = true.
Proof.
  split.
  - eexists _, _, _. split; [vm_compute; reflexivity|].
    split; [reflexivity|]. repeat split; reflexivity.
  - eexists. split; [vm_compute; reflexivity|]. repeat split; reflexivity.
Qed.

(** ** C5: long-only runs *)

Lemma held_snoc sym fs f :
  held sym (fs ++ [f]) =
  (if decide (Fill.symbol f = sym) then
     match Fill.side f with
     | BUY => held sym fs + Fill.qty f
     | SELL => held sym fs - Fill.qty f
     end
   else held sym fs)%Z.
Proof. unfold held. rewrite foldl_snoc. reflexivity. Qed.

Lemma long_only_history_nil : long_only_history [].
Proof.
  split.
  - intros pre post sym H. symmetry in H. apply app_eq_nil in H as [-> _].
    reflexivity.
  - intros pre f post H. symmetry in H. apply app_eq_nil in H as [_ H].
    discriminate.
Qed.

Lemma long_only_history_snoc fs f :
  long_only_history fs ->
  (forall sym, 0 <= held sym (fs ++ [f]))%Z ->
  (Fill.side f = SELL ->
   (0 < Fill.qty f)%Z /\ held (Fill.symbol f) fs = Fill.qty f) ->
  long_only_history (fs ++ [f]).
Proof.
  intros [Ha Hb] Hheld Hsell. split.
  - intros pre post sym Heq.
    destruct post as [|g post _] using rev_ind.
    + rewrite app_nil_r in Heq. subst pre. apply Hheld.
    + rewrite app_assoc in Heq. apply app_inj_tail in Heq as [Heq _].
      apply (Ha pre post sym Heq).
  - intros pre g post Heq Hg.
    destruct post as [|h post _] using rev_ind.
    + apply app_inj_tail in Heq as [-> ->]. auto.
    + change (pre ++ g :: post ++ [h]) with (pre ++ (g :: post) ++ [h]) in Heq.
      rewrite app_assoc in Heq. apply app_inj_tail in Heq as [Heq _].
      apply (Hb pre g post Heq Hg).
Qed.

Section LongOnly.
Variable bt : Backtester.
Hypothesis shorts_off : allow_shorts bt = false.

Lemma target_long_only sym dt :
  (signals bt sym dt = (-1)%Z -> target_of bt sym dt = 0%Z) /\
  (target_of bt sym dt = 0%Z \/ target_of bt sym dt = 1%Z).
Proof.
  unfold target_of. rewrite shorts_off.
  destruct (decide (signals bt sym dt = 1%Z)) as [H1|H1]; split; auto.
  intros Hm. rewrite Hm in H1. discriminate.
Qed.

Lemma booked_long_only sym next_dt (o : order) s :
  long_only_state s ->
  (0 <= o_new_pos o)%Z ->
  (o_new_pos o = match o_side o with
                 | BUY => getd (positions s) sym + o_qty o
                 | SELL => getd (positions s) sym - o_qty o
                 end)%Z ->
  (o_side o = SELL -> (0 < o_qty o)%Z /\ getd (positions s) sym = o_qty o) ->
  long_only_raised (booked bt sym o s) /\
  forall eq, long_only_state
               (append_fill (fill_of_order bt next_dt sym o (cash s) eq)
                            (booked bt sym o s)).
Proof.
  intros (Hpos & Hhist & Hheld) Hnew Hacc Hsell.
  assert (Hpos' : forall sym', (0 <= getd (<[sym := o_new_pos o]> (positions s)) sym')%Z).
  { intros sym'. destruct (decide (sym = sym')) as [<-|Hne].
    - rewrite getd_insert_eq. exact Hnew.
    - rewrite getd_insert_ne by exact Hne. apply Hpos. }
  assert (Hheld' : forall eq sym',
            getd (<[sym := o_new_pos o]> (positions s)) sym' =
            held sym' (fills s ++ [fill_of_order bt next_dt sym o (cash s) eq])).
  { intros eq sym'. rewrite held_snoc. simpl.
    destruct (decide (sym = sym')) as [<-|Hne].
    - rewrite getd_insert_eq, Hacc, <- Hheld. reflexivity.
    - rewrite getd_insert_ne by exact Hne. apply Hheld. }
  split; [split; assumption|].
  intros eq. split; [exact Hpos'|]. split; [|apply Hheld'].
  simpl. apply long_only_history_snoc; [exact Hhist| |].
  - intros sym'. rewrite <- Hheld'. apply Hpos'.
  - simpl. intros Hs. rewrite <- Hheld. auto.
Qed.

Lemma close_order_long_only open_px cur_qty c o :
  (0 <= cur_qty)%Z -> cur_qty <> 0%Z ->
  close_order bt open_px cur_qty c = inr o ->
  o_side o = SELL /\ o_qty o = cur_qty /\ o_new_pos o = 0%Z.
Proof.
  intros H0 Hne. unfold close_order.
  destruct (decide (0 < cur_qty)%Z); [|lia].
  intros [= <-]. simpl. repeat split; lia.
Qed.

Lemma entry_order_long_only open_px c o :
  entry_order bt 1 open_px c = inr (Some o) ->
  o_side o = BUY /\ (0 < o_qty o)%Z /\ o_new_pos o = o_qty o.
Proof.
  unfold entry_order.
  destruct (floordiv _ _) as [e|shares]; [discriminate|].
  destruct (decide (shares <= 0)%Z); [discriminate|].
  simpl. destruct (affordable _ _ _) as [e|afford] eqn:Haff; [discriminate|].
  destruct (decide _); [discriminate|].
  intros [= <-]. simpl. repeat split.
  unfold affordable in Haff. destruct (floordiv _ _); [discriminate|].
  assert (Z.max 0 z = afford) by congruence. lia.
Qed.

Lemma process_symbol_long_only dt next_dt sym s :
  long_only_state s ->
  wp (process_symbol bt dt next_dt sym)
     (fun _ => long_only_state) long_only_raised s.
Proof.
  intros Hs. apply wp_process_symbol; [auto|].
  intros _. destruct (loc _ _ _) as [e|bar]; [split; apply Hs|].
  apply (vc_turn_intro _ _ _ _ _ _ _ long_only_state); auto.
  - intros s1 H1. split; apply H1.
  - intros o Hcur Hco.
    destruct (close_order_long_only _ _ _ _ (proj1 Hs sym) Hcur Hco)
      as (Hside & Hqty & Hnew).
    apply booked_long_only; [exact Hs|lia| |].
    + rewrite Hside, Hqty, Hnew. lia.
    + intros _. rewrite Hqty. split; [|reflexivity].
      pose proof (proj1 Hs sym). lia.
  - intros s1 o H1 Ht Hflat Heo.
    destruct (proj2 (target_long_only sym dt)) as [H0|H1']; [contradiction|].
    rewrite H1' in Heo.
    destruct (entry_order_long_only _ _ _ Heo) as (Hside & Hqty & Hnew).
    apply booked_long_only; [exact H1|lia| |].
    + rewrite Hside, Hnew, Hflat. lia.
    + rewrite Hside. discriminate.
Qed.

Lemma run_day_long_only dt next_dt s :
  long_only_state s ->
  wp (run_day bt dt next_dt) (fun _ => long_only_state) long_only_raised s.
Proof.
  intros Hs. apply wp_run_day.
  eapply wp_mono.
  - apply (wp_for_each (fun _ => long_only_state) _ long_only_raised
                       (symbols (data bt)) [] s Hs).
    intros pre x post s0 _ _ H0. apply process_symbol_long_only, H0.
  - intros [] s1 H1. simpl. split; [split; apply H1|]. intros eq. exact H1.
  - auto.
Qed.

Lemma init_long_only : long_only_state (init_state bt).
Proof.
  split; [|split].
  - intros sym. rewrite init_positions. reflexivity.
  - apply long_only_history_nil.
  - intros sym. rewrite init_positions. reflexivity.
Qed.

Lemma state_before_long_only i : long_only_raised (state_before bt i).
Proof.
  pose proof (run_before_inv bt (fun _ => long_only_state) long_only_raised
                init_long_only) as Hinv.
  specialize (Hinv ltac:(intros j dt nx s _ _ Hs; apply run_day_long_only, Hs)).
  specialize (Hinv i). unfold state_before.
  destruct (run_before bt i) as [[e|[]] s]; simpl; [exact Hinv|].
  split; apply Hinv.
Qed.
End LongOnly.

(** C5. With [allow_shorts = False]: a raw signal of -1 is processed as 0
    (every processed target is 0 or 1); before every session, and at the
    end of the run, no symbol's position is negative; and in the fill list
    no prefix leaves any symbol short, while every SELL sells exactly the
    positive number of shares its symbol held before it. *)
Theorem long_only_guarantee (bt : Backtester) :
  allow_shorts bt = false ->
  (forall sym dt,
      (signals bt sym dt = (-1)%Z -> target_of bt sym dt = 0%Z) /\
      (target_of bt sym dt = 0%Z \/ target_of bt sym dt = 1%Z)) /\
  (forall i sym, 0 <= getd (positions (state_before bt i)) sym)%Z /\
  (forall sym, 0 <= getd (positions (final (run bt) (init_state bt))) sym)%Z /\
  long_only_history (fills (final (run bt) (init_state bt))).
Proof.
  intros Hoff. split; [intros sym dt; apply target_long_only, Hoff|].
  split; [intros i sym; apply (state_before_long_only bt Hoff i)|].
  destruct (run_final_state bt) as (_ & -> & -> & _).
  split; [intros sym|]; apply (state_before_long_only bt Hoff).
Qed.

Lemma two_symbols_bt_init :
  Backtester_init two_symbols long_then_flat 100000 default_costs false
  = inr two_symbols_bt.
Proof. vm_compute. reflexivity. Qed.

Lemma long_only_guarantee_witness :
  allow_shorts two_symbols_bt = false /\
  signals two_symbols_bt "BBB" 1 = (-1)%Z /\
  target_of two_symbols_bt "BBB" 1 = 0%Z /\
  long_only_history (fills (final (run two_symbols_bt) (init_state two_symbols_bt))).
Proof.
  split; [reflexivity|]. split; [reflexivity|].
  destruct (long_only_guarantee two_symbols_bt eq_refl) as (Ht & _ & _ & Hh).
  split; [|exact Hh].
  apply (Ht "BBB"%string 1%Z). reflexivity.
Defined.

Lemma churn_suppression_witness :
  fills_of "BBB" (fills (state_before two_symbols_bt 3))
  = fills_of "BBB" (fills (state_before two_symbols_bt 0)).
Proof.
  apply (churn_suppression two_symbols_bt "BBB" 0 3).
  intros j dt Hj Hdt.
  assert (Hcases : j = 0%nat \/ j = 1%nat \/ j = 2%nat) by lia.
  destruct Hcases as [-> | [-> | ->]]; injection Hdt as <-;
    vm_compute; reflexivity.
Defined.

(** ** C2: a cover that cannot afford a single share *)

(** When the cap leaves nothing to buy, the close block still books the
    order: the sizing returns an order of quantity 0 and [book] appends its
    fill. *)
Lemma close_order_zero_cover bt open_px cur_qty c :
  (cur_qty < 0)%Z ->
  affordable bt c (_exec_price bt BUY open_px) = inr 0%Z ->
  close_order bt open_px cur_qty c
  = inr (mkOrder BUY 0 (_exec_price bt BUY open_px) cur_qty).
Proof.
  intros Hneg Haff. unfold close_order.
  destruct (decide (0 < cur_qty)%Z); [lia|].
  rewrite Haff. do 2 f_equal; lia.
Qed.

Lemma close_leg_books_zero bt dt next_dt sym open_px cur_qty s :
  (cur_qty < 0)%Z ->
  affordable bt (cash s) (_exec_price bt BUY open_px) = inr 0%Z ->
  wp (close_leg bt dt next_dt sym open_px cur_qty)
     (fun _ s' => exists f, fills s' = fills s ++ [f] /\
                            Fill.side f = BUY /\ Fill.qty f = 0%Z /\
                            getd (positions s') sym = cur_qty)
     (fun s' => fills s' = fills s)
     s.
Proof.
  intros Hneg Haff. apply wp_close_leg.
  rewrite (close_order_zero_cover _ _ _ _ Hneg Haff).
  split; [reflexivity|].
  intros eq. eexists. split; [reflexivity|]. simpl.
  rewrite getd_insert_eq. auto.
Qed.

(** C2, on the code: capital 100, both rates 0, shorts enabled.  AAA is
    shorted at an Open of 1 (95 shares, cash 195); the next target is flat
    and the next Open is 1000, so the cover can afford 0 shares.  The run
    still records a second fill, a BUY of quantity 0 dated the execution
    day, and the short position stays open. *)
Theorem zero_quantity_cover_is_recorded :
  exists r s f1 f2,
    backtest short_squeeze short_one_day 100 (Costs.mk 0 0) true = inr (r, s) /\
    fills s = [f1; f2] /\
    Fill.side f1 = SELL /\ Fill.qty f1 = 95%Z /\ Fill.cash_after f1 == 195 /\
    Fill.date f2 = 2%Z /\ Fill.symbol f2 = "AAA"%string /\
    Fill.side f2 = BUY /\ Fill.qty f2 = 0%Z /\
    getd (positions s) "AAA" = (-95)%Z.
Proof.
  eexists _, _, _, _.
  split; [vm_compute; reflexivity|].
  split; [reflexivity|].
  repeat split; reflexivity.
Qed.

(** ** Trade reconstruction *)

Lemma acc_ok_empty : acc_ok Acc.empty.
Proof. split; simpl; [tauto|congruence]. Qed.

(** [close_trade] at a zero position with an open entry emits one trade
    and resets; it cannot fail on a well-kept accumulator. *)
Lemma close_trade_zero sym dt s trades :
  acc_ok s -> Acc.pos s = 0%Z -> Acc.entry_side s <> None ->
  exists t,
    close_trade sym dt s trades
    = inr (Acc.mk 0 None None 0 0 0, trades ++ [t]) /\
    Trade.symbol t = sym /\ Trade.exit_date t = dt /\
    Trade.qty t = Acc.qty_total s /\
    Some (Trade.side t) = Acc.entry_side s.
Proof.
  intros [Hiff _] Hpos Hside. unfold close_trade.
  destruct (Acc.entry_side s) as [side_|] eqn:Hs; [|congruence].
  rewrite decide_False by (rewrite Hpos; auto).
  destruct (Acc.entry_date s) as [d|] eqn:Hd.
  - eexists. rewrite Hpos. split; [reflexivity|]. simpl. auto.
  - exfalso. assert (Some side_ = None) by (apply Hiff; reflexivity). discriminate.
Qed.

(** What a BUY row does: the trade list grows by exactly one trade,
    closed on the row's date, when the row takes the position back to
    zero, and not at all otherwise. *)
Lemma on_buy_spec sym dt px psc qty s trades :
  acc_ok s ->
  exists s' trades',
    on_buy sym dt px psc qty s trades = inr (s', trades') /\
    acc_ok s' /\
    (if decide (Acc.pos s < 0 /\ - Acc.pos s <= qty)%Z
     then exists t, trades' = trades ++ [t] /\
                    Trade.symbol t = sym /\ Trade.exit_date t = dt
     else trades' = trades) /\
    ((0 <= qty)%Z -> Acc.pos s' = (Acc.pos s + qty)%Z).
Proof.
  intros Hok. pose proof Hok as [Hiff Hnz]. unfold on_buy.
  destruct (decide (0 <= Acc.pos s)%Z) as [Hp|Hp].
  { eexists _, _. split; [reflexivity|]. split; [|split].
    - split; simpl; [split; discriminate|discriminate].
    - rewrite decide_False by lia. reflexivity.
    - reflexivity. }
  set (cover := Z.min qty (- Acc.pos s)).
  destruct (decide (0 < cover)%Z) as [Hc|Hc].
  - cbv zeta. simpl Acc.pos.
    destruct (decide (Acc.pos s + cover = 0)%Z) as [Hz|Hz].
    + destruct (close_trade_zero sym dt
                  (Acc.add_pos cover (add_short_exit px psc cover s)) trades)
        as (t & Hct & Ht1 & Ht2 & _).
      { split; simpl; [exact Hiff|]. intros _. apply Hnz. lia. }
      { exact Hz. }
      { simpl. apply Hnz. lia. }
      rewrite Hct.
      destruct (decide (0 < qty - cover)%Z) as [Hr|Hr].
      * eexists _, _. split; [reflexivity|]. split; [|split].
        -- split; simpl; [split; discriminate|discriminate].
        -- rewrite decide_True by lia. eauto.
        -- simpl. lia.
      * eexists _, _. split; [reflexivity|]. split; [|split].
        -- split; simpl; [tauto|congruence].
        -- rewrite decide_True by lia. eauto.
        -- simpl. lia.
    + destruct (decide (0 < qty - cover)%Z) as [Hr|Hr]; [lia|].
      eexists _, _. split; [reflexivity|]. split; [|split].
      * split; simpl; [exact Hiff|]. intros _. apply Hnz. lia.
      * rewrite decide_False by lia. reflexivity.
      * simpl. lia.
  - destruct (decide (0 < qty - cover)%Z) as [Hr|Hr]; [lia|].
    eexists _, _. split; [reflexivity|]. split; [exact Hok|]. split.
    + rewrite decide_False by lia. reflexivity.
    + lia.
Qed.

(** The mirror image for a SELL row. *)
Lemma on_sell_spec sym dt px psc qty s trades :
  acc_ok s ->
  exists s' trades',
    on_sell sym dt px psc qty s trades = inr (s', trades') /\
    acc_ok s' /\
    (if decide (0 < Acc.pos s /\ Acc.pos s <= qty)%Z
     then exists t, trades' = trades ++ [t] /\
                    Trade.symbol t = sym /\ Trade.exit_date t = dt
     else trades' = trades) /\
    ((0 <= qty)%Z -> Acc.pos s' = (Acc.pos s - qty)%Z).
Proof.
  intros Hok. pose proof Hok as [Hiff Hnz]. unfold on_sell.
  destruct (decide (Acc.pos s <= 0)%Z) as [Hp|Hp].
  { eexists _, _. split; [reflexivity|]. split; [|split].
    - split; simpl; [split; discriminate|discriminate].
    - rewrite decide_False by lia. reflexivity.
    - simpl. lia. }
  set (exitq := Z.min qty (Acc.pos s)).
  destruct (decide (0 < exitq)%Z) as [Hc|Hc].
  - cbv zeta. simpl Acc.pos.
    destruct (decide (Acc.pos s + - exitq = 0)%Z) as [Hz|Hz].
    + destruct (close_trade_zero sym dt
                  (Acc.add_pos (- exitq) (add_long_exit px psc exitq s)) trades)
        as (t & Hct & Ht1 & Ht2 & _).
      { split; simpl; [exact Hiff|]. intros _. apply Hnz. lia. }
      { exact Hz. }
      { simpl. apply Hnz. lia. }
      rewrite Hct.
      destruct (decide (0 < qty - exitq)%Z) as [Hr|Hr].
      * eexists _, _. split; [reflexivity|]. split; [|split].
        -- split; simpl; [split; discriminate|discriminate].
        -- rewrite decide_True by lia. eauto.
        -- simpl. lia.
      * eexists _, _. split; [reflexivity|]. split; [|split].
        -- split; simpl; [tauto|congruence].
        -- rewrite decide_True by lia. eauto.
        -- simpl. lia.
    + destruct (decide (0 < qty - exitq)%Z) as [Hr|Hr]; [lia|].
      eexists _, _. split; [reflexivity|]. split; [|split].
      * split; simpl; [exact Hiff|]. intros _. apply Hnz. lia.
      * rewrite decide_False by lia. reflexivity.
      * simpl. lia.
  - destruct (decide (0 < qty - exitq)%Z) as [Hr|Hr]; [lia|].
    eexists _, _. split; [reflexivity|]. split; [exact Hok|]. split.
    + rewrite decide_False by lia. reflexivity.
    + lia.
Qed.

Lemma acc_of_insert_eq st sym s : acc_of (<[sym := s]> st) sym = s.
Proof. unfold acc_of. rewrite lookup_insert_eq. reflexivity. Qed.

Lemma acc_of_insert_ne st sym sym' s :
  sym <> sym' -> acc_of (<[sym := s]> st) sym' = acc_of st sym'.
Proof. intros H. unfold acc_of. rewrite lookup_insert_ne by exact H. reflexivity. Qed.

(** One row of the loop: it cannot fail, it keeps the accumulators well
    kept, touches only its own symbol, and emits one trade exactly when it
    takes that symbol's position back to zero. *)
Lemma process_row_spec st trades r :
  all_ok st ->
  exists st' trades',
    process_row (st, trades) r = inr (st', trades') /\
    all_ok st' /\
    (if decide (returns_to_zero (Acc.pos (acc_of st (Row.symbol r))) r)
     then exists t, trades' = trades ++ [t] /\ trade_key t = row_key r
     else trades' = trades) /\
    (forall sym, sym <> Row.symbol r -> acc_of st' sym = acc_of st sym) /\
    ((0 <= Row.qty r)%Z ->
     Acc.pos (acc_of st' (Row.symbol r)) =
     match Row.side r with
     | BUY => Acc.pos (acc_of st (Row.symbol r)) + Row.qty r
     | SELL => Acc.pos (acc_of st (Row.symbol r)) - Row.qty r
     end%Z).
Proof.
  intros Hok. destruct r as [dt sym side qty px comm].
  unfold process_row, row_key, trade_key. simpl.
  fold (acc_of st sym).
  set (psc := if decide (0 < qty)%Z then comm / inject_Z qty else 0).
  assert (Hfin : forall s',
            acc_ok s' ->
            all_ok (<[sym := s']> st) /\
            (forall sym', sym' <> sym ->
               acc_of (<[sym := s']> st) sym' = acc_of st sym')).
  { intros s' Hs'. split.
    - intros sym'. destruct (decide (sym = sym')) as [<-|Hne].
      + rewrite acc_of_insert_eq. exact Hs'.
      + rewrite acc_of_insert_ne by exact Hne. apply Hok.
    - intros sym' Hne. apply acc_of_insert_ne. congruence. }
  destruct side.
  - destruct (on_buy_spec sym dt px psc qty (acc_of st sym) trades (Hok _))
      as (s' & trades' & Hrun & Hs' & Hemit & Hpos).
    rewrite Hrun. eexists _, _. split; [reflexivity|].
    rewrite acc_of_insert_eq.
    destruct (Hfin s' Hs') as (H1 & H3).
    split; [exact H1|]. split; [|split; [exact H3|exact Hpos]].
    destruct (decide (returns_to_zero _ _)) as [Hz|Hz];
      unfold returns_to_zero in Hz; simpl in Hz.
    + rewrite decide_True in Hemit by exact Hz.
      destruct Hemit as (t & -> & Hsym & Hdate). exists t. split; [reflexivity|].
      congruence.
    + rewrite decide_False in Hemit by exact Hz. exact Hemit.
  - destruct (on_sell_spec sym dt px psc qty (acc_of st sym) trades (Hok _))
      as (s' & trades' & Hrun & Hs' & Hemit & Hpos).
    rewrite Hrun. eexists _, _. split; [reflexivity|].
    rewrite acc_of_insert_eq.
    destruct (Hfin s' Hs') as (H1 & H3).
    split; [exact H1|]. split; [|split; [exact H3|exact Hpos]].
    destruct (decide (returns_to_zero _ _)) as [Hz|Hz];
      unfold returns_to_zero in Hz; simpl in Hz.
    + rewrite decide_True in Hemit by exact Hz.
      destruct Hemit as (t & -> & Hsym & Hdate). exists t. split; [reflexivity|].
      congruence.
    + rewrite decide_False in Hemit by exact Hz. exact Hemit.
Qed.

Lemma process_rows_app a b acc :
  process_rows (a ++ b) acc =
  match process_rows a acc with
  | inl e => inl e
  | inr acc' => process_rows b acc'
  end.
Proof.
  revert acc. induction a as [|r a IH]; intros acc; simpl; [reflexivity|].
  destruct (process_row acc r); [reflexivity|]. apply IH.
Qed.

Lemma process_rows_single r acc : process_rows [r] acc = process_row acc r.
Proof.
  unfold process_rows. destruct (process_row acc r) as [e|acc']; reflexivity.
Qed.

(** The loop over the rows [rest], resumed after the rows [seen]: it ends
    normally, and the trades it adds are, in order, the closings of
    [rest]. *)
Lemma process_rows_closings rest :
  forall seen st trades,
    reconstruct seen = inr (st, trades) ->
    all_ok st ->
    exists st' new,
      reconstruct (seen ++ rest) = inr (st', trades ++ new) /\
      all_ok st' /\
      map trade_key new = map row_key (closings_from seen rest).
Proof.
  induction rest as [|r rest IH]; intros seen st trades Hseen Hok.
  - exists st, []. rewrite !app_nil_r. auto.
  - destruct (process_row_spec st trades r Hok)
      as (st1 & trades1 & Hrow & Hok1 & Hemit & _).
    assert (Hseen1 : reconstruct (seen ++ [r]) = inr (st1, trades1)).
    { unfold reconstruct in *.
      rewrite process_rows_app, Hseen, process_rows_single. exact Hrow. }
    simpl closings_from. unfold position_after. rewrite Hseen.
    destruct (decide _) as [Hz|Hz].
    + destruct Hemit as (t & -> & Hkey).
      destruct (IH (seen ++ [r]) st1 (trades ++ [t]) Hseen1 Hok1)
        as (st' & new & Hrun & Hok' & Hmap).
      exists st', (t :: new). rewrite <- !app_assoc in Hrun. simpl in Hrun.
      split; [exact Hrun|]. split; [exact Hok'|].
      simpl. rewrite Hkey, Hmap. reflexivity.
    + subst trades1.
      destruct (IH (seen ++ [r]) st1 trades Hseen1 Hok1)
        as (st' & new & Hrun & Hok' & Hmap).
      exists st', new. rewrite <- app_assoc in Hrun. simpl in Hrun. auto.
Qed.

Lemma all_ok_empty : all_ok ∅.
Proof. intros sym. unfold acc_of. rewrite lookup_empty. apply acc_ok_empty. Qed.

(** The reconstruction never raises. *)
Lemma reconstruct_total rows :
  exists st trades,
    reconstruct rows = inr (st, trades) /\ all_ok st /\
    map trade_key trades = map row_key (closings rows).
Proof.
  destruct (process_rows_closings rows [] ∅ [] eq_refl all_ok_empty)
    as (st & new & Hrun & Hok & Hmap).
  exists st, new. auto.
Qed.

(** For rows of non-negative quantity the position the reconstruction
    tracks is the signed sum of the quantities. *)
Lemma position_after_net sym rows :
  Forall (fun r => 0 <= Row.qty r)%Z rows ->
  position_after sym rows = net_quantity sym rows.
Proof.
  induction rows as [|r rows IH] using rev_ind; intros Hall; [reflexivity|].
  apply Forall_app in Hall as [Hall Hr]. inversion_clear Hr as [|? ? Hq _].
  specialize (IH Hall). unfold position_after in *.
  destruct (reconstruct_total rows) as (st & trades & Hrun & Hok & _).
  rewrite Hrun in IH.
  destruct (process_row_spec st trades r Hok)
    as (st1 & trades1 & Hrow & _ & _ & Hother & Hpos).
  unfold reconstruct in *.
  rewrite process_rows_app, Hrun, process_rows_single, Hrow.
  unfold net_quantity. rewrite foldl_snoc. fold (net_quantity sym rows).
  destruct (decide (Row.symbol r = sym)) as [<-|Hne].
  - rewrite (Hpos Hq), IH. reflexivity.
  - rewrite Hother by congruence. exact IH.
Qed.

Lemma string_compare_refl (s : string) : String.compare s s = Eq.
Proof.
  pose proof (String.compare_antisym s s) as H.
  destruct (String.compare s s); simpl in H; congruence.
Qed.

Lemma round_trip_trades_reconstruct fs :
  round_trip_trades fs =
  match reconstruct (sort_values (map Row.of_fill fs)) with
  | inl e => inl e
  | inr (_, trades) => inr trades
  end.
Proof. destruct fs; reflexivity. Qed.

(** ** C4: a flip inside one fill *)

(** C4. For one symbol, the fills [BUY 100 at 10] then [SELL 150 at 12],
    both with zero commission, reconstruct to exactly one trade: LONG,
    quantity 100, entry amount 1000, exit amount 1200, pnl 200, opened on
    the first fill's date and closed on the second's.  The 50 shares sold
    beyond the long stay in the accumulator as an open SHORT entry and are
    not in the list. *)
Theorem flip_reconstruction (sym : string) (d1 d2 : Z) (c1 e1 c2 e2 : Q) :
  (d1 <= d2)%Z ->
  let fs := [Fill.mk d1 sym BUY 100 10 0 c1 e1;
             Fill.mk d2 sym SELL 150 12 0 c2 e2] in
  exists t st,
    round_trip_trades fs = inr [t] /\
    Trade.symbol t = sym /\ Trade.side t = LONG /\ Trade.qty t = 100%Z /\
    Trade.entry_date t = d1 /\ Trade.exit_date t = d2 /\
    Trade.entry_amount t == 1000 /\ Trade.exit_amount t == 1200 /\
    Trade.pnl t == 200 /\
    reconstruct (sort_values (map Row.of_fill fs)) = inr (st, [t]) /\
    Acc.pos (acc_of st sym) = (-50)%Z /\
    Acc.entry_side (acc_of st sym) = Some SHORT /\
    Acc.qty_total (acc_of st sym) = 50%Z.
Proof.
  intros Hd fs.
  assert (Hsort : sort_values (map Row.of_fill fs)
                  = [Row.mk d1 sym BUY 100 10 0; Row.mk d2 sym SELL 150 12 0]).
  { unfold fs, sort_values. simpl. unfold Row.leb. simpl.
    rewrite string_compare_refl, bool_decide_eq_true_2 by exact Hd. reflexivity. }
  assert (Hrun : exists t st,
             reconstruct (sort_values (map Row.of_fill fs)) = inr (st, [t]) /\
             Trade.symbol t = sym /\ Trade.side t = LONG /\ Trade.qty t = 100%Z /\
             Trade.entry_date t = d1 /\ Trade.exit_date t = d2 /\
             Trade.entry_amount t == 1000 /\ Trade.exit_amount t == 1200 /\
             Trade.pnl t == 200 /\
             Acc.pos (acc_of st sym) = (-50)%Z /\
             Acc.entry_side (acc_of st sym) = Some SHORT /\
             Acc.qty_total (acc_of st sym) = 50%Z).
  { rewrite Hsort. unfold reconstruct, process_rows, process_row. simpl.
    rewrite lookup_empty. simpl. rewrite lookup_insert_eq. simpl.
    eexists _, _. split; [reflexivity|]. simpl.
    rewrite acc_of_insert_eq. simpl.
    repeat split; reflexivity. }
  destruct Hrun as (t & st & Hrun & H).
  exists t, st. rewrite round_trip_trades_reconstruct, Hrun. tauto.
Qed.

Lemma flip_reconstruction_witness :
  exists t,
    round_trip_trades [Fill.mk 3 "XYZ" BUY 100 10 0 0 0;
                       Fill.mk 5 "XYZ" SELL 150 12 0 0 0] = inr [t] /\
    Trade.side t = LONG /\ Trade.qty t = 100%Z /\ Trade.pnl t == 200.
Proof.
  destruct (flip_reconstruction "XYZ" 3 5 0 0 0 0 ltac:(discriminate))
    as (t & st & H1 & _ & H2 & H3 & _ & _ & _ & _ & H4 & _).
  exists t. auto.
Defined.

(** ** C8: the reconstruction is a function of the rows, and an open
    position is not a trade *)

Lemma map_key_elem {A B K} (f : A -> K) (g : B -> K) (l : list A) (k : list B) x :
  map f l = map g k -> x ∈ l -> exists y, y ∈ k /\ f x = g y.
Proof.
  intros Hmap Hin.
  assert (Hfx : f x ∈ map g k).
  { rewrite <- Hmap. apply (list_elem_of_fmap_2 f), Hin. }
  apply (list_elem_of_fmap g) in Hfx. destruct Hfx as (y & Hy & Hk). eauto.
Qed.

(** C8. [round_trip_trades] reads the date, symbol, side, quantity, price
    and commission of each fill and nothing else, so two fill lists with
    the same rows, in particular the same list twice, give equal results.
    It always returns a trade list.  Its trades are, in order, one per row
    at which that row's symbol returns to a position of exactly zero, and
    closed on that row's date.  Hence, when the sorted rows split into
    [pre] and [post] and no row of [sym] in [post] takes its position back
    to zero, the position built up over [post] stays open and adds no
    trade: the trades of [sym] are those already closed by [pre]. *)
Theorem reconstruction_deterministic_open_excluded (fs : list Fill.t) :
  (forall fs', map Row.of_fill fs' = map Row.of_fill fs ->
               round_trip_trades fs' = round_trip_trades fs) /\
  exists trades,
    round_trip_trades fs = inr trades /\
    map trade_key trades
    = map row_key (closings (sort_values (map Row.of_fill fs))) /\
    forall sym pre post,
      sort_values (map Row.of_fill fs) = pre ++ post ->
      (forall r, r ∈ closings_from pre post -> Row.symbol r <> sym) ->
      exists st closed,
        reconstruct pre = inr (st, closed) /\
        trades_of sym trades = trades_of sym closed.
Proof.
  split.
  { intros fs' Hrows. rewrite !round_trip_trades_reconstruct, Hrows. reflexivity. }
  destruct (reconstruct_total (sort_values (map Row.of_fill fs)))
    as (st & trades & Hrun & _ & Hkeys).
  exists trades. rewrite round_trip_trades_reconstruct, Hrun.
  split; [reflexivity|]. split; [exact Hkeys|].
  intros sym pre post Hsplit Hopen.
  destruct (reconstruct_total pre) as (st0 & closed & Hpre & Hok0 & _).
  destruct (process_rows_closings post pre st0 closed Hpre Hok0)
    as (st' & new & Hall & _ & Hnew).
  rewrite <- Hsplit, Hrun in Hall. injection Hall as _ ->.
  exists st0, closed. split; [exact Hpre|].
  unfold trades_of. rewrite filter_app.
  assert (Hnone : forall l : list Trade.t,
            (forall t, t ∈ l -> Trade.symbol t <> sym) ->
            filter (fun t => Trade.symbol t = sym) l = []).
  { induction l as [|t l IH]; intros Hl; [reflexivity|].
    rewrite filter_cons_False by (apply Hl; left).
    apply IH. intros t' Ht'. apply Hl. right. exact Ht'. }
  rewrite (Hnone new), app_nil_r; [reflexivity|].
  intros t Ht.
  destruct (map_key_elem trade_key row_key new _ t Hnew Ht) as (r & Hr & Hkey).
  injection Hkey as Hsym _. rewrite Hsym. apply Hopen, Hr.
Qed.

(** ** C7: the Sharpe ratio *)

Lemma dropna_pct_change_from prev rest :
  length (dropna (pct_change_from prev rest)) = length rest.
Proof.
  revert prev. induction rest as [|x rest IH]; intros prev; simpl; [reflexivity|].
  rewrite IH. reflexivity.
Qed.

(** A series of [n] points has [n - 1] daily returns. *)
Lemma returns_length equity :
  length (dropna (pct_change equity)) = pred (length equity).
Proof.
  destruct equity as [|x rest]; simpl; [reflexivity|].
  apply dropna_pct_change_from.
Qed.

(** With fewer than two points there is no return and the result is 0. *)
Lemma sharpe_fewer_than_two_points equity rf :
  (length equity < 2)%nat -> sharpe equity rf = Num 0.
Proof.
  intros Hlen. unfold sharpe.
  rewrite decide_True; [reflexivity|]. rewrite returns_length. lia.
Qed.

(** With at least two returns the standard deviation is a number: zero
    gives 0, anything else the annualised ratio. *)
Lemma sharpe_at_least_three_points equity rf :
  (3 <= length equity)%nat ->
  let excess := map (fun r => r - rf / TRADING_DAYS)%R
                    (dropna (pct_change equity)) in
  let sd := sqrt (variance 1 excess) in
  (sd = 0%R -> sharpe equity rf = Num 0) /\
  (sd <> 0%R ->
   sharpe equity rf = Num (mean excess / sd * sqrt TRADING_DAYS)%R).
Proof.
  intros Hlen excess sd.
  assert (Hn : length excess = pred (length equity)).
  { unfold excess. rewrite length_map. apply returns_length. }
  unfold sharpe. rewrite decide_False by (rewrite returns_length; lia).
  fold excess. unfold std. rewrite decide_False by lia. fold sd.
  destruct (Req_dec_T sd 0) as [Hz|Hnz]; split; intros H;
    try reflexivity; contradiction.
Qed.

(** C7, on the code: an equity series of exactly two points has a single
    daily return, whose standard deviation with [ddof = 1] is NaN; the
    guard [sd == 0] does not catch it and [sharpe] returns NaN, not 0. *)
Theorem sharpe_two_points_is_nan (e0 e1 rf : R) :
  sharpe [e0; e1] rf = NaN /\ sharpe [e0; e1] rf <> Num 0.
Proof. split; [reflexivity|discriminate]. Qed.

Lemma Rsum_constant (l : list R) (c : R) :
  Forall (fun x => x = c) l -> Rsum l = (INR (length l) * c)%R.
Proof.
  induction 1 as [|x l Hx _ IH].
  - simpl. ring.
  - change (Rsum (x :: l)) with (x + Rsum l)%R.
    rewrite IH, Hx. rewrite length_cons, S_INR. ring.
Qed.

Lemma mean_constant (l : list R) (c : R) :
  l <> [] -> Forall (fun x => x = c) l -> mean l = c.
Proof.
  intros Hne Hall. unfold mean. rewrite (Rsum_constant l c Hall).
  field. apply not_0_INR. destruct l; [contradiction|discriminate].
Qed.

Lemma variance_constant (ddof : nat) (l : list R) (c : R) :
  l <> [] -> Forall (fun x => x = c) l -> variance ddof l = 0%R.
Proof.
  intros Hne Hall. unfold variance.
  rewrite (mean_constant l c Hne Hall).
  rewrite (Rsum_constant _ 0%R).
  - unfold Rdiv. ring.
  - apply Forall_map. eapply Forall_impl; [exact Hall|].
    intros x ->. simpl. ring.
Qed.

(** In exact arithmetic, at least two daily returns that are all equal
    have zero variance, and the result is 0. *)
Lemma sharpe_constant_returns equity rf c :
  (3 <= length equity)%nat ->
  Forall (fun r => r = c) (dropna (pct_change equity)) ->
  sharpe equity rf = Num 0.
Proof.
  intros Hlen Hall.
  apply (sharpe_at_least_three_points equity rf Hlen).
  rewrite (variance_constant 1 _ (c - rf / TRADING_DAYS)%R).
  - apply sqrt_0.
  - intros Hnil. apply (f_equal length) in Hnil.
    rewrite length_map, returns_length in Hnil. simpl in Hnil. lia.
  - apply Forall_map. eapply Forall_impl; [exact Hall|].
    intros x ->. reflexivity.
Qed.

(* ================================================================== *)
(** * Further properties of the code *)
(* ================================================================== *)

(** ** The ledger: [market_value], [equity], [_apply_fill] *)

Lemma inject_Z_sub (x y : Z) : inject_Z (x - y) = inject_Z x - inject_Z y.
Proof.
  unfold Z.sub. rewrite inject_Z_plus, inject_Z_opp. reflexivity.
Qed.

(** Replacing the position of one symbol moves the market value by the
    change in that symbol's shares times its price. *)
Lemma market_value_insert (p : Portfolio.t) (prices : gmap string Q)
    (sym : string) (pos' : Position.t) (c : Q) (fs : list Fill.t) :
  Portfolio.market_value
    (Portfolio.mk c (<[sym := pos']> (Portfolio.positions p)) fs) prices
  == Portfolio.market_value p prices
     + inject_Z (Position.qty pos' - shares_of p sym) * default 0 (prices !! sym).
Proof.
  unfold Portfolio.market_value, shares_of. simpl.
  set (f := fun (s : string) (ps : Position.t) (mv : Q) =>
              mv + inject_Z (Position.qty ps) * default 0 (prices !! s)).
  assert (Hprop : forall j z, Proper (Qeq ==> Qeq) (f j z)).
  { intros j z a b Hab. unfold f. rewrite Hab. reflexivity. }
  assert (Hcomm : forall j1 j2 z1 z2 y, f j1 z1 (f j2 z2 y) == f j2 z2 (f j1 z1 y)).
  { intros. unfold f. ring. }
  rewrite <- (insert_delete_eq (Portfolio.positions p)).
  rewrite (map_fold_insert Qeq f 0 sym pos' (delete sym (Portfolio.positions p)));
    [|exact Hprop|intros; apply Hcomm|apply lookup_delete_eq].
  destruct (Portfolio.positions p !! sym) as [old|] eqn:Hold.
  - rewrite (map_fold_delete Qeq f 0 sym old (Portfolio.positions p));
      [|exact Hprop|intros; apply Hcomm|exact Hold].
    unfold f. simpl. rewrite inject_Z_sub. ring.
  - rewrite (delete_id _ _ Hold). unfold f. simpl.
    rewrite inject_Z_sub. ring.
Qed.

(** X1. A fill applied at the price the symbol is marked at changes the
    equity by exactly minus the commission: buying or selling at the mark
    moves value between cash and the position and nothing else. *)
Theorem apply_fill_equity_at_mark (p : Portfolio.t) (date : Z) (symbol : string)
    (side : Side) (qty : Z) (price commission : Q)
    (prices_now prices : gmap string Q) :
  prices !! symbol = Some price ->
  Portfolio.equity
    (Portfolio._apply_fill p date symbol side qty price commission prices_now)
    prices
  == Portfolio.equity p prices - commission.
Proof.
  intros Hpx. unfold Portfolio._apply_fill, Portfolio.equity.
  destruct side; simpl.
  - match goal with
    | |- context [Portfolio.market_value (Portfolio.mk ?c (<[_ := ?q]> _) ?fs) _] =>
        rewrite (market_value_insert p prices symbol q c fs)
    end.
    unfold shares_of. rewrite Hpx. simpl.
    rewrite inject_Z_sub, inject_Z_plus. ring.
  - match goal with
    | |- context [Portfolio.market_value (Portfolio.mk ?c (<[_ := ?q]> _) ?fs) _] =>
        rewrite (market_value_insert p prices symbol q c fs)
    end.
    unfold shares_of. rewrite Hpx. simpl.
    rewrite !inject_Z_sub. ring.
Qed.

Lemma apply_fill_equity_at_mark_witness :
  let prices : gmap string Q := {["AAA"%string := 50]} in
  prices !! "AAA"%string = Some 50 /\
  Portfolio.equity
    (Portfolio._apply_fill (Portfolio.new 1000) 0 "AAA" BUY 10 50 (1 # 2) ∅)
    prices
  == Portfolio.equity (Portfolio.new 1000) prices - (1 # 2).
Proof.
  intros prices. split; [vm_compute; reflexivity|].
  apply (apply_fill_equity_at_mark (Portfolio.new 1000) 0 "AAA" BUY 10 50
           (1 # 2) ∅ prices).
  vm_compute. reflexivity.
Defined.

Lemma apply_fill_shares (p : Portfolio.t) date symbol side qty price commission
    prices_now :
  shares_of (Portfolio._apply_fill p date symbol side qty price commission
                                   prices_now) symbol
  = match side with
    | BUY => shares_of p symbol + qty
    | SELL => shares_of p symbol - qty
    end%Z.
Proof.
  unfold shares_of, Portfolio._apply_fill.
  destruct side; simpl; rewrite lookup_insert_eq; reflexivity.
Qed.

(** X2. Buying [q] shares and then selling the same [q] shares of a
    symbol brings its share count back to where it was, touches no other
    symbol, appends two fills (the BUY, then the SELL) after the fills
    recorded before and changes cash by the price difference on [q] shares
    less both commissions; if the symbol was flat before, its average cost
    is reset to 0. *)
Theorem buy_then_sell_round_trip (p : Portfolio.t) (d1 d2 : Z) (sym : string)
    (q : Z) (px1 px2 c1 c2 : Q) (pr1 pr2 : gmap string Q) :
  let p1 := Portfolio._apply_fill p d1 sym BUY q px1 c1 pr1 in
  let p2 := Portfolio._apply_fill p1 d2 sym SELL q px2 c2 pr2 in
  shares_of p2 sym = shares_of p sym /\
  (forall other, other <> sym ->
                 Portfolio.positions p2 !! other = Portfolio.positions p !! other) /\
  Portfolio.cash p2 == Portfolio.cash p + inject_Z q * (px2 - px1) - c1 - c2 /\
  (shares_of p sym = 0%Z -> avg_cost_of p2 sym = 0) /\
  length (Portfolio.fills p2) = S (S (length (Portfolio.fills p))) /\
  exists f1 f2,
    Portfolio.fills p2 = Portfolio.fills p ++ [f1; f2] /\
    Row.of_fill f1 = Row.mk d1 sym BUY q px1 c1 /\
    Row.of_fill f2 = Row.mk d2 sym SELL q px2 c2.
Proof.
  intros p1 p2. split; [|split; [|split; [|split; [|split]]]].
  - unfold p2, p1. rewrite !apply_fill_shares. lia.
  - intros other Hne. unfold p2, p1, Portfolio._apply_fill. simpl.
    rewrite !lookup_insert_ne by congruence. reflexivity.
  - unfold p2, p1, Portfolio._apply_fill. simpl. ring.
  - intros Hflat.
    assert (H2 : shares_of p2 sym = 0%Z).
    { unfold p2, p1. rewrite !apply_fill_shares. lia. }
    unfold avg_cost_of, shares_of in *. unfold p2 in *.
    unfold Portfolio._apply_fill at 1. unfold Portfolio._apply_fill at 1 in H2.
    simpl in *. rewrite lookup_insert_eq in *. simpl in *.
    rewrite decide_True by exact H2. reflexivity.
  - unfold p2, p1, Portfolio._apply_fill. simpl. rewrite !length_app. simpl. lia.
  - unfold p2, p1, Portfolio._apply_fill. simpl. rewrite <- app_assoc. simpl.
    eexists _, _. split; [reflexivity|]. split; reflexivity.
Qed.

(** X3. In exact arithmetic (floats as exact rationals), buying [q > 0]
    more shares of a symbol held long (or flat) makes its average cost the
    size-weighted blend of the old cost and the fill price: the new cost
    times the new share count is the old cost times the old count plus the
    notional, so the new cost lies between the old cost and the price, and
    from flat it is the price.  In binary64 the blend is rounded and can
    leave that interval by an ulp: a cost of 0.1 over 1 share and a BUY of
    2 at 0.1 give 0.10000000000000002. *)
Theorem buy_blends_avg_cost (p : Portfolio.t) (date : Z) (sym : string)
    (q : Z) (price commission : Q) (prices_now : gmap string Q) :
  (0 <= shares_of p sym)%Z -> (0 < q)%Z ->
  let p' := Portfolio._apply_fill p date sym BUY q price commission prices_now in
  avg_cost_of p' sym * inject_Z (shares_of p' sym)
  == avg_cost_of p sym * inject_Z (shares_of p sym) + inject_Z q * price /\
  Qmin (avg_cost_of p sym) price <= avg_cost_of p' sym /\
  avg_cost_of p' sym <= Qmax (avg_cost_of p sym) price /\
  (shares_of p sym = 0%Z -> avg_cost_of p' sym == price).
Proof.
  intros Hn Hq p'.
  assert (Hshares : shares_of p' sym = (shares_of p sym + q)%Z)
    by apply apply_fill_shares.
  assert (Hcost : avg_cost_of p' sym
                  = (avg_cost_of p sym * inject_Z (shares_of p sym)
                     + inject_Z q * price) / inject_Z (shares_of p sym + q)).
  { unfold avg_cost_of, shares_of, p', Portfolio._apply_fill. simpl.
    rewrite lookup_insert_eq. simpl.
    rewrite decide_False; [reflexivity|]. unfold shares_of in Hn. lia. }
  set (a := avg_cost_of p sym) in *. set (n := shares_of p sym) in *.
  assert (Hd : 0 < inject_Z (n + q)).
  { change 0 with (inject_Z 0). rewrite <- Zlt_Qlt. lia. }
  assert (Hn' : 0 <= inject_Z n) by (apply inject_Z_nonneg; lia).
  assert (Hq' : 0 < inject_Z q).
  { change 0 with (inject_Z 0). rewrite <- Zlt_Qlt. lia. }
  assert (Hsum : inject_Z (n + q) == inject_Z n + inject_Z q)
    by (rewrite inject_Z_plus; reflexivity).
  rewrite Hshares, Hcost.
  split; [field; lra|]. split; [|split].
  - apply Qle_shift_div_l; [exact Hd|]. rewrite Hsum.
    pose proof (Q.le_min_l a price). pose proof (Q.le_min_r a price).
    set (m := Qmin a price) in *.
    assert (m * inject_Z n <= a * inject_Z n)
      by (apply Qmult_le_compat_r; assumption).
    assert (m * inject_Z q <= price * inject_Z q)
      by (apply Qmult_le_compat_r; lra).
    lra.
  - apply Qle_shift_div_r; [exact Hd|]. rewrite Hsum.
    pose proof (Q.le_max_l a price). pose proof (Q.le_max_r a price).
    set (m := Qmax a price) in *.
    assert (a * inject_Z n <= m * inject_Z n)
      by (apply Qmult_le_compat_r; assumption).
    assert (price * inject_Z q <= m * inject_Z q)
      by (apply Qmult_le_compat_r; lra).
    lra.
  - intros Hflat. assert (Hn0 : n = 0%Z) by exact Hflat.
    rewrite Hn0, Z.add_0_l.
    assert (Hz : inject_Z 0 == 0) by reflexivity.
    rewrite Hz. field. lra.
Qed.

Lemma buy_blends_avg_cost_witness :
  let p := Portfolio._apply_fill (Portfolio.new 1000) 0 "AAA" BUY 10 50 0 ∅ in
  let p' := Portfolio._apply_fill p 1 "AAA" BUY 30 70 0 ∅ in
  (0 <= shares_of p "AAA")%Z /\ (0 < 30)%Z /\
  avg_cost_of p' "AAA" * inject_Z (shares_of p' "AAA")
  == avg_cost_of p "AAA" * inject_Z (shares_of p "AAA") + inject_Z 30 * 70.
Proof.
  intros p p'. split; [vm_compute; discriminate|]. split; [reflexivity|].
  apply (buy_blends_avg_cost p 1 "AAA" 30 70 0 ∅);
    [vm_compute; discriminate|reflexivity].
Defined.

(** ** [max_drawdown] *)

Lemma drawdown_from_bounds (l : list Q) :
  forall m, 0 < m -> Forall (fun x => 0 < x) l ->
            Forall (fun d => -1 < d /\ d <= 0) (drawdown_series_from m l).
Proof.
  induction l as [|x rest IH]; intros m Hm Hall; [constructor|].
  inversion_clear Hall as [|? ? Hx Hrest]. simpl.
  assert (HM : 0 < Qmax m x).
  { eapply Qlt_le_trans; [exact Hm|apply Q.le_max_l]. }
  constructor; [|apply IH; assumption].
  split.
  - assert (0 < x / Qmax m x) by (apply Qlt_shift_div_l; lra). lra.
  - assert (x / Qmax m x <= 1).
    { apply Qle_shift_div_r; [exact HM|]. pose proof (Q.le_max_r m x). lra. }
    lra.
Qed.

Lemma foldl_Qmin_bounds (ds : list Q) :
  forall d, (-1 < d /\ d <= 0) ->
            Forall (fun d => -1 < d /\ d <= 0) ds ->
            -1 < foldl Qmin d ds /\ foldl Qmin d ds <= 0.
Proof.
  induction ds as [|e ds IH]; intros d Hd Hall; [exact Hd|].
  inversion_clear Hall as [|? ? He Hds]. simpl. apply IH; [|exact Hds].
  destruct (Q.min_spec d e) as [[_ ->]|[_ ->]]; assumption.
Qed.

(** Over the rationals, where no quotient is rounded, the lower bound is
    strict. *)
Lemma max_drawdown_above_full_loss (equity : list Q) :
  Forall (fun x => 0 < x) equity ->
  -1 < max_drawdown equity /\ max_drawdown equity <= 0.
Proof.
  intros Hall. unfold max_drawdown, drawdown_series.
  destruct equity as [|x rest]; [split; reflexivity || discriminate|].
  inversion_clear Hall as [|? ? Hx Hrest].
  apply foldl_Qmin_bounds.
  - assert (x / x == 1) by (field; lra). lra.
  - apply drawdown_from_bounds; assumption.
Qed.

(** X4. On a series of positive equity values the maximum drawdown is a
    fraction in [-1, 0]: never positive, and never more than a full
    loss.  The lower bound is not strict: in binary64
    [equity / roll_max - 1.0] rounds to exactly -1.0 once the value is
    small enough against its running maximum. *)
Theorem max_drawdown_bounds (equity : list Q) :
  Forall (fun x => 0 < x) equity ->
  -1 <= max_drawdown equity /\ max_drawdown equity <= 0.
Proof.
  intros Hall.
  destruct (max_drawdown_above_full_loss equity Hall) as [Hlo Hhi].
  split; [apply Qlt_le_weak, Hlo|exact Hhi].
Qed.

Lemma max_drawdown_bounds_witness :
  Forall (fun x => 0 < x) [100; 80; 120] /\
  -1 <= max_drawdown [100; 80; 120] /\ max_drawdown [100; 80; 120] <= 0.
Proof.
  assert (H : Forall (fun x => 0 < x) [100; 80; 120])
    by (repeat constructor).
  split; [exact H|]. apply (max_drawdown_bounds [100; 80; 120] H).
Defined.

Lemma drawdown_from_nondecreasing (l : list Q) :
  forall m, 0 < m -> Forall (fun x => m <= x) l -> StronglySorted Qle l ->
            Forall (fun d => d == 0) (drawdown_series_from m l).
Proof.
  induction l as [|x rest IH]; intros m Hm Hall Hsorted; [constructor|].
  inversion_clear Hall as [|? ? Hx Hrest].
  inversion_clear Hsorted as [|? ? Hs Hle]. simpl.
  assert (HM : Qmax m x == x) by (apply Q.max_r; exact Hx).
  constructor.
  - rewrite HM. field. lra.
  - apply IH; [| |exact Hs].
    + rewrite HM. lra.
    + eapply Forall_impl; [exact Hle|]. intros y Hy. simpl in Hy.
      rewrite HM. exact Hy.
Qed.

Lemma foldl_Qmin_zero (ds : list Q) :
  forall d, d == 0 -> Forall (fun d => d == 0) ds -> foldl Qmin d ds == 0.
Proof.
  induction ds as [|e ds IH]; intros d Hd Hall; [exact Hd|].
  inversion_clear Hall as [|? ? He Hds]. simpl. apply IH; [|exact Hds].
  destruct (Q.min_spec d e) as [[_ ->]|[_ ->]]; assumption.
Qed.

(** X5. A positive equity series that never falls has no drawdown. *)
Theorem max_drawdown_nondecreasing (equity : list Q) :
  Forall (fun x => 0 < x) equity ->
  StronglySorted Qle equity ->
  max_drawdown equity == 0.
Proof.
  intros Hall Hsorted. unfold max_drawdown, drawdown_series.
  destruct equity as [|x rest]; [reflexivity|].
  inversion_clear Hall as [|? ? Hx Hrest].
  inversion_clear Hsorted as [|? ? Hs Hle].
  apply foldl_Qmin_zero.
  - field. lra.
  - apply drawdown_from_nondecreasing; assumption.
Qed.

Lemma max_drawdown_nondecreasing_witness :
  Forall (fun x => 0 < x) [100; 100; 120] /\
  StronglySorted Qle [100; 100; 120] /\
  max_drawdown [100; 100; 120] == 0.
Proof.
  assert (H : Forall (fun x => 0 < x) [100; 100; 120])
    by (repeat constructor).
  assert (Hs : StronglySorted Qle [100; 100; 120])
    by (repeat constructor; discriminate).
  split; [exact H|]. split; [exact Hs|].
  apply (max_drawdown_nondecreasing [100; 100; 120] H Hs).
Defined.

(** ** [trade_statistics] *)

Lemma foldl_Qplus_acc (l : list Q) : forall a, foldl Qplus a l == a + Qsum l.
Proof.
  unfold Qsum. induction l as [|x l IH]; intros a; simpl.
  - ring.
  - rewrite IH, (IH (0 + x)). ring.
Qed.

Lemma Qsum_cons (x : Q) (l : list Q) : Qsum (x :: l) == x + Qsum l.
Proof. unfold Qsum at 1. simpl. rewrite foldl_Qplus_acc. ring. Qed.

Lemma Qsum_nonneg (l : list Q) : Forall (fun x => 0 <= x) l -> 0 <= Qsum l.
Proof.
  induction 1 as [|x l Hx _ IH]; [unfold Qsum; simpl; lra|].
  rewrite Qsum_cons. lra.
Qed.

Lemma wins_positive (pnls : list Q) :
  Forall (fun x => 0 <= x) (List.filter is_positive pnls).
Proof.
  induction pnls as [|x l IH]; simpl; [constructor|].
  unfold is_positive at 1. destruct (Qlt_le_dec 0 x); [|exact IH].
  constructor; [lra|exact IH].
Qed.

Lemma losses_positive (pnls : list Q) :
  Forall (fun x => 0 <= x) (map Qopp (List.filter is_negative pnls)).
Proof.
  induction pnls as [|x l IH]; simpl; [constructor|].
  unfold is_negative at 1. destruct (Qlt_le_dec x 0); [|exact IH].
  simpl. constructor; [lra|exact IH].
Qed.

Lemma wins_minus_losses (pnls : list Q) :
  Qsum (List.filter is_positive pnls)
  - Qsum (map Qopp (List.filter is_negative pnls)) == Qsum pnls.
Proof.
  induction pnls as [|x l IH]; [reflexivity|].
  simpl. unfold is_positive at 1, is_negative at 1.
  destruct (Qlt_le_dec 0 x) as [Hp|Hp], (Qlt_le_dec x 0) as [Hn|Hn];
    simpl; rewrite ?Qsum_cons; try lra.
Qed.

Lemma match_Qsum (l : list Q) :
  match l with [] => 0 | _ => Qsum l end = Qsum l.
Proof. destruct l; reflexivity. Qed.

Lemma trade_statistics_nonempty (trades : list Trade.t) :
  trades <> [] ->
  let pnls := map Trade.pnl trades in
  let wins := List.filter is_positive pnls in
  let losses := map Qopp (List.filter is_negative pnls) in
  let num := inject_Z (Z.of_nat (length trades)) in
  trade_statistics trades =
  Stats.mk num (100 * inject_Z (Z.of_nat (length wins)) / num)
    (if Qlt_le_dec 0 (Qsum losses) then Finite (Qsum wins / Qsum losses)
     else if Qlt_le_dec 0 (Qsum wins) then PlusInfinity else Finite 0)
    (Qsum (map (fun t => inject_Z (Trade.duration_days t)) trades) / num)
    (Qsum wins) (Qsum losses).
Proof.
  intros Hne. destruct trades as [|t0 rest]; [contradiction|].
  cbv zeta. unfold trade_statistics. rewrite !match_Qsum. reflexivity.
Qed.

(** X6. Whatever the trades: the count is their number, the win rate is
    a percentage in [0, 100], gross profit and gross loss are
    non-negative and differ by the total pnl, and the profit factor is
    [+inf] only when there are profits and no loss, otherwise a
    non-negative ratio [q] with [q * gross_loss = gross_profit]. *)
Theorem trade_statistics_sound (trades : list Trade.t) :
  let s := trade_statistics trades in
  Stats.num_trades s == inject_Z (Z.of_nat (length trades)) /\
  0 <= Stats.win_rate s <= 100 /\
  0 <= Stats.gross_profit s /\
  0 <= Stats.gross_loss s /\
  Stats.gross_profit s - Stats.gross_loss s == Qsum (map Trade.pnl trades) /\
  match Stats.profit_factor s with
  | PlusInfinity => Stats.gross_loss s == 0 /\ 0 < Stats.gross_profit s
  | Finite q => 0 <= q /\ q * Stats.gross_loss s == Stats.gross_profit s
  end.
Proof.
  destruct (decide (trades = [])) as [->|Hne].
  { simpl. repeat split; try reflexivity; discriminate. }
  cbv zeta. rewrite (trade_statistics_nonempty trades Hne).
  cbn [Stats.num_trades Stats.win_rate Stats.gross_profit Stats.gross_loss
       Stats.profit_factor].
  set (pnls := map Trade.pnl trades).
  set (gp := Qsum (List.filter is_positive pnls)).
  set (gl := Qsum (map Qopp (List.filter is_negative pnls))).
  set (num := inject_Z (Z.of_nat (length trades))).
  assert (Hnum : 0 < num).
  { unfold num. change 0 with (inject_Z 0). rewrite <- Zlt_Qlt.
    destruct trades; [contradiction|]. simpl. lia. }
  assert (Hgp : 0 <= gp) by apply Qsum_nonneg, wins_positive.
  assert (Hgl : 0 <= gl) by apply Qsum_nonneg, losses_positive.
  assert (Hw : 0 <= inject_Z (Z.of_nat (length (List.filter is_positive pnls)))
               <= num).
  { split; [apply inject_Z_nonneg; lia|].
    unfold num. rewrite <- Zle_Qle. apply inj_le.
    pose proof (List.filter_length_le is_positive pnls) as Hle.
    unfold pnls in Hle at 2. rewrite length_map in Hle. exact Hle. }
  destruct Hw as [Hw0 Hw1].
  split; [reflexivity|]. split; [|split; [exact Hgp|split; [exact Hgl|split]]].
  - split.
    + apply Qle_shift_div_l; [exact Hnum|]. lra.
    + apply Qle_shift_div_r; [exact Hnum|]. lra.
  - apply wins_minus_losses.
  - destruct (Qlt_le_dec 0 gl) as [Hl|Hl].
    + split.
      * apply Qle_shift_div_l; [exact Hl|]. lra.
      * field. lra.
    + destruct (Qlt_le_dec 0 gp) as [Hp|Hp].
      * split; [lra|exact Hp].
      * split; [lra|]. assert (gp == 0) by lra. assert (gl == 0) by lra.
        rewrite H, H0. ring.
Qed.

(** ** The calendar of [__init__] *)

Lemma common_index_spec (frames : list frame) :
  forall idx0 : gset Z,
    exists idx, common_index frames (Some idx0) = Some idx /\
                forall dt, dt ∈ idx <-> dt ∈ idx0 /\ forall df, df ∈ frames -> dt ∈ dom df.
Proof.
  induction frames as [|df rest IH]; intros idx0; simpl.
  - exists idx0. split; [reflexivity|]. intros dt. split; [|tauto].
    intros H. split; [exact H|]. intros df Hdf. apply elem_of_nil in Hdf. contradiction.
  - destruct (IH (idx0 ∩ dom df)) as (idx & Heq & Hspec).
    exists idx. split; [exact Heq|]. intros dt. rewrite Hspec, elem_of_intersection.
    split.
    + intros [[H0 Hdf] Hrest]. split; [exact H0|].
      intros df' Hin. apply elem_of_cons in Hin as [->|Hin]; auto.
    + intros [H0 Hall]. split; [split; [exact H0|]|].
      * apply Hall. left.
      * intros df' Hin. apply Hall. right. exact Hin.
Qed.

Lemma sorted_le_nodup_lt (l : list Z) :
  StronglySorted Z.le l -> NoDup l -> StronglySorted Z.lt l.
Proof.
  induction 1 as [|x l Hs IH Hall]; intros Hnd; [constructor|].
  apply NoDup_cons in Hnd as [Hx Hnd].
  constructor; [apply IH, Hnd|].
  rewrite Forall_forall in *. intros y Hy.
  specialize (Hall y Hy). assert (x <> y) by (intros ->; contradiction). lia.
Qed.

Lemma Backtester_init_cases (d : dataset) (strat : Strategy) (capital : Q)
    (c : Costs.t) (shorts : bool) :
  match Backtester_init d strat capital c shorts with
  | inl e => e = AttributeError /\ d = []
  | inr bt =>
      d <> [] /\ data bt = d /\
      StronglySorted Z.lt (calendar bt) /\
      forall dt, dt ∈ calendar bt <-> has_bars d dt
  end.
Proof.
  unfold Backtester_init, make_calendar.
  destruct d as [|[sym0 df0] rest]; [simpl; auto|].
  simpl map. simpl common_index.
  destruct (common_index_spec (map snd rest) (dom df0)) as (idx & -> & Hspec).
  simpl. split; [discriminate|]. split; [reflexivity|]. split.
  - apply sorted_le_nodup_lt.
    + apply StronglySorted_merge_sort.
      * intros x y z. apply Z.le_trans.
      * intros x y. apply Z.le_ge_cases.
    + rewrite merge_sort_Permutation. apply NoDup_elements.
  - intros dt. rewrite merge_sort_Permutation, elem_of_elements, Hspec.
    unfold has_bars. split.
    + intros [H0 Hall] sym df Hin. apply elem_of_dom.
      apply elem_of_cons in Hin as [[= -> ->]|Hin]; [exact H0|].
      apply Hall. apply (list_elem_of_fmap_2 snd) in Hin. exact Hin.
    + intros Hall. split.
      * apply elem_of_dom, (Hall sym0). left.
      * intros df Hin. apply list_elem_of_fmap in Hin as ([sym df'] & -> & Hin).
        apply elem_of_dom, (Hall sym). right. exact Hin.
Qed.

(** ** Runs whose calendar dates all have bars: the exceptions told apart *)

Lemma wpx_ret {A} (a : A) Q E s : wpx (ret a) Q E s <-> Q a s.
Proof. reflexivity. Qed.

Lemma wpx_raise {A} e (Q : A -> state -> Prop) E s : wpx (raise e) Q E s <-> E e s.
Proof. reflexivity. Qed.

Lemma wpx_get Q E s : wpx get Q E s <-> Q s s.
Proof. reflexivity. Qed.

Lemma wpx_modify f Q E s : wpx (modify f) Q E s <-> Q tt (f s).
Proof. reflexivity. Qed.

Lemma wpx_bind {A B} (m : M A) (k : A -> M B) Q E s :
  wpx (bind m k) Q E s <-> wpx m (fun a => wpx (k a) Q E) E s.
Proof. unfold wpx, bind. destruct (m s) as [[e|a] s']; reflexivity. Qed.

Lemma wpx_lift {A} (r : exn + A) Q E s :
  wpx (lift r) Q E s <-> match r with inl e => E e s | inr a => Q a s end.
Proof. destruct r; reflexivity. Qed.

Lemma wpx_mono {A} (m : M A) (Q Q' : A -> state -> Prop)
    (E E' : exn -> state -> Prop) s :
  wpx m Q E s ->
  (forall a s', Q a s' -> Q' a s') ->
  (forall e s', E e s' -> E' e s') ->
  wpx m Q' E' s.
Proof.
  unfold wpx. destruct (m s) as [[e|a] s']; intros H HQ HE; auto.
Qed.

Ltac wpx_step :=
  first
    [ rewrite wpx_bind
    | rewrite wpx_ret
    | rewrite wpx_raise
    | rewrite wpx_get
    | rewrite wpx_modify
    | rewrite wpx_lift ].
Ltac wpx_steps := repeat wpx_step.

Lemma wpx_for_each {A} (I : list A -> state -> Prop) (body : A -> M unit)
    (E : exn -> state -> Prop) :
  forall (todo seen : list A) (s : state),
    I seen s ->
    (forall pre x post s0, seen ++ todo = pre ++ x :: post ->
       length seen <= length pre ->
       I pre s0 -> wpx (body x) (fun _ s1 => I (pre ++ [x]) s1) E s0)%nat ->
    wpx (for_each todo body) (fun _ s' => I (seen ++ todo) s') E s.
Proof.
  induction todo as [|x todo IH]; intros seen s HI Hbody.
  - simpl. rewrite wpx_ret, app_nil_r. exact HI.
  - simpl. rewrite wpx_bind.
    eapply wpx_mono; [apply (Hbody seen x todo s eq_refl (le_n _) HI) | | auto].
    intros [] s1 HI1. simpl in *.
    replace (seen ++ x :: todo) with ((seen ++ [x]) ++ todo)
      by (rewrite <- app_assoc; reflexivity).
    apply IH; [exact HI1|].
    intros pre y post s0 Heq Hlen HIpre.
    apply (Hbody pre y post s0); [rewrite <- Heq, <- app_assoc; reflexivity | | exact HIpre].
    rewrite length_app in Hlen. simpl in Hlen. lia.
Qed.

Lemma has_bars_tail x d dt : has_bars (x :: d) dt -> has_bars d dt.
Proof. intros H sym df Hin. apply (H sym df). right. exact Hin. Qed.

(** With a bar in every frame the mark cannot fail. *)
Lemma market_value_total (d : dataset) (dt : Z) (pos : gmap string Z) :
  has_bars d dt -> forall mv0, exists mv, market_value pos dt d mv0 = inr mv.
Proof.
  induction d as [|[sym df] rest IH]; intros Hb mv0; simpl; [eauto|].
  destruct (Hb sym df) as [bar Hbar]; [left|].
  rewrite Hbar. apply IH. eapply has_bars_tail, Hb.
Qed.

Lemma loc_total (d : dataset) (sym : string) (dt : Z) :
  has_bars d dt -> sym ∈ symbols d -> exists bar, loc d sym dt = inr bar.
Proof.
  intros Hb Hin. unfold loc.
  destruct ((list_to_map d : gmap string frame) !! sym) as [df|] eqn:Hdf.
  - apply elem_of_list_to_map_2 in Hdf. destruct (Hb sym df Hdf) as [bar ->]. eauto.
  - apply not_elem_of_list_to_map in Hdf. contradiction.
Qed.

Lemma floordiv_raises a b e : floordiv a b = inl e -> e = ZeroDivisionError /\ b == 0.
Proof.
  unfold floordiv. destruct (Qeq_dec b 0); [|discriminate].
  intros [= <-]. auto.
Qed.

Lemma affordable_raises bt c price e :
  affordable bt c price = inl e ->
  e = ZeroDivisionError /\ price * (1 + Costs.commission_rate (costs bt)) == 0.
Proof.
  unfold affordable. destruct (floordiv _ _) eqn:Hf; [|discriminate].
  intros [= <-]. eapply floordiv_raises, Hf.
Qed.

Lemma close_order_raises bt open_px cur_qty c e :
  close_order bt open_px cur_qty c = inl e ->
  e = ZeroDivisionError /\
  _exec_price bt BUY open_px * (1 + Costs.commission_rate (costs bt)) == 0.
Proof.
  unfold close_order. destruct (decide _); [discriminate|].
  destruct (affordable _ _ _) eqn:Ha; [|discriminate].
  intros [= <-]. eapply affordable_raises, Ha.
Qed.

Lemma entry_order_raises bt target open_px c e :
  entry_order bt target open_px c = inl e ->
  e = ZeroDivisionError /\
  (_exec_price bt (if decide (0 < target)%Z then BUY else SELL) open_px == 0 \/
   _exec_price bt BUY open_px * (1 + Costs.commission_rate (costs bt)) == 0).
Proof.
  unfold entry_order. destruct (floordiv _ _) eqn:Hf.
  - intros [= <-]. apply floordiv_raises in Hf as [-> Hz]. auto.
  - destruct (decide (_ <= 0)%Z); [discriminate|].
    destruct (decide (0 < target)%Z); [|discriminate].
    destruct (affordable _ _ _) eqn:Ha; [|destruct (decide _); discriminate].
    intros [= <-]. apply affordable_raises in Ha as [-> Hz]. auto.
Qed.

Lemma wpx_mark_to_market bt dt (Post : Q -> state -> Prop) E s :
  has_bars (data bt) dt ->
  (forall mv, market_value (positions s) dt (data bt) 0 = inr mv ->
              Post (cash s + mv) s) ->
  wpx (_mark_to_market bt dt) Post E s.
Proof.
  intros Hb HQ. unfold _mark_to_market. wpx_steps.
  destruct (market_value_total _ _ (positions s) Hb 0) as [mv Hmv].
  rewrite Hmv. wpx_steps. apply HQ, Hmv.
Qed.

Lemma wpx_max_afford bt price Post E s :
  match affordable bt (cash s) price with
  | inl e => E e s
  | inr q => Post q s
  end ->
  wpx (max_afford bt price) Post E s.
Proof.
  unfold max_afford, affordable. wpx_steps.
  destruct (floordiv _ _); wpx_steps; auto.
Qed.

Lemma wpx_book bt dt next_dt sym (o : order) (Post : state -> Prop) E s :
  has_bars (data bt) dt ->
  vcx_order bt dt next_dt sym (inr (Some o)) Post E s ->
  wpx (book bt dt next_dt sym (o_side o) (o_qty o) (o_price o) (o_new_pos o))
      (fun _ => Post) E s.
Proof.
  intros Hb HQ. unfold book. wpx_steps.
  apply wpx_mark_to_market; [exact Hb|].
  intros mv Hmv. wpx_steps.
  destruct o as [side qty price new_pos]. apply (HQ mv Hmv).
Qed.

Lemma wpx_close_leg bt dt next_dt sym open_px cur_qty (Post : state -> Prop) E s :
  has_bars (data bt) dt ->
  match close_order bt open_px cur_qty (cash s) with
  | inl e => E e s
  | inr o => vcx_order bt dt next_dt sym (inr (Some o)) Post E s
  end ->
  wpx (close_leg bt dt next_dt sym open_px cur_qty) (fun _ => Post) E s.
Proof.
  intros Hb. unfold close_leg, close_order.
  destruct (decide (0 < cur_qty)%Z) as [Hpos|Hneg].
  - intros HQ. wpx_steps.
    apply (wpx_book bt dt next_dt sym (mkOrder SELL _ _ _)); assumption.
  - intros H. wpx_steps. apply wpx_max_afford.
    destruct (affordable _ _ _) as [e|afford]; [exact H|]. wpx_steps.
    apply (wpx_book bt dt next_dt sym (mkOrder BUY _ _ _)); assumption.
Qed.

Lemma wpx_entry_leg bt dt next_dt sym target open_px (Post : state -> Prop) E s :
  has_bars (data bt) dt ->
  vcx_order bt dt next_dt sym (entry_order bt target open_px (cash s)) Post E s ->
  wpx (entry_leg bt dt next_dt sym target open_px) (fun _ => Post) E s.
Proof.
  intros Hb. unfold entry_leg, entry_order, vcx_order.
  wpx_steps. destruct (floordiv _ _) as [e|shares]; [auto|].
  destruct (decide (shares <= 0)%Z); [wpx_steps; auto|].
  destruct (decide (0 < target)%Z).
  - intros H. wpx_steps. apply wpx_max_afford.
    destruct (affordable _ _ _) as [e|afford]; [exact H|].
    destruct (decide (Z.min shares afford = 0%Z)); [wpx_steps; auto|].
    apply (wpx_book bt dt next_dt sym (mkOrder BUY _ _ _)); assumption.
  - intros H.
    apply (wpx_book bt dt next_dt sym (mkOrder SELL _ _ _)); assumption.
Qed.

Lemma wpx_process_symbol bt dt next_dt sym (Post : state -> Prop) E s :
  has_bars (data bt) dt ->
  let target := target_of bt sym dt in
  (target = getd (prev_target s) sym -> Post s) ->
  (target <> getd (prev_target s) sym ->
   match loc (data bt) sym next_dt with
   | inl e => E e s
   | inr bar => vcx_turn bt dt next_dt sym target (Bar.Open bar) Post E s
   end) ->
  wpx (process_symbol bt dt next_dt sym) (fun _ => Post) E s.
Proof.
  intros Hb target Hsame Hchg.
  unfold process_symbol. fold target. wpx_steps.
  destruct (decide (target = getd (prev_target s) sym)) as [Heq|Hne].
  { wpx_steps. auto. }
  specialize (Hchg Hne). wpx_steps.
  destruct (loc (data bt) sym next_dt) as [e|bar]; [exact Hchg|].
  assert (Henter : forall s1,
    vcx_enter bt dt next_dt sym target (Bar.Open bar) Post E s1 ->
    wpx (s1' <- get ;;
         (if decide (target <> 0%Z /\ getd (positions s1') sym = 0%Z)
          then entry_leg bt dt next_dt sym target (Bar.Open bar)
          else ret tt) ;;;
         modify (set_prev_target sym target)) (fun _ => Post) E s1).
  { clear Hchg Hsame. intros s1 H. unfold vcx_enter in H. wpx_steps.
    destruct (decide (target <> 0%Z /\ getd (positions s1) sym = 0%Z)).
    - eapply wpx_mono; [apply wpx_entry_leg; [exact Hb|exact H]| |auto].
      intros [] s2 H2. wpx_steps. exact H2.
    - wpx_steps. exact H. }
  unfold vcx_turn in Hchg. cbv zeta in Hchg. rewrite wpx_bind.
  set (cur_qty := getd (positions s) sym) in *.
  destruct (decide (cur_qty <> 0%Z /\ target = 0%Z)) as [Hc1|Hc1].
  - rewrite decide_True in Hchg by tauto.
    eapply wpx_mono; [apply wpx_close_leg; [exact Hb|exact Hchg]| |auto].
    intros [] s1 H1. apply Henter, H1.
  - destruct (decide (cur_qty <> 0%Z /\ target <> 0%Z /\
                      ((0 < target /\ cur_qty < 0) \/ (target < 0 /\ 0 < cur_qty))%Z))
      as [Hc2|Hc2].
    + rewrite decide_True in Hchg by tauto.
      eapply wpx_mono; [apply wpx_close_leg; [exact Hb|exact Hchg]| |auto].
      intros [] s1 H1. apply Henter, H1.
    + rewrite decide_False in Hchg by lia.
      rewrite wpx_ret. apply Henter, Hchg.
Qed.

(** How to establish the conditions of a turn: an invariant [I] of the
    states between the blocks, kept by every booking, with [E] wherever
    the sizing raises and [Post] after the final store. *)
Lemma vcx_turn_intro bt dt next_dt sym target open_px (Post : state -> Prop)
    (E : exn -> state -> Prop) (I : state -> Prop) s :
  I s ->
  (forall s1, I s1 -> Post (set_prev_target sym target s1)) ->
  (forall e, getd (positions s) sym <> 0%Z ->
     close_order bt open_px (getd (positions s) sym) (cash s) = inl e -> E e s) ->
  (forall o mv, getd (positions s) sym <> 0%Z ->
     close_order bt open_px (getd (positions s) sym) (cash s) = inr o ->
     market_value (positions (booked bt sym o s)) dt (data bt) 0 = inr mv ->
     I (append_fill (fill_of_order bt next_dt sym o (cash s)
                                   (cash (booked bt sym o s) + mv))
                    (booked bt sym o s))) ->
  (forall s1 e, I s1 -> target <> 0%Z -> getd (positions s1) sym = 0%Z ->
     entry_order bt target open_px (cash s1) = inl e -> E e s1) ->
  (forall s1 o mv, I s1 -> target <> 0%Z -> getd (positions s1) sym = 0%Z ->
     entry_order bt target open_px (cash s1) = inr (Some o) ->
     market_value (positions (booked bt sym o s1)) dt (data bt) 0 = inr mv ->
     I (append_fill (fill_of_order bt next_dt sym o (cash s1)
                                   (cash (booked bt sym o s1) + mv))
                    (booked bt sym o s1))) ->
  vcx_turn bt dt next_dt sym target open_px Post E s.
Proof.
  intros HI HQ Hcraise Hclose Heraise Hentry.
  assert (Henter : forall s1, I s1 ->
            vcx_enter bt dt next_dt sym target open_px Post E s1).
  { intros s1 HI1. unfold vcx_enter. destruct (decide _) as [[Ht Hp]|]; [|auto].
    unfold vcx_order.
    destruct (entry_order _ _ _ _) as [e|[o|]] eqn:Heo; eauto. }
  unfold vcx_turn. cbv zeta.
  destruct (decide _) as [[Hcur _]|]; [|auto].
  pose proof (fun e => Hcraise e Hcur) as Hr. pose proof (fun o mv => Hclose o mv Hcur) as Hc.
  clear Hcraise Hclose.
  destruct (close_order _ _ _ _) as [e|o]; [auto|].
  simpl. intros mv Hmv. apply Henter. apply (Hc o mv eq_refl Hmv).
Qed.

Lemma wpx_run_day bt dt next_dt (Post : state -> Prop) (E : exn -> state -> Prop) s :
  has_bars (data bt) dt ->
  wpx (for_each (symbols (data bt)) (process_symbol bt dt next_dt))
      (fun _ s1 =>
         forall mv, market_value (positions s1) dt (data bt) 0 = inr mv ->
                    Post (append_equity (dt, cash s1 + mv) s1))
      E s ->
  wpx (run_day bt dt next_dt) (fun _ => Post) E s.
Proof.
  intros Hb H. unfold run_day. rewrite wpx_bind.
  eapply wpx_mono; [exact H| |auto].
  intros [] s1 HQ. simpl. rewrite wpx_bind.
  apply wpx_mark_to_market; [exact Hb|].
  intros mv Hmv. rewrite wpx_modify. apply HQ, Hmv.
Qed.

Lemma run_before_invx bt (D : nat -> state -> Prop) (E : exn -> state -> Prop) :
  D O (init_state bt) ->
  (forall i dt next_dt s,
      calendar bt !! i = Some dt -> calendar bt !! S i = Some next_dt ->
      D i s -> wpx (run_day bt dt next_dt) (fun _ => D (S i)) E s) ->
  forall i,
    match run_before bt i with
    | (inr _, s) => D (Nat.min i (pred (length (calendar bt)))) s
    | (inl e, s) => E e s
    end.
Proof.
  intros H0 Hstep. induction i as [|i IH].
  - unfold run_before. simpl.
    destruct (calendar bt) as [|d [|d' rest]]; simpl; exact H0.
  - destruct (decide (S i < length (calendar bt))%nat) as [Hlt|Hge].
    + destruct (lookup_lt_is_Some_2 (calendar bt) i) as [dt Hdt]; [lia|].
      destruct (lookup_lt_is_Some_2 (calendar bt) (S i)) as [nx Hnx]; [lia|].
      rewrite (run_before_S _ _ _ _ Hdt Hnx).
      destruct (run_before bt i) as [[e|[]] s]; [exact IH|].
      rewrite Nat.min_l in IH by lia.
      specialize (Hstep i dt nx s Hdt Hnx IH). unfold wpx in Hstep.
      rewrite Nat.min_l by lia. exact Hstep.
    + rewrite run_before_end by lia.
      replace (Nat.min (S i) (pred (length (calendar bt))))
        with (Nat.min i (pred (length (calendar bt)))) by lia.
      exact IH.
Qed.

(** [run] from the initial state, spelled out: the day loop, the failing
    [dates[-1]] of an empty calendar, the closing mark. *)
Lemma run_unfold bt :
  run bt (init_state bt) =
  match run_before bt (pred (length (calendar bt))) with
  | (inl e, s) => (inl e, s)
  | (inr _, s) =>
      match last (calendar bt) with
      | None => (inl IndexError, s)
      | Some last_dt =>
          match market_value (positions s) last_dt (data bt) 0 with
          | inl e => (inl e, s)
          | inr mv =>
              (inr (equity_curve s ++ [(last_dt, cash s + mv)]),
               append_equity (last_dt, cash s + mv) s)
          end
      end
  end.
Proof.
  unfold run_before, run. rewrite firstn_all2 by lia. unfold bind.
  destruct (day_loop bt (calendar bt) (init_state bt)) as [[e|[]] s]; [reflexivity|].
  destruct (last (calendar bt)); [|reflexivity].
  unfold _mark_to_market, bind, get, lift.
  destruct (market_value _ _ _ _); reflexivity.
Qed.

(** A generic invariant of the turns of a run on a good calendar. *)
Lemma run_day_invx bt dt next_dt (I : state -> Prop) (E : exn -> state -> Prop) s :
  has_bars (data bt) dt ->
  has_bars (data bt) next_dt ->
  (forall sym s0, sym ∈ symbols (data bt) -> I s0 ->
     wpx (process_symbol bt dt next_dt sym) (fun _ => I) E s0) ->
  I s ->
  wpx (run_day bt dt next_dt)
      (fun _ s' => exists s1 mv,
           I s1 /\ market_value (positions s1) dt (data bt) 0 = inr mv /\
           s' = append_equity (dt, cash s1 + mv) s1)
      E s.
Proof.
  intros Hb Hn Hturn HI. apply wpx_run_day; [exact Hb|].
  eapply wpx_mono.
  - apply (wpx_for_each (fun _ => I) _ E (symbols (data bt)) [] s HI).
    intros pre x post s0 Hsplit _ H0. simpl in Hsplit.
    apply Hturn; [|exact H0].
    rewrite Hsplit. apply elem_of_app. right. left.
  - intros [] s1 H1 mv Hmv. simpl in *. eauto.
  - auto.
Qed.

(** X7. [__init__] fails on an empty data dict (the index is still
    [None]); otherwise the calendar is strictly ascending and consists of
    exactly the days for which every frame has a row. *)
Theorem calendar_spec (d : dataset) (strat : Strategy) (capital : Q)
    (c : Costs.t) (shorts : bool) :
  match Backtester_init d strat capital c shorts with
  | inl e => e = AttributeError /\ d = []
  | inr bt =>
      d <> [] /\ data bt = d /\
      StronglySorted Z.lt (calendar bt) /\
      forall dt, dt ∈ calendar bt <-> has_bars d dt
  end.
Proof. apply Backtester_init_cases. Qed.

Lemma Backtester_init_ok d strat capital c shorts bt :
  Backtester_init d strat capital c shorts = inr bt ->
  calendar_ok bt /\ data bt = d /\ initial_capital bt = capital /\
  costs bt = c /\ allow_shorts bt = shorts /\
  per_symbol_budget bt
  = capital * (95 # 100) / inject_Z (Z.max 1 (Z.of_nat (length (symbols d)))).
Proof.
  intros Hinit.
  pose proof (Backtester_init_cases d strat capital c shorts) as Hc.
  rewrite Hinit in Hc. destruct Hc as (_ & Hd & _ & Hcal).
  split; [intros dt Hdt; rewrite Hd; apply Hcal, Hdt|].
  split; [exact Hd|].
  unfold Backtester_init in Hinit. destruct (make_calendar d); [discriminate|].
  injection Hinit as <-. simpl. auto.
Qed.

Lemma calendar_lookup_elem bt i dt : calendar bt !! i = Some dt -> dt ∈ calendar bt.
Proof. intros H. eapply list_elem_of_lookup_2, H. Qed.

(** An invariant of the turns is an invariant of the states the day loop
    reaches, when the marks leave it alone. *)
Lemma run_before_turns_inv bt (I : state -> Prop) (E : exn -> state -> Prop) :
  calendar_ok bt ->
  I (init_state bt) ->
  (forall dt next_dt sym s0,
      dt ∈ calendar bt -> next_dt ∈ calendar bt -> sym ∈ symbols (data bt) ->
      I s0 -> wpx (process_symbol bt dt next_dt sym) (fun _ => I) E s0) ->
  (forall s e, I s -> I (append_equity e s)) ->
  forall i,
    match run_before bt i with
    | (inr _, s) => I s
    | (inl e, s) => E e s
    end.
Proof.
  intros Hok H0 Hturn Hmark i.
  apply (run_before_invx bt (fun _ => I) E H0).
  intros j dt nx s Hdt Hnx HI.
  apply calendar_lookup_elem in Hdt, Hnx.
  eapply wpx_mono.
  - apply (run_day_invx bt dt nx I E s (Hok dt Hdt) (Hok nx Hnx)); [|exact HI].
    intros sym s0 Hsym H1. apply Hturn; assumption.
  - intros [] s' (s1 & mv & H1 & _ & ->). apply Hmark, H1.
  - auto.
Qed.

(** A turn leaves the equity curve alone and can raise nothing but
    [ZeroDivisionError]. *)
Lemma process_symbol_curve bt dt next_dt sym s :
  has_bars (data bt) dt -> has_bars (data bt) next_dt ->
  sym ∈ symbols (data bt) ->
  wpx (process_symbol bt dt next_dt sym)
      (fun _ s' => equity_curve s' = equity_curve s)
      (fun e s' => e = ZeroDivisionError /\ equity_curve s' = equity_curve s)
      s.
Proof.
  intros Hb Hn Hsym. apply wpx_process_symbol; [exact Hb|reflexivity|].
  intros _. destruct (loc_total _ _ _ Hn Hsym) as [bar ->].
  apply (vcx_turn_intro _ _ _ _ _ _ _ _
           (fun s1 => equity_curve s1 = equity_curve s)); auto.
  - intros e _ He. apply close_order_raises in He as [-> _]. auto.
  - intros s1 e H1 _ _ He. apply entry_order_raises in He as [-> _]. auto.
Qed.

Lemma take_pred_last {A} (l : list A) x :
  last l = Some x -> firstn (pred (length l)) l ++ [x] = l.
Proof.
  intros H. apply last_Some in H as [l' ->].
  rewrite length_app. simpl.
  replace (pred (length l' + 1)) with (length l') by lia.
  rewrite take_app_length. reflexivity.
Qed.

Lemma run_day_curve bt i dt next_dt s :
  calendar_ok bt ->
  calendar bt !! i = Some dt -> calendar bt !! S i = Some next_dt ->
  map fst (equity_curve s) = firstn i (calendar bt) ->
  wpx (run_day bt dt next_dt)
      (fun _ s' => map fst (equity_curve s') = firstn (S i) (calendar bt))
      (fun e _ => e = ZeroDivisionError) s.
Proof.
  intros Hok Hdt Hnx Hcurve.
  pose proof (Hok dt (calendar_lookup_elem _ _ _ Hdt)) as Hd.
  pose proof (Hok next_dt (calendar_lookup_elem _ _ _ Hnx)) as Hn.
  eapply wpx_mono.
  - apply (run_day_invx bt dt next_dt
             (fun s1 => equity_curve s1 = equity_curve s)
             (fun e _ => e = ZeroDivisionError) s Hd Hn); [|reflexivity].
    intros sym s0 Hsym H0.
    eapply wpx_mono; [apply (process_symbol_curve bt dt next_dt sym s0 Hd Hn Hsym)| |].
    + intros [] s' Hs'. simpl in Hs'. congruence.
    + intros e s' [He _]. exact He.
  - intros [] s' (s1 & mv & H1 & _ & ->). simpl.
    rewrite map_app, H1, Hcurve, (firstn_S_lookup _ _ _ Hdt). reflexivity.
  - auto.
Qed.

(** What [run] can end in, on a calendar all of whose dates have bars. *)
Lemma run_outcome bt :
  calendar_ok bt ->
  match run bt (init_state bt) with
  | (inl e, s) => (e = IndexError /\ calendar bt = []) \/ e = ZeroDivisionError
  | (inr curve, s) =>
      curve = equity_curve s /\ map fst curve = calendar bt /\
      exists last_dt mv,
        last (calendar bt) = Some last_dt /\
        market_value (positions s) last_dt (data bt) 0 = inr mv /\
        last curve = Some (last_dt, cash s + mv)
  end.
Proof.
  intros Hok. rewrite run_unfold.
  pose proof (run_before_invx bt
    (fun i s => map fst (equity_curve s) = firstn i (calendar bt))
    (fun e _ => e = ZeroDivisionError) eq_refl
    (fun i dt nx s Hdt Hnx Hc => run_day_curve bt i dt nx s Hok Hdt Hnx Hc))
    as Hinv.
  specialize (Hinv (pred (length (calendar bt)))).
  rewrite Nat.min_id in Hinv.
  destruct (run_before bt _) as [[e|[]] s]; [auto|].
  destruct (last (calendar bt)) as [last_dt|] eqn:Hlast.
  - assert (Hin : last_dt ∈ calendar bt).
    { apply last_Some in Hlast as [l' ->]. apply elem_of_app. right. left. }
    destruct (market_value_total _ _ (positions s) (Hok _ Hin) 0) as [mv Hmv].
    rewrite Hmv. simpl. split; [reflexivity|]. split.
    + rewrite map_app, Hinv. simpl. apply take_pred_last, Hlast.
    + exists last_dt, mv. split; [reflexivity|]. split; [exact Hmv|].
      apply last_snoc.
  - left. split; [reflexivity|]. apply last_None, Hlast.
Qed.

Lemma backtest_inr d strat capital c shorts r s :
  backtest d strat capital c shorts = inr (r, s) ->
  exists bt, Backtester_init d strat capital c shorts = inr bt /\
             run bt (init_state bt) = (r, s).
Proof.
  unfold backtest. destruct (Backtester_init _ _ _ _ _) as [e|bt]; [discriminate|].
  intros [= H]. eauto.
Qed.

(** X8. Within the input contract of this embedding, a backtest can
    fail in three ways only: [AttributeError] from [__init__] exactly when
    the data dict is empty, [IndexError] from [run] only when no day has a
    bar in every frame, and [ZeroDivisionError].  No bar lookup raises
    [KeyError]: every bar the loops look up is there.  The contract:
    [generate_signals] returns a frame whose columns are symbols of the
    data; every Open and Close is a number; floats are exact rationals,
    so no share-sizing quotient is an infinity or NaN.  Outside it the
    code can also raise what [generate_signals] raises, [KeyError] for a
    signal column that is no symbol of the data, and [OverflowError] or
    [ValueError] from [int] of an infinite or NaN quotient. *)
Theorem backtest_exceptions (d : dataset) (strat : Strategy) (capital : Q)
    (c : Costs.t) (shorts : bool) :
  match backtest d strat capital c shorts with
  | inl e => e = AttributeError /\ d = []
  | inr (inl e, _) =>
      d <> [] /\
      ((e = IndexError /\ forall dt, ~ has_bars d dt) \/ e = ZeroDivisionError)
  | inr (inr _, _) => d <> [] /\ exists dt, has_bars d dt
  end.
Proof.
  unfold backtest.
  pose proof (Backtester_init_cases d strat capital c shorts) as Hc.
  destruct (Backtester_init d strat capital c shorts) as [e|bt] eqn:Hinit;
    [exact Hc|].
  destruct Hc as (Hne & Hd & _ & Hcal).
  destruct (Backtester_init_ok _ _ _ _ _ _ Hinit) as (Hok & _).
  pose proof (run_outcome bt Hok) as Hout.
  destruct (run bt (init_state bt)) as [[e|curve] s]; split; try exact Hne.
  - destruct Hout as [[-> Hnil] | ->]; [left|right; reflexivity].
    split; [reflexivity|]. intros dt Hb. apply Hcal in Hb.
    rewrite Hnil in Hb. apply elem_of_nil in Hb. exact Hb.
  - destruct Hout as (_ & _ & last_dt & _ & Hlast & _).
    exists last_dt. apply Hcal. apply last_Some in Hlast as [l' ->].
    apply elem_of_app. right. left.
Qed.

(** X9. When a backtest returns, the equity curve it returns has exactly
    one mark per calendar date, in calendar order, and its last mark is the
    ending cash plus the ending positions valued at the last date's
    Close. *)
Theorem equity_curve_shape (d : dataset) (strat : Strategy) (capital : Q)
    (c : Costs.t) (shorts : bool) (bt : Backtester) (curve : list (Z * Q))
    (s : state) :
  Backtester_init d strat capital c shorts = inr bt ->
  run bt (init_state bt) = (inr curve, s) ->
  map fst curve = calendar bt /\
  exists last_dt mv,
    last (calendar bt) = Some last_dt /\
    market_value (positions s) last_dt d 0 = inr mv /\
    last curve = Some (last_dt, cash s + mv).
Proof.
  intros Hinit Hrun.
  destruct (Backtester_init_ok _ _ _ _ _ _ Hinit) as (Hok & Hd & _).
  pose proof (run_outcome bt Hok) as Hout. rewrite Hrun in Hout.
  destruct Hout as (_ & Hdates & last_dt & mv & Hlast & Hmv & Hl).
  split; [exact Hdates|]. rewrite <- Hd. eauto.
Qed.

Lemma equity_curve_shape_witness :
  exists curve s,
    run two_symbols_bt (init_state two_symbols_bt) = (inr curve, s) /\
    map fst curve = [0; 1; 2; 3]%Z.
Proof.
  eexists _, _. split; [vm_compute; reflexivity|].
  eapply (equity_curve_shape two_symbols long_then_flat 100000 default_costs
            false two_symbols_bt).
  - vm_compute. reflexivity.
  - vm_compute. reflexivity.
Defined.

Section Returns.
Variable bt : Backtester.
Hypothesis cal_ok : calendar_ok bt.
Hypothesis cr_nonneg : 0 <= Costs.commission_rate (costs bt).
Hypothesis sr_range : 0 <= Costs.slippage_rate (costs bt) < 1.
Hypothesis open_pos :
  forall sym df dt bar,
    (sym, df) ∈ data bt -> df !! dt = Some bar -> 0 < Bar.Open bar.

Lemma exec_price_pos side open_px : 0 < open_px -> 0 < _exec_price bt side open_px.
Proof.
  intros Ho. destruct side; simpl.
  - apply Qmult_lt_0_compat; lra.
  - apply Qmult_lt_0_compat; lra.
Qed.

Lemma loc_open_pos sym dt bar : loc (data bt) sym dt = inr bar -> 0 < Bar.Open bar.
Proof.
  unfold loc. destruct (_ !! sym) as [df|] eqn:Hdf; [|discriminate].
  destruct (df !! dt) as [b|] eqn:Hb; [|discriminate].
  intros [= <-]. apply elem_of_list_to_map_2 in Hdf.
  eapply open_pos; eassumption.
Qed.

Lemma process_symbol_returns dt next_dt sym s :
  has_bars (data bt) dt -> has_bars (data bt) next_dt ->
  sym ∈ symbols (data bt) ->
  wpx (process_symbol bt dt next_dt sym) (fun _ _ => True) (fun _ _ => False) s.
Proof.
  intros Hb Hn Hsym. apply wpx_process_symbol; [exact Hb|auto|].
  intros _. destruct (loc_total _ _ _ Hn Hsym) as [bar Hloc]. rewrite Hloc.
  pose proof (loc_open_pos _ _ _ Hloc) as Hopen.
  assert (Hpst : ~ _exec_price bt BUY (Bar.Open bar)
                   * (1 + Costs.commission_rate (costs bt)) == 0).
  { pose proof (exec_price_pos BUY _ Hopen) as Hp.
    assert (0 < _exec_price bt BUY (Bar.Open bar)
                * (1 + Costs.commission_rate (costs bt)))
      by (apply Qmult_lt_0_compat; lra).
    lra. }
  apply (vcx_turn_intro _ _ _ _ _ _ _ _ (fun _ => True)); auto.
  - intros e _ He. apply close_order_raises in He as [_ Hz]. contradiction.
  - intros s1 e _ _ _ He. apply entry_order_raises in He as [_ [Hz|Hz]];
      [|contradiction].
    pose proof (exec_price_pos (if decide (0 < target_of bt sym dt)%Z
                                then BUY else SELL) _ Hopen). lra.
Qed.

Lemma run_returns_on_positive_prices :
  calendar bt <> [] ->
  exists curve s, run bt (init_state bt) = (inr curve, s).
Proof.
  intros Hne. rewrite run_unfold.
  pose proof (run_before_turns_inv bt (fun _ => True) (fun _ _ => False) cal_ok I)
    as Hinv.
  specialize (Hinv ltac:(intros dt nx sym s0 Hd Hn Hsym _;
                         apply process_symbol_returns; auto)).
  specialize (Hinv ltac:(auto) (pred (length (calendar bt)))).
  destruct (run_before bt _) as [[e|[]] s]; [contradiction|].
  destruct (last (calendar bt)) as [last_dt|] eqn:Hlast.
  - assert (Hin : last_dt ∈ calendar bt).
    { apply last_Some in Hlast as [l' ->]. apply elem_of_app. right. left. }
    destruct (market_value_total _ _ (positions s) (cal_ok _ Hin) 0) as [mv ->].
    eauto.
  - apply last_None in Hlast. contradiction.
Qed.
End Returns.

(** X10. Within the input contract of this embedding ([generate_signals]
    returns a frame whose columns are symbols of the data; floats are
    exact rationals, so no share-sizing quotient overflows), a backtest
    returns an equity curve, without raising, whenever some day has a bar
    in every frame, every Open is positive, the commission rate is
    non-negative and the slippage rate is in [0, 1). *)
Theorem backtest_returns (d : dataset) (strat : Strategy) (capital : Q)
    (c : Costs.t) (shorts : bool) (day : Z) :
  has_bars d day -> d <> [] ->
  0 <= Costs.commission_rate c ->
  0 <= Costs.slippage_rate c < 1 ->
  (forall sym df dt bar,
      (sym, df) ∈ d -> df !! dt = Some bar -> 0 < Bar.Open bar) ->
  exists curve s, backtest d strat capital c shorts = inr (inr curve, s).
Proof.
  intros Hday Hne Hcr Hsr Hopen. unfold backtest.
  pose proof (Backtester_init_cases d strat capital c shorts) as Hc.
  destruct (Backtester_init d strat capital c shorts) as [e|bt] eqn:Hinit.
  { destruct Hc as [_ ->]. contradiction. }
  destruct Hc as (_ & Hd & _ & Hcal).
  destruct (Backtester_init_ok _ _ _ _ _ _ Hinit) as (Hok & _ & _ & Hcosts & _).
  destruct (run_returns_on_positive_prices bt Hok) as (curve & s & ->).
  - rewrite Hcosts. exact Hcr.
  - rewrite Hcosts. exact Hsr.
  - rewrite Hd. exact Hopen.
  - intros Hnil. apply Hcal in Hday. rewrite Hnil in Hday.
    apply elem_of_nil in Hday. exact Hday.
  - eauto.
Qed.

Lemma flat_bars_positive (pxs : list (Z * Q)) :
  Forall (fun p => 0 < p.2) pxs ->
  forall dt bar, flat_bars pxs !! dt = Some bar -> 0 < Bar.Open bar.
Proof.
  intros Hall dt bar Hbar. unfold flat_bars in Hbar.
  apply elem_of_list_to_map_2, list_elem_of_fmap in Hbar.
  destruct Hbar as ([d px] & [= -> ->] & Hin). simpl.
  rewrite Forall_forall in Hall. apply (Hall (d, px)), Hin.
Qed.

Lemma backtest_returns_witness :
  exists curve s,
    backtest two_symbols long_then_flat 100000 default_costs true
    = inr (inr curve, s).
Proof.
  apply (backtest_returns two_symbols long_then_flat 100000 default_costs true 0).
  - intros sym df Hin.
    apply elem_of_cons in Hin as [Heq|Hin];
      [|apply elem_of_cons in Hin as [Heq|Hin];
        [|apply elem_of_nil in Hin; contradiction]];
      injection Heq as -> ->; vm_compute; eauto.
  - discriminate.
  - discriminate.
  - split; [discriminate|reflexivity].
  - intros sym df dt bar Hin Hbar.
    apply elem_of_cons in Hin as [Heq|Hin];
      [|apply elem_of_cons in Hin as [Heq|Hin];
        [|apply elem_of_nil in Hin; contradiction]];
      injection Heq as -> ->;
      (eapply flat_bars_positive; [|exact Hbar]);
      repeat constructor.
Defined.

(** ** The engine's books and the ledger *)

Lemma replay_snoc capital fs f :
  replay capital (fs ++ [f]) =
  Portfolio._apply_fill (replay capital fs) (Fill.date f) (Fill.symbol f)
    (Fill.side f) (Fill.qty f) (Fill.price f) (Fill.commission f) ∅.
Proof. unfold replay. rewrite foldl_snoc. reflexivity. Qed.

Lemma apply_fill_shares_other p date symbol side qty price commission prices_now
    other :
  other <> symbol ->
  shares_of (Portfolio._apply_fill p date symbol side qty price commission
                                   prices_now) other
  = shares_of p other.
Proof.
  intros Hne. unfold shares_of, Portfolio._apply_fill.
  destruct side; simpl; rewrite lookup_insert_ne by congruence; reflexivity.
Qed.

Lemma close_order_new_pos bt open_px cur_qty c o :
  close_order bt open_px cur_qty c = inr o ->
  o_new_pos o = match o_side o with
                | BUY => cur_qty + o_qty o
                | SELL => cur_qty - o_qty o
                end%Z.
Proof.
  unfold close_order. destruct (decide _).
  - intros [= <-]. reflexivity.
  - destruct (affordable _ _ _); [discriminate|]. intros [= <-]. reflexivity.
Qed.

Lemma entry_order_new_pos bt target open_px c o :
  entry_order bt target open_px c = inr (Some o) ->
  o_new_pos o = match o_side o with
                | BUY => 0 + o_qty o
                | SELL => 0 - o_qty o
                end%Z.
Proof.
  unfold entry_order. destruct (floordiv _ _); [discriminate|].
  destruct (decide (_ <= 0)%Z); [discriminate|].
  destruct (decide (0 < target)%Z).
  - destruct (affordable _ _ _); [discriminate|].
    destruct (decide _); [discriminate|]. intros [= <-]. reflexivity.
  - intros [= <-]. reflexivity.
Qed.

Lemma booked_ledger bt capital next_dt sym (o : order) s eq :
  ledger_agrees capital s ->
  (o_new_pos o = match o_side o with
                 | BUY => getd (positions s) sym + o_qty o
                 | SELL => getd (positions s) sym - o_qty o
                 end)%Z ->
  ledger_agrees capital
    (append_fill (fill_of_order bt next_dt sym o (cash s) eq) (booked bt sym o s)).
Proof.
  intros (Hcash & Hpos & Hafter & Hrows) Hnew.
  unfold ledger_agrees. simpl. rewrite replay_snoc. simpl.
  set (p := replay capital (fills s)) in *.
  assert (Hc : Portfolio.cash
                 (Portfolio._apply_fill p next_dt sym (o_side o) (o_qty o)
                    (o_price o) (_commission bt (inject_Z (o_qty o) * o_price o)) ∅)
               = cash_after_order bt o (cash s)).
  { unfold Portfolio._apply_fill, cash_after_order.
    destruct (o_side o); simpl; rewrite Hcash; reflexivity. }
  split; [exact Hc|]. split; [|split].
  - intros sym'. destruct (decide (sym' = sym)) as [->|Hne].
    + rewrite apply_fill_shares, getd_insert_eq, Hnew, Hpos. reflexivity.
    + rewrite apply_fill_shares_other by exact Hne.
      rewrite getd_insert_ne by congruence. apply Hpos.
  - unfold Portfolio._apply_fill in *.
    destruct (o_side o); simpl in *; rewrite !map_app, Hafter; simpl;
      rewrite Hc; reflexivity.
  - unfold Portfolio._apply_fill, fill_of_order.
    destruct (o_side o); simpl; rewrite !map_app, Hrows; reflexivity.
Qed.

Lemma process_symbol_ledger bt capital dt next_dt sym s :
  has_bars (data bt) dt ->
  ledger_agrees capital s ->
  wpx (process_symbol bt dt next_dt sym)
      (fun _ => ledger_agrees capital) (fun _ => ledger_agrees capital) s.
Proof.
  intros Hb Hs. apply wpx_process_symbol; [exact Hb|auto|].
  intros _. destruct (loc _ _ _) as [e|bar]; [exact Hs|].
  apply (vcx_turn_intro _ _ _ _ _ _ _ _ (ledger_agrees capital)); auto.
  - intros o mv _ Hco _. apply booked_ledger; [exact Hs|].
    apply (close_order_new_pos _ _ _ _ _ Hco).
  - intros s1 o mv H1 _ Hflat Heo _. apply booked_ledger; [exact H1|].
    rewrite Hflat. apply (entry_order_new_pos _ _ _ _ _ Heo).
Qed.

Lemma init_ledger bt : ledger_agrees (initial_capital bt) (init_state bt).
Proof.
  unfold ledger_agrees. split; [reflexivity|]. split; [|split; reflexivity].
  intros sym. rewrite init_positions. reflexivity.
Qed.

(** X11. The engine keeps its books inline, without the [Portfolio]
    class; they agree with it.  Applying the fills of a run, in order, to
    [Portfolio(cash=initial_capital)] with [_apply_fill] gives the
    engine's ending cash and the engine's ending position of every symbol,
    and records for each fill the [cash_after] the engine recorded. *)
Theorem engine_matches_ledger (d : dataset) (strat : Strategy) (capital : Q)
    (c : Costs.t) (shorts : bool) (r : exn + list (Z * Q)) (s : state) :
  backtest d strat capital c shorts = inr (r, s) ->
  ledger_agrees capital s.
Proof.
  intros Hrun. apply backtest_inr in Hrun as (bt & Hinit & Hrun).
  destruct (Backtester_init_ok _ _ _ _ _ _ Hinit) as (Hok & _ & Hcap & _).
  assert (Hs : s = final (run bt) (init_state bt))
    by (unfold final; rewrite Hrun; reflexivity).
  pose proof (run_before_turns_inv bt (ledger_agrees capital)
                (fun _ => ledger_agrees capital) Hok) as Hinv.
  specialize (Hinv ltac:(rewrite <- Hcap; apply init_ledger)).
  specialize (Hinv ltac:(intros dt nx sym s0 Hd _ _ H0;
                         apply process_symbol_ledger; auto)).
  specialize (Hinv ltac:(intros s0 e H0; exact H0)
                   (pred (length (calendar bt)))).
  destruct (run_final_state bt) as (Hc & Hp & Hf & _).
  fold (state_before bt (pred (length (calendar bt)))) in Hinv.
  assert (Hagree : ledger_agrees capital
                     (state_before bt (pred (length (calendar bt))))).
  { unfold state_before in *.
    destruct (run_before bt _) as [[e|[]] s0]; exact Hinv. }
  subst s. unfold ledger_agrees in *. rewrite Hc, Hp, Hf. exact Hagree.
Qed.

Lemma engine_matches_ledger_witness :
  exists r s,
    backtest two_symbols long_then_flat 100000 default_costs false = inr (r, s) /\
    ledger_agrees 100000 s.
Proof.
  eexists _, _. split; [vm_compute; reflexivity|].
  eapply (engine_matches_ledger two_symbols long_then_flat 100000 default_costs
            false).
  vm_compute. reflexivity.
Defined.

(** ** The shape of the fills of a run *)

Lemma engine_history_snoc budget fs f :
  engine_history budget fs ->
  fill_shape budget (held (Fill.symbol f) fs) f ->
  engine_history budget (fs ++ [f]).
Proof.
  intros Hfs Hf pre g post. induction post as [|x post _] using rev_ind.
  - intros H. apply app_inj_tail in H as [-> ->]. exact Hf.
  - intros H. change (pre ++ g :: post ++ [x]) with (pre ++ (g :: post) ++ [x]) in H.
    rewrite app_assoc in H. apply app_inj_tail in H as [-> _].
    apply (Hfs pre g post). reflexivity.
Qed.

Lemma booked_audited bt budget next_dt sym (o : order) s eq :
  audited budget s ->
  (o_new_pos o = match o_side o with
                 | BUY => getd (positions s) sym + o_qty o
                 | SELL => getd (positions s) sym - o_qty o
                 end)%Z ->
  fill_shape budget (getd (positions s) sym)
             (fill_of_order bt next_dt sym o (cash s) eq) ->
  audited budget
    (append_fill (fill_of_order bt next_dt sym o (cash s) eq) (booked bt sym o s)).
Proof.
  intros [Hpos Hhist] Hnew Hshape. split.
  - intros sym'. simpl. rewrite held_snoc. simpl.
    destruct (decide (sym = sym')) as [<-|Hne].
    + rewrite getd_insert_eq, Hnew, Hpos. reflexivity.
    + rewrite getd_insert_ne by congruence. apply Hpos.
  - simpl. apply engine_history_snoc; [exact Hhist|].
    simpl. rewrite <- Hpos. exact Hshape.
Qed.

Lemma close_order_shape bt budget next_dt sym open_px cur_qty c o eq :
  cur_qty <> 0%Z ->
  close_order bt open_px cur_qty c = inr o ->
  fill_shape budget cur_qty (fill_of_order bt next_dt sym o c eq).
Proof.
  intros Hcur. unfold close_order, fill_shape.
  destruct (decide (cur_qty = 0%Z)) as [|_]; [contradiction|].
  destruct (decide (0 < cur_qty)%Z).
  - intros [= <-]. simpl. split; [reflexivity|lia].
  - unfold affordable. destruct (floordiv _ _); [discriminate|].
    intros [= <-]. simpl. split; [reflexivity|lia].
Qed.

Lemma entry_order_shape bt next_dt sym target open_px c o eq :
  0 <= per_symbol_budget bt ->
  entry_order bt target open_px c = inr (Some o) ->
  fill_shape (per_symbol_budget bt) 0 (fill_of_order bt next_dt sym o c eq).
Proof.
  intros Hb. unfold entry_order, fill_shape.
  destruct (decide (0%Z = 0%Z)) as [_|]; [|contradiction]. cbv zeta.
  set (price := _exec_price bt (if decide (0 < target)%Z then BUY else SELL) open_px).
  unfold floordiv. destruct (Qeq_dec price 0) as [|Hp0]; [discriminate|].
  set (shares := Qfloor (per_symbol_budget bt / price)).
  destruct (decide (shares <= 0)%Z) as [|Hsh]; [discriminate|].
  assert (Hone : 1 <= per_symbol_budget bt / price).
  { apply Qle_trans with (inject_Z shares); [|apply Qfloor_le].
    change 1 with (inject_Z 1). rewrite <- Zle_Qle. lia. }
  assert (Hpos : 0 < price).
  { destruct (Qlt_le_dec 0 price) as [|Hle]; [assumption|].
    exfalso. assert (Hlt : price < 0) by (apply Qle_lteq in Hle as [|]; [assumption|contradiction]).
    assert (Hq : per_symbol_budget bt / price <= 0).
    { unfold Qdiv. assert (Hi : / price < 0).
      { apply Qopp_lt_compat in Hlt. 
        assert (H1 : 0 < - price) by lra.
        apply Qinv_lt_0_compat in H1.
        assert (H2 : / - price == - / price).
        { field. exact Hp0. }
        lra. }
      nra. }
    lra. }
  assert (Hcap : forall q, (q <= shares)%Z ->
                           inject_Z q * price <= per_symbol_budget bt).
  { intros q Hq. apply Qfloor_div_bound; assumption. }
  destruct (decide (0 < target)%Z).
  - unfold affordable. destruct (floordiv c _) as [|q]; [discriminate|].
    destruct (decide _) as [|Hz]; [discriminate|].
    intros [= <-]. simpl. split; [lia|]. split; [exact Hpos|]. apply Hcap. lia.
  - intros [= <-]. simpl. split; [lia|]. split; [exact Hpos|]. apply Hcap. lia.
Qed.

Lemma process_symbol_audited bt dt next_dt sym s :
  0 <= per_symbol_budget bt ->
  has_bars (data bt) dt ->
  audited (per_symbol_budget bt) s ->
  wpx (process_symbol bt dt next_dt sym)
      (fun _ => audited (per_symbol_budget bt))
      (fun _ => audited (per_symbol_budget bt)) s.
Proof.
  intros Hbud Hb Hs. apply wpx_process_symbol; [exact Hb|auto|].
  intros _. destruct (loc _ _ _) as [e|bar]; [exact Hs|].
  apply (vcx_turn_intro _ _ _ _ _ _ _ _ (audited (per_symbol_budget bt))); auto.
  - intros o mv Hcur Hco _. apply booked_audited; [exact Hs| |].
    + apply (close_order_new_pos _ _ _ _ _ Hco).
    + apply (close_order_shape bt _ next_dt sym _ _ _ o _ Hcur Hco).
  - intros s1 o mv H1 _ Hflat Heo _. apply booked_audited; [exact H1| |].
    + rewrite Hflat. apply (entry_order_new_pos _ _ _ _ _ Heo).
    + rewrite Hflat. eapply entry_order_shape; eassumption.
Qed.

Lemma init_audited bt budget : audited budget (init_state bt).
Proof.
  split.
  - intros sym. rewrite init_positions. reflexivity.
  - intros pre f post H. simpl in H. symmetry in H.
    apply app_eq_nil in H as [_ H]. discriminate.
Qed.

Lemma budget_nonneg (capital : Q) (n : Z) :
  0 <= capital -> 0 <= capital * (95 # 100) / inject_Z (Z.max 1 n).
Proof.
  intros Hc. apply Qle_shift_div_l.
  - change 0 with (inject_Z 0). rewrite <- Zlt_Qlt. lia.
  - rewrite Qmult_0_l. apply Qmult_le_0_compat; [exact Hc|]. discriminate.
Qed.

(** X12. In a run started with non-negative capital, long-only or with
    shorts, the position of every symbol is the net of its fills, and
    every fill has one of two shapes.  A fill for a symbol that is flat
    opens a position: its quantity and price are positive and its
    notional is at most the per-symbol budget
    [initial_capital * 0.95 / max(1, number of symbols)].  A fill for a
    symbol that is held trades against the holding (a sell when long, a
    buy when short) for at most the shares held, so no fill adds to a
    position or carries it through zero. *)
Theorem fills_trade_within_holdings_and_budget (d : dataset) (strat : Strategy)
    (capital : Q) (c : Costs.t) (shorts : bool) (r : exn + list (Z * Q))
    (s : state) :
  0 <= capital ->
  backtest d strat capital c shorts = inr (r, s) ->
  let budget :=
    capital * (95 # 100) / inject_Z (Z.max 1 (Z.of_nat (length (symbols d)))) in
  (forall sym, getd (positions s) sym = held sym (fills s)) /\
  (forall pre f post,
      fills s = pre ++ f :: post ->
      fill_shape budget (held (Fill.symbol f) pre) f).
Proof.
  intros Hcap Hrun budget. apply backtest_inr in Hrun as (bt & Hinit & Hrun).
  destruct (Backtester_init_ok _ _ _ _ _ _ Hinit) as (Hok & _ & _ & _ & _ & Hbud).
  fold budget in Hbud.
  assert (Hb0 : 0 <= per_symbol_budget bt)
    by (rewrite Hbud; apply budget_nonneg, Hcap).
  assert (Hs : s = final (run bt) (init_state bt))
    by (unfold final; rewrite Hrun; reflexivity).
  pose proof (run_before_turns_inv bt (audited (per_symbol_budget bt))
                (fun _ => audited (per_symbol_budget bt)) Hok) as Hinv.
  specialize (Hinv (init_audited bt _)).
  specialize (Hinv ltac:(intros dt nx sym s0 Hd _ _ H0;
                         apply process_symbol_audited; auto)).
  specialize (Hinv ltac:(intros s0 e H0; exact H0)
                   (pred (length (calendar bt)))).
  destruct (run_final_state bt) as (_ & Hp & Hf & _).
  assert (Hagree : audited (per_symbol_budget bt)
                     (state_before bt (pred (length (calendar bt))))).
  { unfold state_before.
    destruct (run_before bt _) as [[e|[]] s0]; exact Hinv. }
  subst s. rewrite Hbud in Hagree. destruct Hagree as [H1 H2].
  rewrite Hp, Hf. split; [exact H1|exact H2].
Qed.

Lemma fills_trade_within_holdings_and_budget_witness :
  exists r s,
    backtest two_symbols long_then_flat 100000 default_costs false = inr (r, s) /\
    fills s <> [] /\
    forall sym, getd (positions s) sym = held sym (fills s).
Proof.
  eexists _, _. split; [vm_compute; reflexivity|]. split; [discriminate|].
  eapply (fills_trade_within_holdings_and_budget two_symbols long_then_flat
            100000 default_costs false).
  - discriminate.
  - vm_compute. reflexivity.
Defined.

(** ** Reconstructed pnl and cash *)

Lemma Qsum_snoc (l : list Q) (x : Q) : Qsum (l ++ [x]) == Qsum l + x.
Proof. unfold Qsum. rewrite foldl_snoc. reflexivity. Qed.

Lemma Qsum_app (l1 l2 : list Q) : Qsum (l1 ++ l2) == Qsum l1 + Qsum l2.
Proof.
  unfold Qsum at 1. rewrite foldl_app. rewrite foldl_Qplus_acc. reflexivity.
Qed.

Lemma per_share_total (qty : Z) (px comm : Q) :
  (0 < qty)%Z ->
  inject_Z qty * (px + comm / inject_Z qty) == inject_Z qty * px + comm /\
  inject_Z qty * (px - comm / inject_Z qty) == inject_Z qty * px - comm.
Proof.
  intros Hq.
  assert (Hn : ~ inject_Z qty == 0).
  { intros H. unfold Qeq in H. simpl in H. lia. }
  split; field; exact Hn.
Qed.

Lemma on_buy_flow sym dt px comm qty s trades :
  (0 < qty)%Z -> sided s ->
  exists s' new,
    on_buy sym dt px (comm / inject_Z qty) qty s trades = inr (s', trades ++ new) /\
    sided s' /\
    Forall (fun t => Trade.symbol t = sym) new /\
    Acc.pos s' = (Acc.pos s + qty)%Z /\
    Qsum (map Trade.pnl new) + open_pnl s'
    == open_pnl s - (inject_Z qty * px + comm).
Proof.
  intros Hq Hs. destruct (per_share_total qty px comm Hq) as [Hu _].
  set (u := px + comm / inject_Z qty) in *.
  unfold on_buy. fold u.
  destruct (decide (0 <= Acc.pos s)%Z) as [Hp|Hp].
  { exists (Acc.add_pos qty (add_long_entry dt px (comm / inject_Z qty) qty s)), [].
    rewrite app_nil_r. split; [reflexivity|].
    unfold sided, open_pnl in *. simpl. fold u.
    destruct (Acc.entry_side s) as [[|]|]; simpl.
    - destruct Hs as [Hpos Hd]. split; [split; [lia|]|].
      + destruct (Acc.entry_date s); [discriminate|congruence].
      + split; [constructor|]. split; [reflexivity|]. unfold Qsum. simpl. lra.
    - lia.
    - destruct Hs as (Hpos & Hd & He & Hx). split; [split; [lia|discriminate]|].
      split; [constructor|]. split; [reflexivity|]. unfold Qsum. simpl. lra. }
  assert (Hshort : Acc.entry_side s = Some SHORT /\ Acc.entry_date s <> None).
  { unfold sided in Hs. destruct (Acc.entry_side s) as [[|]|]; [lia|tauto|lia]. }
  destruct Hshort as [Hside Hdate].
  destruct (Acc.entry_date s) as [d0|] eqn:Hd0; [clear Hdate|congruence].
  set (cover := Z.min qty (- Acc.pos s)).
  assert (Hcover : (0 < cover)%Z) by (unfold cover; lia).
  destruct (decide (0 < cover)%Z) as [_|]; [|contradiction].
  cbv zeta. simpl Acc.pos.
  destruct (decide (Acc.pos s + cover = 0)%Z) as [Hz|Hz].
  - unfold close_trade. simpl. rewrite Hside, Hd0.
    destruct (decide (Acc.pos s + cover <> 0)%Z) as [|_]; [contradiction|].
    destruct (decide (0 < qty - cover)%Z) as [Hrem|Hrem].
    + eexists _, [_]. split; [reflexivity|].
      unfold sided, open_pnl. simpl. fold u.
      split; [split; [lia|discriminate]|].
      split; [repeat constructor|]. split; [lia|].
      unfold Qsum. simpl. rewrite Hside. rewrite inject_Z_sub.
      rewrite <- Hu. ring.
    + eexists _, [_]. split; [reflexivity|].
      unfold sided, open_pnl. simpl. fold u.
      split; [repeat split; try reflexivity; lia|].
      split; [repeat constructor|]. split; [lia|].
      unfold Qsum. simpl. rewrite Hside.
      assert (Hcq : cover = qty) by lia. rewrite Hcq, <- Hu. ring.
  - assert (Hcq : cover = qty) by (unfold cover in *; lia).
    destruct (decide (0 < qty - cover)%Z) as [Hrem|Hrem]; [lia|].
    exists (Acc.add_pos cover (add_short_exit px (comm / inject_Z qty) cover s)), [].
    rewrite app_nil_r. split; [reflexivity|].
    unfold sided, open_pnl. simpl. fold u. rewrite Hside, Hd0.
    split; [split; [lia|discriminate]|].
    split; [constructor|]. split; [lia|].
    unfold Qsum. simpl. rewrite Hcq, <- Hu. ring.
Qed.

Lemma on_sell_flow sym dt px comm qty s trades :
  (0 < qty)%Z -> sided s ->
  exists s' new,
    on_sell sym dt px (comm / inject_Z qty) qty s trades = inr (s', trades ++ new) /\
    sided s' /\
    Forall (fun t => Trade.symbol t = sym) new /\
    Acc.pos s' = (Acc.pos s - qty)%Z /\
    Qsum (map Trade.pnl new) + open_pnl s'
    == open_pnl s + (inject_Z qty * px - comm).
Proof.
  intros Hq Hs. destruct (per_share_total qty px comm Hq) as [_ Hv].
  set (v := px - comm / inject_Z qty) in *.
  unfold on_sell. fold v.
  destruct (decide (Acc.pos s <= 0)%Z) as [Hp|Hp].
  { exists (Acc.add_pos (- qty) (add_short_entry dt px (comm / inject_Z qty) qty s)), [].
    rewrite app_nil_r. split; [reflexivity|].
    unfold sided, open_pnl in *. simpl. fold v.
    destruct (Acc.entry_side s) as [[|]|]; simpl.
    - lia.
    - destruct Hs as [Hpos Hd]. split; [split; [lia|]|].
      + destruct (Acc.entry_date s); [discriminate|congruence].
      + split; [constructor|]. split; [lia|]. unfold Qsum. simpl. lra.
    - destruct Hs as (Hpos & Hd & He & Hx). split; [split; [lia|discriminate]|].
      split; [constructor|]. split; [lia|]. unfold Qsum. simpl. lra. }
  assert (Hlong : Acc.entry_side s = Some LONG /\ Acc.entry_date s <> None).
  { unfold sided in Hs. destruct (Acc.entry_side s) as [[|]|]; [tauto|lia|lia]. }
  destruct Hlong as [Hside Hdate].
  destruct (Acc.entry_date s) as [d0|] eqn:Hd0; [clear Hdate|congruence].
  set (exitq := Z.min qty (Acc.pos s)).
  assert (Hexitq : (0 < exitq)%Z) by (unfold exitq; lia).
  destruct (decide (0 < exitq)%Z) as [_|]; [|contradiction].
  cbv zeta. simpl Acc.pos.
  destruct (decide (Acc.pos s + - exitq = 0)%Z) as [Hz|Hz].
  - unfold close_trade. simpl. rewrite Hside, Hd0.
    destruct (decide (Acc.pos s + - exitq <> 0)%Z) as [|_]; [contradiction|].
    destruct (decide (0 < qty - exitq)%Z) as [Hrem|Hrem].
    + eexists _, [_]. split; [reflexivity|].
      unfold sided, open_pnl. simpl. fold v.
      split; [split; [lia|discriminate]|].
      split; [repeat constructor|]. split; [lia|].
      unfold Qsum. simpl. rewrite Hside. rewrite inject_Z_sub.
      rewrite <- Hv. ring.
    + eexists _, [_]. split; [reflexivity|].
      unfold sided, open_pnl. simpl. fold v.
      split; [repeat split; try reflexivity; lia|].
      split; [repeat constructor|]. split; [lia|].
      unfold Qsum. simpl. rewrite Hside.
      assert (Hcq : exitq = qty) by lia. rewrite Hcq, <- Hv. ring.
  - assert (Hcq : exitq = qty) by (unfold exitq in *; lia).
    destruct (decide (0 < qty - exitq)%Z) as [Hrem|Hrem]; [lia|].
    exists (Acc.add_pos (- exitq) (add_long_exit px (comm / inject_Z qty) exitq s)), [].
    rewrite app_nil_r. split; [reflexivity|].
    unfold sided, open_pnl. simpl. fold v. rewrite Hside, Hd0.
    split; [split; [lia|discriminate]|].
    split; [constructor|]. split; [lia|].
    unfold Qsum. simpl. rewrite Hcq, <- Hv. ring.
Qed.

Lemma sided_empty : sided Acc.empty.
Proof. unfold sided. simpl. repeat split; reflexivity. Qed.

(** One row of positive quantity: the loop body does not fail, keeps
    every accumulator sided, emits trades of the row's symbol only, and
    what it adds to the closed pnl and to the open pnl of that symbol is
    the cash the row moves. *)
Lemma process_row_flow st trades r :
  (0 < Row.qty r)%Z ->
  (forall sym, sided (acc_of st sym)) ->
  exists st' new,
    process_row (st, trades) r = inr (st', trades ++ new) /\
    (forall sym, sided (acc_of st' sym)) /\
    Forall (fun t => Trade.symbol t = Row.symbol r) new /\
    (forall sym, sym <> Row.symbol r -> acc_of st' sym = acc_of st sym) /\
    Acc.pos (acc_of st' (Row.symbol r))
    = signed_step (Row.symbol r) (Acc.pos (acc_of st (Row.symbol r))) r /\
    Qsum (map Trade.pnl new) + open_pnl (acc_of st' (Row.symbol r))
    == open_pnl (acc_of st (Row.symbol r)) + row_flow r.
Proof.
  intros Hq Hok. destruct r as [dt sym side qty px comm].
  unfold process_row, row_flow, signed_step. simpl in *.
  fold (acc_of st sym). rewrite decide_True by exact Hq.
  rewrite (decide_True (P := sym = sym)) by reflexivity.
  assert (Hfin : forall s',
            sided s' ->
            (forall sym', sided (acc_of (<[sym := s']> st) sym')) /\
            (forall sym', sym' <> sym ->
               acc_of (<[sym := s']> st) sym' = acc_of st sym')).
  { intros s' Hs'. split.
    - intros sym'. destruct (decide (sym = sym')) as [<-|Hne].
      + rewrite acc_of_insert_eq. exact Hs'.
      + rewrite acc_of_insert_ne by exact Hne. apply Hok.
    - intros sym' Hne. apply acc_of_insert_ne. congruence. }
  destruct side.
  - destruct (on_buy_flow sym dt px comm qty (acc_of st sym) trades Hq (Hok _))
      as (s' & new & Hrun & Hs' & Hsym & Hpos & Hflow).
    rewrite Hrun. exists (<[sym := s']> st), new. split; [reflexivity|].
    rewrite acc_of_insert_eq. destruct (Hfin s' Hs') as [H1 H2].
    split; [exact H1|]. split; [exact Hsym|]. split; [exact H2|].
    split; [exact Hpos|]. rewrite Hflow. ring.
  - destruct (on_sell_flow sym dt px comm qty (acc_of st sym) trades Hq (Hok _))
      as (s' & new & Hrun & Hs' & Hsym & Hpos & Hflow).
    rewrite Hrun. exists (<[sym := s']> st), new. split; [reflexivity|].
    rewrite acc_of_insert_eq. destruct (Hfin s' Hs') as [H1 H2].
    split; [exact H1|]. split; [exact Hsym|]. split; [exact H2|].
    split; [exact Hpos|]. rewrite Hflow. ring.
Qed.

Lemma net_flow_cons sym r rows :
  net_flow sym (r :: rows)
  == (if decide (Row.symbol r = sym) then row_flow r else 0) + net_flow sym rows.
Proof.
  unfold net_flow. rewrite filter_cons.
  destruct (decide (Row.symbol r = sym)); simpl.
  - apply Qsum_cons.
  - ring.
Qed.

Lemma trades_of_all sym (l : list Trade.t) :
  Forall (fun t => Trade.symbol t = sym) l -> trades_of sym l = l.
Proof.
  unfold trades_of. induction 1 as [|t l Ht _ IH]; [reflexivity|].
  rewrite filter_cons_True by exact Ht. rewrite IH. reflexivity.
Qed.

Lemma trades_of_none sym sym' (l : list Trade.t) :
  sym <> sym' ->
  Forall (fun t => Trade.symbol t = sym') l -> trades_of sym l = [].
Proof.
  intros Hne. unfold trades_of. induction 1 as [|t l Ht _ IH]; [reflexivity|].
  rewrite filter_cons_False by congruence. exact IH.
Qed.

(** The loop over rows of positive quantity: for every symbol, the pnl of
    the trades it closes plus the pnl of the entry left open is the pnl of
    the entry open at the start plus the cash the rows move. *)
Lemma process_rows_flow rows :
  forall st trades,
    Forall (fun r => 0 < Row.qty r)%Z rows ->
    (forall sym, sided (acc_of st sym)) ->
    exists st' new,
      process_rows rows (st, trades) = inr (st', trades ++ new) /\
      (forall sym, sided (acc_of st' sym)) /\
      forall sym,
        Acc.pos (acc_of st' sym)
        = foldl (signed_step sym) (Acc.pos (acc_of st sym)) rows /\
        Qsum (map Trade.pnl (trades_of sym new)) + open_pnl (acc_of st' sym)
        == open_pnl (acc_of st sym) + net_flow sym rows.
Proof.
  induction rows as [|r rows IH]; intros st trades Hall Hok.
  - exists st, []. rewrite app_nil_r. split; [reflexivity|]. split; [exact Hok|].
    intros sym. split; [reflexivity|]. unfold net_flow, Qsum. simpl. ring.
  - inversion_clear Hall as [|? ? Hq Hrest].
    destruct (process_row_flow st trades r Hq Hok)
      as (st1 & new1 & Hrow & Hok1 & Hsym & Hother & Hpos & Hflow).
    destruct (IH st1 (trades ++ new1) Hrest Hok1)
      as (st' & new2 & Hrun & Hok' & Hinv).
    exists st', (new1 ++ new2).
    change (process_rows (r :: rows) (st, trades))
      with (match process_row (st, trades) r with
            | inl e => inl e
            | inr acc' => process_rows rows acc'
            end).
    rewrite Hrow, Hrun, app_assoc.
    split; [reflexivity|]. split; [exact Hok'|].
    intros sym. destruct (Hinv sym) as [Hp Hf]. rewrite net_flow_cons.
    unfold trades_of in *. rewrite filter_app, map_app, Qsum_app.
    fold (trades_of sym new1). fold (trades_of sym new2) in *.
    destruct (decide (Row.symbol r = sym)) as [<-|Hne].
    + split; [rewrite Hp, Hpos; reflexivity|].
      rewrite (trades_of_all _ _ Hsym). cbv iota. lra.
    + split.
      * rewrite Hp, Hother by congruence. cbn [foldl]. f_equal.
        unfold signed_step. rewrite decide_False by exact Hne. reflexivity.
      * rewrite (trades_of_none sym (Row.symbol r) new1 ltac:(congruence) Hsym).
        rewrite Hother in Hf by congruence.
        change (Qsum (map Trade.pnl [])) with 0. cbv iota. lra.
Qed.

Lemma insert_row_perm r l : insert_row r l ≡ₚ r :: l.
Proof.
  induction l as [|x l IH]; simpl; [reflexivity|].
  destruct (Row.leb r x); [reflexivity|].
  rewrite IH. apply perm_swap.
Qed.

Lemma sort_values_perm rows : sort_values rows ≡ₚ rows.
Proof.
  induction rows as [|r rows IH]; simpl; [reflexivity|].
  rewrite insert_row_perm, IH. reflexivity.
Qed.

Lemma Qsum_perm (l1 l2 : list Q) : l1 ≡ₚ l2 -> Qsum l1 == Qsum l2.
Proof.
  induction 1 as [|x l l' _ IH|x y l|l l' l'' _ IH1 _ IH2].
  - reflexivity.
  - rewrite !Qsum_cons, IH. reflexivity.
  - rewrite !Qsum_cons. ring.
  - rewrite IH1. exact IH2.
Qed.

Lemma net_flow_perm sym (l1 l2 : list Row.t) :
  l1 ≡ₚ l2 -> net_flow sym l1 == net_flow sym l2.
Proof.
  intros H. unfold net_flow. apply Qsum_perm, Permutation_map.
  rewrite H. reflexivity.
Qed.

Lemma signed_step_perm sym (l1 l2 : list Row.t) :
  l1 ≡ₚ l2 ->
  forall a, foldl (signed_step sym) a l1 = foldl (signed_step sym) a l2.
Proof.
  induction 1 as [|x l l' _ IH|x y l|l l' l'' _ IH1 _ IH2]; intros a; simpl.
  - reflexivity.
  - apply IH.
  - f_equal. unfold signed_step.
    destruct (decide (Row.symbol x = sym)), (decide (Row.symbol y = sym));
      destruct (Row.side x), (Row.side y); lia.
  - rewrite IH1. apply IH2.
Qed.

Lemma held_rows sym (fs : list Fill.t) :
  held sym fs = foldl (signed_step sym) 0%Z (map Row.of_fill fs).
Proof.
  unfold held. generalize 0%Z.
  induction fs as [|f fs IH]; intros a; simpl; [reflexivity|].
  rewrite IH. reflexivity.
Qed.

(** The reconstruction on fills of positive quantity: it returns, and
    for every symbol the fills leave flat the pnl of its round trips is the
    cash its fills moved. *)
Lemma round_trips_flow (fs : list Fill.t) :
  Forall (fun f => 0 < Fill.qty f)%Z fs ->
  exists trades,
    round_trip_trades fs = inr trades /\
    forall sym,
      held sym fs = 0%Z ->
      Qsum (map Trade.pnl (trades_of sym trades))
      == net_flow sym (map Row.of_fill fs).
Proof.
  intros Hall. rewrite round_trip_trades_reconstruct.
  set (rows := sort_values (map Row.of_fill fs)).
  assert (Hperm : rows ≡ₚ map Row.of_fill fs) by apply sort_values_perm.
  assert (Hrows : Forall (fun r => 0 < Row.qty r)%Z rows).
  { apply (Permutation_Forall (Permutation_sym Hperm)).
    apply Forall_map. exact Hall. }
  destruct (process_rows_flow rows ∅ [] Hrows)
    as (st & trades & Hrun & Hok & Hinv).
  { intros sym'. unfold acc_of. rewrite lookup_empty. apply sided_empty. }
  unfold reconstruct. rewrite Hrun. exists trades. split; [reflexivity|].
  intros sym Hflat. destruct (Hinv sym) as [Hpos Hflow].
  assert (Hzero : Acc.pos (acc_of st sym) = 0%Z).
  { rewrite Hpos. unfold acc_of at 1. rewrite lookup_empty. simpl.
    rewrite (signed_step_perm sym _ _ Hperm), <- held_rows. exact Hflat. }
  assert (Hopen : open_pnl (acc_of st sym) = 0).
  { specialize (Hok sym). unfold sided, open_pnl in *.
    destruct (Acc.entry_side (acc_of st sym)) as [[|]|]; [lia|lia|reflexivity]. }
  rewrite Hopen in Hflow. unfold acc_of at 1 in Hflow.
  rewrite lookup_empty in Hflow. simpl in Hflow.
  pose proof (net_flow_perm sym _ _ Hperm) as Hnf.
  change (open_pnl Acc.empty) with 0 in Hflow. lra.
Qed.

(** X13. For fills of positive quantity and a symbol they leave flat, the
    pnl of the round trips that [round_trip_trades] reconstructs for the
    symbol adds up to the net cash its fills moved: the sells' proceeds
    less commission minus the buys' cost plus commission.  Splitting a
    fill that flips the position, and the per-share commission, lose
    nothing (floats as exact rationals). *)
Theorem realized_pnl_is_net_cash_flow (fs : list Fill.t) (sym : string) :
  Forall (fun f => 0 < Fill.qty f)%Z fs ->
  held sym fs = 0%Z ->
  exists trades,
    round_trip_trades fs = inr trades /\
    Qsum (map Trade.pnl (trades_of sym trades))
    == net_flow sym (map Row.of_fill fs).
Proof.
  intros Hall Hflat.
  destruct (round_trips_flow fs Hall) as (trades & Hrun & Hflow).
  exists trades. split; [exact Hrun|]. apply Hflow, Hflat.
Qed.

Lemma realized_pnl_is_net_cash_flow_witness :
  let fs := [Fill.mk 0 "AAA" BUY 10 50 1 0 0;
             Fill.mk 1 "AAA" SELL 15 60 3 0 0;
             Fill.mk 2 "AAA" BUY 5 55 1 0 0] in
  Forall (fun f => 0 < Fill.qty f)%Z fs /\
  held "AAA" fs = 0%Z /\
  exists trades,
    round_trip_trades fs = inr trades /\
    Qsum (map Trade.pnl (trades_of "AAA" trades))
    == net_flow "AAA" (map Row.of_fill fs).
Proof.
  intros fs. split; [repeat constructor|]. split; [vm_compute; reflexivity|].
  apply (realized_pnl_is_net_cash_flow fs "AAA");
    [repeat constructor|vm_compute; reflexivity].
Defined.

(** ** The moving-average crossover *)

Lemma window_mean_prefix (w : nat) (px px' : list Q) (j : nat) :
  take (S j) px = take (S j) px' ->
  MovingAverageCrossover.window_mean w px j
  = MovingAverageCrossover.window_mean w px' j.
Proof.
  intros Hpre. unfold MovingAverageCrossover.window_mean.
  destruct (decide (0 < w <= S j)%nat) as [Hw|]; [|reflexivity].
  rewrite !take_drop_commute.
  replace (S j - w + w)%nat with (S j) by lia. rewrite Hpre. reflexivity.
Qed.

Lemma rolling_mean_lookup (w : Z) (px : list Q) (r : list (option Q)) (j : nat) :
  MovingAverageCrossover.rolling_mean w px = inr r ->
  (j < length px)%nat ->
  r !! j = Some (MovingAverageCrossover.window_mean (Z.to_nat w) px j).
Proof.
  unfold MovingAverageCrossover.rolling_mean.
  destruct (decide (w < 0)%Z); [discriminate|]. intros [= <-] Hj.
  rewrite list_lookup_fmap, lookup_seq_lt by exact Hj. reflexivity.
Qed.

Lemma rolling_mean_length (w : Z) (px : list Q) (r : list (option Q)) :
  MovingAverageCrossover.rolling_mean w px = inr r -> length r = length px.
Proof.
  unfold MovingAverageCrossover.rolling_mean.
  destruct (decide (w < 0)%Z); [discriminate|]. intros [= <-].
  rewrite length_map, length_seq. reflexivity.
Qed.

(** The signal at each position: 0 in the first place, then the
    crossover of the two means one position earlier. *)
Lemma signal_one_lookup m px sig :
  MovingAverageCrossover._signal_one m px = inr sig ->
  (0 <= MovingAverageCrossover.short_window m)%Z /\
  (0 <= MovingAverageCrossover.long_window m)%Z /\
  length sig = length px /\
  (0 < length px -> sig !! 0%nat = Some 0%Z)%nat /\
  forall j, (S j < length px)%nat ->
    sig !! S j
    = Some (MovingAverageCrossover.crossover
              (MovingAverageCrossover.window_mean
                 (Z.to_nat (MovingAverageCrossover.short_window m)) px j)
              (MovingAverageCrossover.window_mean
                 (Z.to_nat (MovingAverageCrossover.long_window m)) px j)).
Proof.
  unfold MovingAverageCrossover._signal_one.
  destruct (MovingAverageCrossover.rolling_mean
              (MovingAverageCrossover.short_window m) px) as [|s] eqn:Hs;
    [discriminate|].
  destruct (MovingAverageCrossover.rolling_mean
              (MovingAverageCrossover.long_window m) px) as [|l] eqn:Hl;
    [discriminate|].
  intros [= <-].
  assert (H0s : (0 <= MovingAverageCrossover.short_window m)%Z).
  { unfold MovingAverageCrossover.rolling_mean in Hs.
    destruct (decide _) in Hs; [discriminate|lia]. }
  assert (H0l : (0 <= MovingAverageCrossover.long_window m)%Z).
  { unfold MovingAverageCrossover.rolling_mean in Hl.
    destruct (decide _) in Hl; [discriminate|lia]. }
  pose proof (rolling_mean_length _ _ _ Hs) as Hls.
  pose proof (rolling_mean_length _ _ _ Hl) as Hll.
  set (raw := zip_with MovingAverageCrossover.crossover s l).
  assert (Hraw : length raw = length px).
  { unfold raw. rewrite length_zip_with. lia. }
  unfold MovingAverageCrossover.fillna0, MovingAverageCrossover.shift1.
  split; [exact H0s|]. split; [exact H0l|]. split; [|split].
  - rewrite length_map, length_take. simpl. rewrite length_map. lia.
  - intros Hpos. rewrite list_lookup_fmap, lookup_take_lt by lia. reflexivity.
  - intros j Hj. rewrite list_lookup_fmap, lookup_take_lt by lia. simpl.
    rewrite list_lookup_fmap. unfold raw. rewrite lookup_zip_with.
    rewrite (rolling_mean_lookup _ _ _ j Hs) by lia.
    rewrite (rolling_mean_lookup _ _ _ j Hl) by lia. reflexivity.
Qed.

(** X14. The crossover signal does not look ahead: its value at
    position [i] is fixed by the prices before position [i].  Two price
    series that agree on their first [i] prices get the same signal at
    [i], whatever comes from position [i] on. *)
Theorem ma_signal_no_lookahead (m : MovingAverageCrossover.t)
    (px px' : list Q) (sig sig' : list Z) (i : nat) :
  MovingAverageCrossover._signal_one m px = inr sig ->
  MovingAverageCrossover._signal_one m px' = inr sig' ->
  (i < length px)%nat -> (i < length px')%nat ->
  take i px = take i px' ->
  exists v, sig !! i = Some v /\ sig' !! i = Some v.
Proof.
  intros Hsig Hsig' Hi Hi' Hpre.
  destruct (signal_one_lookup _ _ _ Hsig) as (_ & _ & _ & H0 & HS).
  destruct (signal_one_lookup _ _ _ Hsig') as (_ & _ & _ & H0' & HS').
  destruct i as [|j].
  - exists 0%Z. split; [apply H0|apply H0']; lia.
  - eexists. split; [apply HS, Hi|]. rewrite (HS' j Hi').
    rewrite (window_mean_prefix _ px px' j Hpre).
    rewrite (window_mean_prefix _ px px' j Hpre). reflexivity.
Qed.

Lemma ma_signal_no_lookahead_witness :
  let m := MovingAverageCrossover.mk 1 2 in
  exists sig sig',
    MovingAverageCrossover._signal_one m [1; 2; 3] = inr sig /\
    MovingAverageCrossover._signal_one m [1; 2; 9] = inr sig' /\
    exists v, sig !! 2%nat = Some v /\ sig' !! 2%nat = Some v.
Proof.
  intros m. eexists _, _.
  split; [vm_compute; reflexivity|]. split; [vm_compute; reflexivity|].
  apply (ma_signal_no_lookahead m [1; 2; 3] [1; 2; 9]);
    [vm_compute; reflexivity|vm_compute; reflexivity
    |simpl; lia|simpl; lia|reflexivity].
Defined.

(** X15. A crossover built with [short_window < long_window] raises
    [ValueError] on any price series when [short_window] is negative (the
    constructor lets that through); otherwise it returns one signal per
    price, each of them -1, 0 or 1, and the first [long_window] signals
    are 0: the long mean needs [long_window] prices and the signal is
    shifted by one. *)
Theorem ma_signal_shape (short long : Z) (m : MovingAverageCrossover.t)
    (px : list Q) :
  MovingAverageCrossover.__init__ short long = inr m ->
  match MovingAverageCrossover._signal_one m px with
  | inl _ => (short < 0)%Z
  | inr sig =>
      (0 <= short)%Z /\
      length sig = length px /\
      Forall (fun v => v = (-1)%Z \/ v = 0%Z \/ v = 1%Z) sig /\
      forall i, (i < length px)%nat -> (Z.of_nat i < long)%Z ->
                sig !! i = Some 0%Z
  end.
Proof.
  unfold MovingAverageCrossover.__init__.
  destruct (decide (short >= long)%Z) as [|Hlt]; [discriminate|].
  intros [= <-].
  destruct (MovingAverageCrossover._signal_one _ px) as [e|sig] eqn:Hsig.
  - unfold MovingAverageCrossover._signal_one,
      MovingAverageCrossover.rolling_mean in Hsig. simpl in Hsig.
    destruct (decide (short < 0)%Z); [assumption|].
    destruct (decide (long < 0)%Z); [lia|discriminate].
  - destruct (signal_one_lookup _ _ _ Hsig) as (Hs & _ & Hlen & H0 & HS).
    simpl in *. split; [exact Hs|]. split; [exact Hlen|]. split.
    + apply Forall_lookup. intros i v Hv.
      assert (Hi : (i < length px)%nat)
        by (rewrite <- Hlen; eapply lookup_lt_Some; exact Hv).
      destruct i as [|j].
      * rewrite H0 in Hv by lia. injection Hv as <-. auto.
      * rewrite (HS j Hi) in Hv. injection Hv as <-.
        unfold MovingAverageCrossover.crossover.
        destruct (MovingAverageCrossover.gt _ _); [auto|].
        destruct (MovingAverageCrossover.gt _ _); auto.
    + intros i Hi Hwarm. destruct i as [|j]; [apply H0; lia|].
      rewrite (HS j Hi). f_equal.
      unfold MovingAverageCrossover.crossover,
        MovingAverageCrossover.window_mean.
      rewrite (decide_False (P := (0 < Z.to_nat long <= S j)%nat)) by lia.
      destruct (decide _); reflexivity.
Qed.

Lemma ma_signal_shape_witness :
  let m := MovingAverageCrossover.mk 1 2 in
  MovingAverageCrossover.__init__ 1 2 = inr m /\
  match MovingAverageCrossover._signal_one m [1; 2; 3] with
  | inl _ => (1 < 0)%Z
  | inr sig =>
      (0 <= 1)%Z /\
      length sig = 3%nat /\
      Forall (fun v => v = (-1)%Z \/ v = 0%Z \/ v = 1%Z) sig /\
      forall i, (i < 3)%nat -> (Z.of_nat i < 2)%Z -> sig !! i = Some 0%Z
  end.
Proof.
  intros m. split; [reflexivity|].
  apply (ma_signal_shape 1 2 m [1; 2; 3]). reflexivity.
Defined.

(** ** A run without signals *)

Lemma market_value_flat (pos : gmap string Z) (dt : Z) (items : dataset) :
  (forall sym, getd pos sym = 0%Z) ->
  forall mv0 mv, market_value pos dt items mv0 = inr mv -> mv == mv0.
Proof.
  intros Hflat. induction items as [|[sym df] rest IH]; intros mv0 mv; simpl.
  - intros [= <-]. reflexivity.
  - destruct (df !! dt) as [bar|]; [|discriminate].
    intros H. apply IH in H. rewrite H, Hflat. ring.
Qed.

Lemma untouched_mark capital s dt mv (d : dataset) :
  untouched capital s ->
  market_value (positions s) dt d 0 = inr mv ->
  untouched capital (append_equity (dt, cash s + mv) s).
Proof.
  intros (Hf & Hc & Hp & Ht & Hcurve) Hmv.
  apply (market_value_flat _ _ _ Hp) in Hmv.
  repeat split; simpl; try assumption.
  apply Forall_app. split; [exact Hcurve|].
  constructor; [|constructor]. simpl. rewrite Hc, Hmv. ring.
Qed.

(** X16. No signal, no trade: when the processed target of every symbol
    is 0 on every calendar date (a strategy that signals nothing, or only
    -1 with shorts disabled), a run over a non-empty calendar returns,
    records no fill and leaves the cash at the initial capital and every
    symbol flat; and, every Close being a number as it is in this
    embedding, every mark of the equity curve equals the initial capital.
    (A NaN Close, which [load_csv] does not drop, makes the mark NaN
    although nothing is held: [0 * NaN] is NaN.) *)
Theorem no_signal_no_trade (d : dataset) (strat : Strategy) (capital : Q)
    (c : Costs.t) (shorts : bool) (bt : Backtester) :
  Backtester_init d strat capital c shorts = inr bt ->
  calendar bt <> [] ->
  (forall sym dt, dt ∈ calendar bt -> target_of bt sym dt = 0%Z) ->
  exists curve s,
    run bt (init_state bt) = (inr curve, s) /\
    fills s = [] /\ cash s = capital /\
    (forall sym, getd (positions s) sym = 0%Z) /\
    Forall (fun e => e.2 == capital) curve.
Proof.
  intros Hinit Hcal Hflat.
  destruct (Backtester_init_ok _ _ _ _ _ _ Hinit) as (Hok & _ & Hcap & _).
  pose proof (run_before_invx bt (fun _ => untouched capital)
                (fun _ _ => False)) as Hinv.
  specialize (Hinv ltac:(
    unfold untouched; rewrite <- Hcap;
    repeat split; try constructor;
    [intros sym; apply init_positions|intros sym; apply init_prev_target])).
  assert (Hstep : forall i dt next_dt s,
             calendar bt !! i = Some dt -> calendar bt !! S i = Some next_dt ->
             untouched capital s ->
             wpx (run_day bt dt next_dt) (fun _ => untouched capital)
                 (fun _ _ => False) s).
  { intros i dt nx s Hdt Hnx Hs.
    apply calendar_lookup_elem in Hdt, Hnx.
    eapply wpx_mono.
    - apply (run_day_invx bt dt nx (untouched capital) (fun _ _ => False) s
               (Hok dt Hdt) (Hok nx Hnx)); [|exact Hs].
      intros sym s0 _ H0. apply wpx_process_symbol; [exact (Hok dt Hdt)| |].
      + intros _. exact H0.
      + intros Hne. exfalso. apply Hne. rewrite (Hflat sym dt Hdt).
        destruct H0 as (_ & _ & _ & Ht & _). symmetry. apply Ht.
    - intros [] s' (s1 & mv & H1 & Hmv & ->).
      eapply untouched_mark; eassumption.
    - auto. }
  specialize (Hinv Hstep (pred (length (calendar bt)))).
  rewrite run_unfold.
  destruct (run_before bt _) as [[e|[]] s]; [contradiction|].
  destruct (last (calendar bt)) as [last_dt|] eqn:Hlast;
    [|apply last_None in Hlast; contradiction].
  assert (Hin : last_dt ∈ calendar bt).
  { apply last_Some in Hlast as [l' ->]. apply elem_of_app. right. left. }
  destruct (market_value_total _ _ (positions s) (Hok _ Hin) 0) as [mv Hmv].
  rewrite Hmv. eexists _, _. split; [reflexivity|].
  pose proof (untouched_mark _ _ _ _ _ Hinv Hmv) as (Hf & Hc & Hp & _ & Hcurve).
  simpl in *. auto.
Qed.

Lemma no_signal_no_trade_witness :
  let strat : Strategy := fun _ _ _ => Some (-1)%Z in
  let bt := mkBacktester two_symbols strat 100000 default_costs false
                         [0; 1; 2; 3]%Z (100000 * (95 # 100) / inject_Z 2) in
  exists curve s,
    run bt (init_state bt) = (inr curve, s) /\
    fills s = [] /\ cash s = 100000 /\
    (forall sym, getd (positions s) sym = 0%Z) /\
    Forall (fun e => e.2 == 100000) curve.
Proof.
  intros strat bt.
  apply (no_signal_no_trade two_symbols strat 100000 default_costs false bt);
    [vm_compute; reflexivity|discriminate|intros sym dt _; reflexivity].
Defined.

(** ** [total_return] against [max_drawdown] *)

Lemma foldl_Qmin_le_acc (ds : list Q) : forall d, foldl Qmin d ds <= d.
Proof.
  induction ds as [|e ds IH]; intros d; simpl; [apply Qle_refl|].
  eapply Qle_trans; [apply IH|apply Q.le_min_l].
Qed.

Lemma foldl_Qmin_le_last (ds : list Q) :
  forall d l, last ds = Some l -> foldl Qmin d ds <= l.
Proof.
  induction ds as [|e ds IH]; intros d l Hl; [discriminate|].
  destruct ds as [|e' ds'].
  - injection Hl as <-. simpl. apply Q.le_min_r.
  - simpl. apply IH. exact Hl.
Qed.

Lemma Qdiv_antitone (y a b : Q) : 0 <= y -> 0 < a -> a <= b -> y / b <= y / a.
Proof.
  intros Hy Ha Hab. apply Qle_shift_div_l; [exact Ha|].
  assert (Hb : 0 < b) by lra.
  assert (H : y / b * a == y * a / b) by (field; lra). rewrite H.
  apply Qle_shift_div_r; [exact Hb|]. nra.
Qed.

(** The last drawdown is no more than the return since any earlier,
    lower value. *)
Lemma last_drawdown_le (rest : list Q) :
  forall m x0 l,
    0 < x0 -> x0 <= m -> Forall (fun x => 0 < x) rest ->
    last rest = Some l ->
    exists dl, last (drawdown_series_from m rest) = Some dl /\
               dl <= l / x0 - 1.
Proof.
  induction rest as [|y rest IH]; intros m x0 l Hx0 Hm Hall Hl; [discriminate|].
  inversion_clear Hall as [|? ? Hy Hrest].
  assert (HM : x0 <= Qmax m y) by (pose proof (Q.le_max_l m y); lra).
  destruct rest as [|z rest'].
  - injection Hl as <-. simpl. eexists. split; [reflexivity|].
    assert (y / Qmax m y <= y / x0) by (apply Qdiv_antitone; lra). lra.
  - destruct (IH (Qmax m y) x0 l Hx0 HM Hrest Hl) as (dl & Hdl & Hle).
    exists dl. split; [|exact Hle].
    change (drawdown_series_from m (y :: z :: rest'))
      with ((y / Qmax m y - 1) :: drawdown_series_from (Qmax m y) (z :: rest')).
    simpl in Hdl. simpl. exact Hdl.
Qed.

(** X17. For a series of positive equity values the maximum drawdown is
    never above the total return: an account cannot end lower, relative
    to its start, than its deepest drawdown. *)
Theorem max_drawdown_le_total_return (equity : list Q) :
  Forall (fun x => 0 < x) equity ->
  max_drawdown equity <= total_return equity.
Proof.
  intros Hall. destruct equity as [|x rest]; [discriminate|].
  inversion_clear Hall as [|? ? Hx Hrest].
  unfold max_drawdown, total_return, drawdown_series.
  destruct rest as [|y rest'].
  - simpl. assert (x / x == 1) by (field; lra). lra.
  - rewrite decide_False by (simpl; lia).
    destruct (last (x :: y :: rest')) as [l|] eqn:Hl;
      [|apply last_None in Hl; discriminate].
    change (last (x :: y :: rest')) with (last (y :: rest')) in Hl.
    cbn [head].
    destruct (last_drawdown_le (y :: rest') x x l Hx (Qle_refl x) Hrest Hl)
      as (dl & Hdl & Hle).
    eapply Qle_trans; [|exact Hle].
    apply foldl_Qmin_le_last. exact Hdl.
Qed.

Lemma max_drawdown_le_total_return_witness :
  Forall (fun x => 0 < x) [100; 80; 90] /\
  max_drawdown [100; 80; 90] <= total_return [100; 80; 90].
Proof.
  assert (H : Forall (fun x => 0 < x) [100; 80; 90]) by (repeat constructor).
  split; [exact H|]. apply (max_drawdown_le_total_return [100; 80; 90] H).
Defined.

(** ** Rescaling an equity series *)

Lemma pct_change_from_scale (k prev : R) (rest : list R) :
  k <> 0%R -> prev <> 0%R -> Forall (fun x => x <> 0%R) rest ->
  pct_change_from (k * prev) (map (Rmult k) rest) = pct_change_from prev rest.
Proof.
  intros Hk. revert prev.
  induction rest as [|x rest IH]; intros prev Hp Hall; [reflexivity|].
  inversion_clear Hall as [|? ? Hx Hrest]. simpl.
  rewrite (IH x Hx Hrest). f_equal. f_equal. field. split; assumption.
Qed.

(** X18. The Sharpe ratio does not depend on the size of the account:
    multiplying every value of an equity series without zeros by the same
    non-zero factor leaves [sharpe] unchanged, NaN included. *)
Theorem sharpe_scale_invariant (k rf : R) (equity : list R) :
  k <> 0%R -> Forall (fun x => x <> 0%R) equity ->
  sharpe (map (Rmult k) equity) rf = sharpe equity rf.
Proof.
  intros Hk Hall. unfold sharpe.
  assert (Hrets : pct_change (map (Rmult k) equity) = pct_change equity).
  { destruct equity as [|x rest]; [reflexivity|].
    inversion_clear Hall as [|? ? Hx Hrest]. simpl.
    rewrite (pct_change_from_scale k x rest Hk Hx Hrest). reflexivity. }
  rewrite Hrets. reflexivity.
Qed.

Lemma sharpe_scale_invariant_witness :
  (2 <> 0)%R /\ Forall (fun x => x <> 0%R) [100; 110; 99]%R /\
  sharpe (map (Rmult 2) [100; 110; 99]%R) 0 = sharpe [100; 110; 99]%R 0.
Proof.
  assert (Hk : (2 <> 0)%R) by (apply not_0_IZR; lia).
  assert (Hall : Forall (fun x => x <> 0%R) [100; 110; 99]%R)
    by (repeat constructor; apply not_0_IZR; lia).
  split; [exact Hk|]. split; [exact Hall|].
  apply (sharpe_scale_invariant 2 0 [100; 110; 99]%R Hk Hall).
Defined.

Lemma Qmax_scale (k m x : Q) : 0 < k -> Qmax (k * m) (k * x) == k * Qmax m x.
Proof.
  intros Hk. destruct (Q.max_spec m x) as [[Hlt ->]|[Hle ->]].
  - apply Q.max_r. nra.
  - apply Q.max_l. nra.
Qed.

Lemma drawdown_from_scale (k : Q) (l : list Q) :
  0 < k ->
  forall m m' d d',
    m' == k * m -> 0 < m -> Forall (fun x => 0 < x) l -> d' == d ->
    foldl Qmin d' (drawdown_series_from m' (map (Qmult k) l))
    == foldl Qmin d (drawdown_series_from m l).
Proof.
  intros Hk. induction l as [|x rest IH]; intros m m' d d' Hm Hpos Hall Hd.
  - exact Hd.
  - inversion_clear Hall as [|? ? Hx Hrest]. simpl.
    assert (HM : Qmax m' (k * x) == k * Qmax m x).
    { rewrite <- Qmax_scale by exact Hk. apply Q.max_compat; [exact Hm|reflexivity]. }
    assert (HMpos : 0 < Qmax m x).
    { eapply Qlt_le_trans; [exact Hpos|apply Q.le_max_l]. }
    apply IH; [exact HM|exact HMpos|exact Hrest|].
    apply Q.min_compat; [exact Hd|].
    rewrite HM. field. split; lra.
Qed.

Lemma last_map_scale (k : Q) (l : list Q) :
  last (map (Qmult k) l) = option_map (Qmult k) (last l).
Proof.
  induction l as [|x l IH]; [reflexivity|].
  destruct l as [|y l']; [reflexivity|].
  change (last (map (Qmult k) (x :: y :: l')))
    with (last (map (Qmult k) (y :: l'))).
  rewrite IH. reflexivity.
Qed.

(** X19. Total return and maximum drawdown do not depend on the size of
    the account: multiplying every value of a positive equity series by
    the same positive factor changes neither. *)
Theorem return_and_drawdown_scale_invariant (k : Q) (equity : list Q) :
  0 < k -> Forall (fun x => 0 < x) equity ->
  total_return (map (Qmult k) equity) == total_return equity /\
  max_drawdown (map (Qmult k) equity) == max_drawdown equity.
Proof.
  intros Hk Hall. split.
  - unfold total_return. rewrite length_map.
    destruct (decide (length equity < 2)%nat); [reflexivity|].
    rewrite last_map_scale.
    destruct equity as [|x rest]; [reflexivity|].
    inversion_clear Hall as [|? ? Hx Hrest].
    cbn [map head]. destruct (last (x :: rest)) as [l|]; [|reflexivity].
    simpl. field. split; lra.
  - unfold max_drawdown, drawdown_series.
    destruct equity as [|x rest]; [reflexivity|].
    inversion_clear Hall as [|? ? Hx Hrest]. cbn [map].
    apply (drawdown_from_scale k rest Hk x (k * x));
      [reflexivity|exact Hx|exact Hrest|].
    field. split; lra.
Qed.

Lemma return_and_drawdown_scale_invariant_witness :
  0 < 3 /\ Forall (fun x => 0 < x) [100; 80; 90] /\
  total_return (map (Qmult 3) [100; 80; 90]) == total_return [100; 80; 90] /\
  max_drawdown (map (Qmult 3) [100; 80; 90]) == max_drawdown [100; 80; 90].
Proof.
  assert (Hk : 0 < 3) by reflexivity.
  assert (H : Forall (fun x => 0 < x) [100; 80; 90]) by (repeat constructor).
  split; [exact Hk|]. split; [exact H|].
  apply (return_and_drawdown_scale_invariant 3 [100; 80; 90] Hk H).
Defined.

(** ** Ending cash and reconstructed pnl *)

Lemma booked_reconciled bt capital next_dt sym (o : order) s eq :
  reconciled capital s ->
  (o_new_pos o = match o_side o with
                 | BUY => getd (positions s) sym + o_qty o
                 | SELL => getd (positions s) sym - o_qty o
                 end)%Z ->
  reconciled capital
    (append_fill (fill_of_order bt next_dt sym o (cash s) eq) (booked bt sym o s)).
Proof.
  intros [Hcash Hpos] Hnew. split.
  - simpl. rewrite !map_app, Qsum_app. simpl.
    set (past := Qsum (map row_flow (map Row.of_fill (fills s)))) in *.
    unfold Qsum. simpl. unfold row_flow, cash_after_order. simpl.
    destruct (o_side o); rewrite Hcash; ring.
  - intros sym'. simpl. rewrite held_snoc. simpl.
    destruct (decide (sym = sym')) as [<-|Hne].
    + rewrite getd_insert_eq, Hnew, Hpos. reflexivity.
    + rewrite getd_insert_ne by congruence. apply Hpos.
Qed.

Lemma process_symbol_reconciled bt capital dt next_dt sym s :
  has_bars (data bt) dt ->
  reconciled capital s ->
  wpx (process_symbol bt dt next_dt sym)
      (fun _ => reconciled capital) (fun _ => reconciled capital) s.
Proof.
  intros Hb Hs. apply wpx_process_symbol; [exact Hb|auto|].
  intros _. destruct (loc _ _ _) as [e|bar]; [exact Hs|].
  apply (vcx_turn_intro _ _ _ _ _ _ _ _ (reconciled capital)); auto.
  - intros o mv _ Hco _. apply booked_reconciled; [exact Hs|].
    apply (close_order_new_pos _ _ _ _ _ Hco).
  - intros s1 o mv H1 _ Hflat Heo _. apply booked_reconciled; [exact H1|].
    rewrite Hflat. apply (entry_order_new_pos _ _ _ _ _ Heo).
Qed.

Lemma run_reconciled bt :
  calendar_ok bt ->
  reconciled (initial_capital bt) (final (run bt) (init_state bt)).
Proof.
  intros Hok.
  pose proof (run_before_turns_inv bt (reconciled (initial_capital bt))
                (fun _ => reconciled (initial_capital bt)) Hok) as Hinv.
  specialize (Hinv ltac:(split;
    [unfold Qsum; simpl; ring|intros sym; rewrite init_positions; reflexivity])).
  specialize (Hinv ltac:(intros dt nx sym s0 Hd _ _ H0;
                         apply process_symbol_reconciled; auto)).
  specialize (Hinv ltac:(intros s0 e H0; exact H0)
                   (pred (length (calendar bt)))).
  destruct (run_final_state bt) as (Hc & Hp & Hf & _).
  assert (Hagree : reconciled (initial_capital bt)
                     (state_before bt (pred (length (calendar bt))))).
  { unfold state_before.
    destruct (run_before bt _) as [[e|[]] s0]; exact Hinv. }
  unfold reconciled in *. rewrite Hc, Hp, Hf. exact Hagree.
Qed.

Lemma Qsum_map_plus {A} (F G : A -> Q) (l : list A) :
  Qsum (map (fun a => F a + G a) l) == Qsum (map F l) + Qsum (map G l).
Proof.
  induction l as [|a l IH]; simpl.
  - unfold Qsum. simpl. ring.
  - rewrite !Qsum_cons, IH. ring.
Qed.

Lemma Qsum_map_ext {A} (F G : A -> Q) (l : list A) :
  (forall a, a ∈ l -> F a == G a) -> Qsum (map F l) == Qsum (map G l).
Proof.
  induction l as [|a l IH]; intros H; simpl; [reflexivity|].
  rewrite !Qsum_cons, IH.
  - rewrite (H a) by left. reflexivity.
  - intros b Hb. apply H. right. exact Hb.
Qed.

Lemma Qsum_map_zero {A} (l : list A) : Qsum (map (fun _ => 0) l) == 0.
Proof.
  induction l as [|a l IH]; simpl; [reflexivity|].
  rewrite Qsum_cons, IH. ring.
Qed.

Lemma Qsum_indicator (syms : list string) (k : string) (c : Q) :
  NoDup syms -> k ∈ syms ->
  Qsum (map (fun sym => if decide (k = sym) then c else 0) syms) == c.
Proof.
  induction 1 as [|x l Hx _ IH]; intros Hk.
  - apply elem_of_nil in Hk. contradiction.
  - simpl. rewrite Qsum_cons. destruct (decide (k = x)) as [->|Hne].
    + rewrite (Qsum_map_ext _ (fun _ => 0)).
      * rewrite Qsum_map_zero. ring.
      * intros a Ha. rewrite decide_False; [reflexivity|].
        intros ->. contradiction.
    + apply elem_of_cons in Hk as [Hk|Hk]; [contradiction|].
      rewrite (IH Hk). ring.
Qed.

(** A sum over a list is the sum, over the keys, of the sums over the
    elements of each key. *)
Lemma Qsum_by_key {A} (key : A -> string) (g : A -> Q) (syms : list string)
    (l : list A) :
  NoDup syms -> (forall a, a ∈ l -> key a ∈ syms) ->
  Qsum (map g l)
  == Qsum (map (fun sym => Qsum (map g (filter (fun a => key a = sym) l))) syms).
Proof.
  intros Hnd. induction l as [|a l IH]; intros Hin.
  - simpl. rewrite (Qsum_map_ext _ (fun _ => 0)).
    + rewrite Qsum_map_zero. reflexivity.
    + intros sym _. reflexivity.
  - simpl. rewrite Qsum_cons, IH by (intros b Hb; apply Hin; right; exact Hb).
    rewrite <- (Qsum_indicator syms (key a) (g a) Hnd) at 1 by (apply Hin; left).
    rewrite <- Qsum_map_plus. apply Qsum_map_ext. intros sym _.
    rewrite filter_cons. destruct (decide (key a = sym)); simpl.
    + rewrite Qsum_cons. reflexivity.
    + ring.
Qed.

(** X20. A run that ends flat in every symbol and whose fills all have
    positive quantity made, in cash, exactly what its round trips made:
    the ending cash is the initial capital plus the pnl of all the trades
    that [round_trip_trades] reconstructs from the run's fills. *)
Theorem flat_run_cash_is_realized_pnl (d : dataset) (strat : Strategy)
    (capital : Q) (c : Costs.t) (shorts : bool) (r : exn + list (Z * Q))
    (s : state) :
  backtest d strat capital c shorts = inr (r, s) ->
  Forall (fun f => 0 < Fill.qty f)%Z (fills s) ->
  (forall sym, getd (positions s) sym = 0%Z) ->
  exists trades,
    round_trip_trades (fills s) = inr trades /\
    cash s == capital + Qsum (map Trade.pnl trades).
Proof.
  intros Hrun Hqty Hflat. apply backtest_inr in Hrun as (bt & Hinit & Hrun).
  destruct (Backtester_init_ok _ _ _ _ _ _ Hinit) as (Hok & _ & Hcap & _).
  assert (Hs : s = final (run bt) (init_state bt))
    by (unfold final; rewrite Hrun; reflexivity).
  pose proof (run_reconciled bt Hok) as [Hcash Hheld].
  rewrite <- Hs, Hcap in Hcash. rewrite <- Hs in Hheld.
  destruct (round_trips_flow (fills s) Hqty) as (trades & Htrades & Hflow).
  exists trades. split; [exact Htrades|]. rewrite Hcash.
  apply Qplus_inj_l.
  set (rows := map Row.of_fill (fills s)).
  set (syms := remove_dups (map Row.symbol rows ++ map Trade.symbol trades)).
  assert (Hnd : NoDup syms) by apply NoDup_remove_dups.
  rewrite (Qsum_by_key Row.symbol row_flow syms rows Hnd).
  2:{ intros a Ha. apply elem_of_remove_dups, elem_of_app. left.
      apply list_elem_of_fmap_2. exact Ha. }
  rewrite (Qsum_by_key Trade.symbol Trade.pnl syms trades Hnd).
  2:{ intros a Ha. apply elem_of_remove_dups, elem_of_app. right.
      apply list_elem_of_fmap_2. exact Ha. }
  apply Qsum_map_ext. intros sym _. symmetry.
  apply (Hflow sym). rewrite <- Hheld. apply Hflat.
Qed.

Lemma flat_run_cash_is_realized_pnl_witness :
  exists r s,
    backtest two_symbols long_then_flat 100000 default_costs false = inr (r, s) /\
    fills s <> [] /\
    exists trades,
      round_trip_trades (fills s) = inr trades /\
      cash s == 100000 + Qsum (map Trade.pnl trades).
Proof.
  eexists _, _. split; [vm_compute; reflexivity|]. split; [discriminate|].
  eapply (flat_run_cash_is_realized_pnl two_symbols long_then_flat 100000
            default_costs false).
  - vm_compute. reflexivity.
  - repeat constructor.
  - intros sym.
    match goal with
    | |- getd (positions ?s) sym = 0%Z =>
        assert (Hm : positions s
                     = <["AAA"%string := 0%Z]>
                         (<["BBB"%string := 0%Z]> (∅ : gmap string Z)))
          by (vm_compute; reflexivity);
        rewrite Hm
    end.
    unfold getd.
    destruct (decide (sym = "AAA"%string)) as [->|Ha];
      [rewrite lookup_insert_eq; reflexivity|].
    rewrite lookup_insert_ne by congruence.
    destruct (decide (sym = "BBB"%string)) as [->|Hb];
      [rewrite lookup_insert_eq; reflexivity|].
    rewrite lookup_insert_ne by congruence. rewrite lookup_empty. reflexivity.
Defined.
